(** * GrowProxy: packet codec, relay rewrite, command registry, scheduler and
    world state, embedded from the JavaScript sources and checked against the
    written specification.

    Layout: the first part embeds the program (one module per source file);
    the second part states and proves the properties of the specification,
    the third further properties of the code. *)

From Stdlib Require Import ZArith List Lia String Ascii Bool.
From stdpp Require Import base tactics option list numbers gmap strings.

Set Default Proof Using "Type".

(* ===================================================================== *)
(** * Part I. The program                                                  *)
(* ===================================================================== *)

(** ** JavaScript strings

    A string is the list of its units, each a [Z].  In [TextParse],
    [CommandRegistry] and [proxyCore] the units are the UTF-16 code units the
    engine works on.  In the packet codec a string that crosses
    [Buffer.from(s, "utf8")] / [buf.toString("utf8")] is carried by the bytes of
    its UTF-8 encoding, so both conversions are the identity of the
    representation; the separators the code searches for (['|'], ['\n']) are
    ASCII and are one unit in either reading.  Ill-formed UTF-8 in a buffer,
    which [toString] would replace by U+FFFD, is outside the model, and so
    is a lone surrogate in a string, which [Buffer.from] would write as the
    bytes of U+FFFD.  On a string of ASCII units the two readings are the
    same list; a property that takes a text of the program through the
    codec and back is stated for such strings. *)

Module Js.

Definition jsstring := list Z.

(** String literal of the source, as units. *)
Definition lit (s : string) : jsstring :=
  map (fun a => Z.of_N (N_of_ascii a)) (list_ascii_of_string s).

Definition str_eqb (a b : jsstring) : bool := bool_decide (a = b).

(** [s.split(d)] for a separator of one unit: never returns the empty list. *)
Fixpoint split_on (d : Z) (s : jsstring) : list jsstring :=
  match s with
  | [] => [[]]
  | c :: s' =>
      if (c =? d)%Z then [] :: split_on d s'
      else match split_on d s' with
           | p :: ps => (c :: p) :: ps
           | [] => [[c]]
           end
  end.

(** [lines.join(sep)]. *)
Fixpoint join (sep : jsstring) (l : list jsstring) : jsstring :=
  match l with
  | [] => []
  | [x] => x
  | x :: rest => x ++ sep ++ join sep rest
  end.

(** [s.startsWith(p)]. *)
Fixpoint startsWith (s p : jsstring) : bool :=
  match p, s with
  | [], _ => true
  | _ :: _, [] => false
  | a :: p', b :: s' => (a =? b)%Z && startsWith s' p'
  end.

(** [s.includes(p)]. *)
Fixpoint includes (s p : jsstring) : bool :=
  startsWith s p ||
  match s with
  | [] => false
  | _ :: s' => includes s' p
  end.

(** ECMAScript WhiteSpace and LineTerminator code units: what [trim],
    [trimStart] and the regular-expression class [\s] match. *)
Definition is_space (c : Z) : bool :=
  ((9 <=? c) && (c <=? 13) || (c =? 32) || (c =? 160) || (c =? 5760)
   || (8192 <=? c) && (c <=? 8202) || (c =? 8232) || (c =? 8233)
   || (c =? 8239) || (c =? 8287) || (c =? 12288) || (c =? 65279))%Z.

Fixpoint trimStart (s : jsstring) : jsstring :=
  match s with
  | c :: s' => if is_space c then trimStart s' else s
  | [] => []
  end.

Definition trimEnd (s : jsstring) : jsstring := rev (trimStart (rev s)).

Definition trim (s : jsstring) : jsstring := trimEnd (trimStart s).

Definition is_digit (c : Z) : bool := ((48 <=? c) && (c <=? 57))%Z.

Fixpoint digits_value (acc : Z) (s : jsstring) : Z :=
  match s with
  | c :: s' => if is_digit c then digits_value (10 * acc + (c - 48)) s' else acc
  | [] => acc
  end.

(** [Number.parseInt(s, 10)]: [None] stands for NaN.  The result is the
    exact integer; the rounding of values beyond 2^53 to a double is not
    reproduced. *)
Definition parseInt10 (s : jsstring) : option Z :=
  let t := trimStart s in
  let '(neg, body) :=
    match t with
    | c :: t' => if (c =? 45)%Z then (true, t')
                 else if (c =? 43)%Z then (false, t') else (false, t)
    | [] => (false, [])
    end in
  match body with
  | c :: _ =>
      if is_digit c
      then Some (if neg : bool then (- digits_value 0 body)%Z else digits_value 0 body)
      else None
  | [] => None
  end.

(** Decimal digits of a non-negative integer, most significant first. *)
Fixpoint digits_fuel (fuel : nat) (n : Z) (acc : jsstring) : jsstring :=
  match fuel with
  | O => acc
  | S f =>
      let acc' := (48 + n mod 10)%Z :: acc in
      if (n <? 10)%Z then acc' else digits_fuel f (n / 10)%Z acc'
  end.

(** [String(n)] for an integer [n] rendered in plain decimal. *)
Definition decimal (n : Z) : jsstring :=
  if (n <? 0)%Z then 45%Z :: digits_fuel (S (Z.to_nat (Z.log2 (- n)))) (- n)%Z []
  else digits_fuel (S (Z.to_nat (Z.log2 n))) n [].

End Js.

(** ** src/textParse.js: class [TextParse] *)

Module TextParse.
Import Js.

Definition BAR : Z := 124.   (* "|" *)
Definition NL : Z := 10.     (* "\n" *)

(** One record: key and value list.  [entries] keeps them in order. *)
Definition entry : Type := jsstring * list jsstring.
Definition t : Type := list entry.

(** Body of the [for (const token of split)] loop of [tokenize]. *)
Definition tokenize_step (keepEmpty : bool) (out : list jsstring) (token : jsstring)
  : list jsstring :=
  if (length token =? 0)%nat && (length out =? 0)%nat then out
  else if (length token =? 0)%nat && negb keepEmpty then out
  else out ++ [token].

Definition tokenize (raw : jsstring) (delimiter : Z) (keepEmpty : bool) : list jsstring :=
  match raw with
  | [] => []
  | _ => fold_left (tokenize_step keepEmpty) (split_on delimiter raw) []
  end.

(** Body of the [for (const line of lines)] loop of [parse]. *)
Definition parse_step (delimiter : Z) (entries : t) (line : jsstring) : t :=
  let tokens := tokenize line delimiter true in
  if (length tokens <? 2)%nat then entries
  else match tokens with
       | key :: values => entries ++ [(key, values)]
       | [] => entries
       end.

Definition parse (raw : jsstring) (delimiter : Z) : t :=
  match raw with
  | [] => []
  | _ => fold_left (parse_step delimiter) (split_on NL raw) []
  end.

(** [new TextParse(raw)]. *)
Definition new (raw : jsstring) : t := parse raw BAR.

Definition add (p : t) (key : jsstring) (values : list jsstring) : t :=
  p ++ [(key, values)].

(** [set]: replace the value list of the first record with that key, or
    append. *)
Fixpoint set (p : t) (key : jsstring) (values : list jsstring) : t :=
  match p with
  | [] => [(key, values)]
  | (k, vs) :: rest =>
      if str_eqb k key then (k, values) :: rest
      else (k, vs) :: set rest key values
  end.

Definition remove (p : t) (key : jsstring) : t :=
  List.filter (fun e => negb (str_eqb (fst e) key)) p.

Definition find (p : t) (key : jsstring) : option entry :=
  List.find (fun e => str_eqb (fst e) key) p.

(** [get(key, index)]; the index is a non-negative literal at every call. *)
Definition get (p : t) (key : jsstring) (index : nat) : jsstring :=
  match find p key with
  | None => []
  | Some found => nth index (snd found) []
  end.

Definition getInt (p : t) (key : jsstring) (index : nat) (fallback : Z) : Z :=
  match get p key index with
  | [] => fallback
  | value => match parseInt10 value with
             | None => fallback
             | Some n => n
             end
  end.

Definition contains (p : t) (key : jsstring) : bool :=
  existsb (fun e => str_eqb (fst e) key) p.

Definition empty (p : t) : bool := (length p =? 0)%nat.

(** One line of [getRaw]. *)
Definition raw_line (delimiter : Z) (prependText : jsstring) (e : entry) : jsstring :=
  fold_left (fun line value => line ++ delimiter :: value) (snd e) (prependText ++ fst e).

Definition getRaw (p : t) (delimiter : Z) (prependText : jsstring) : jsstring :=
  join [NL] (map (raw_line delimiter prependText) p).

End TextParse.

(** ** JavaScript numbers

    A finite number is kept by sign, magnitude and binary exponent:
    [Fin neg m e] is (-1)^neg * m * 2^e, with [m = 0] for the two zeros.
    Every double has such a form (it is not unique, and the functions below
    depend on the denoted value only).  [Inf] and [NaN] are the non-finite
    values. *)

Module Num.
Import Js.
Local Open Scope Z_scope.

Inductive number :=
| Fin (neg : bool) (m : N) (e : Z)
| Inf (neg : bool)
| NaN.

Definition of_Z (z : Z) : number := Fin (z <? 0) (Z.to_N (Z.abs z)) 0.

Definition UINT32_MAX : Z := 4294967295.
Definition INT32_MIN : Z := -2147483648.
Definition INT32_MAX : Z := 2147483647.

Definition isFinite (x : number) : bool :=
  match x with Fin _ _ _ => true | _ => false end.

Definition isInteger (x : number) : bool :=
  match x with
  | Fin _ m e => if 0 <=? e then true else Z.of_N m mod 2 ^ (- e) =? 0
  | _ => false
  end.

(** Integer part (toward zero) of a finite number; 0 for the others. *)
Definition trunc (x : number) : Z :=
  match x with
  | Fin neg m e =>
      let a := if 0 <=? e then Z.of_N m * 2 ^ e else Z.of_N m / 2 ^ (- e) in
      if neg then - a else a
  | _ => 0
  end.

(** Truthiness: zero (of either sign) and NaN are falsy. *)
Definition truthy (x : number) : bool :=
  match x with
  | Fin _ m _ => negb (m =? 0)%N
  | Inf _ => true
  | NaN => false
  end.

(** [x || 0]. *)
Definition or_zero (x : number) : number := if truthy x then x else of_Z 0.

(** [x >>> 0] and [x | 0]: ToUint32 and ToInt32. *)
Definition toUint32 (x : number) : Z := trunc x mod 2 ^ 32.
Definition toInt32 (x : number) : Z :=
  let u := toUint32 x in if u <? 2 ^ 31 then u else u - 2 ^ 32.

(** [String(x)].  Integers are printed in plain decimal; the exponent
    notation the engine switches to from 10^21 on, and the shortest-digits
    printing of fractions, are not reproduced (no caller below prints a
    fraction). *)
Definition toString (x : number) : jsstring :=
  match x with
  | NaN => lit "NaN"
  | Inf false => lit "Infinity"
  | Inf true => lit "-Infinity"
  | Fin _ _ _ => decimal (trunc x)
  end.

(** *** IEEE 754 binary32, as [writeFloatLE] / [readFloatLE] use it *)

Definition sign_bit (neg : bool) : Z := if neg then 2 ^ 31 else 0.

(** [m / 2^d] rounded to nearest, ties to even. *)
Definition round_shift (m d : Z) : Z :=
  let n0 := m / 2 ^ d in
  let rem := m mod 2 ^ d in
  let half := 2 ^ (d - 1) in
  if (half <? rem) || ((rem =? half) && Z.odd n0) then n0 + 1 else n0.

(** Bit pattern of the binary32 value nearest to [x]. *)
Definition f32_bits (x : number) : Z :=
  match x with
  | NaN => 2143289344                       (* 0x7fc00000 *)
  | Inf neg => sign_bit neg + 2139095040    (* 0x7f800000 *)
  | Fin neg m e =>
      if (m =? 0)%N then sign_bit neg
      else
        let k := Z.log2 (Z.of_N m) in
        let q := Z.max (k + e - 23) (-149) in
        let n := if q <=? e then Z.of_N m * 2 ^ (e - q)
                 else round_shift (Z.of_N m) (q - e) in
        sign_bit neg + Z.min ((q + 149) * 2 ^ 23 + n) 2139095040
  end.

(** The number a binary32 bit pattern denotes. *)
Definition f32_value (b : Z) : number :=
  let neg := 2 ^ 31 <=? b in
  let E := (b / 2 ^ 23) mod 256 in
  let M := b mod 2 ^ 23 in
  if E =? 255 then (if M =? 0 then Inf neg else NaN)
  else if E =? 0 then Fin neg (Z.to_N M) (-149)
  else Fin neg (Z.to_N (2 ^ 23 + M)) (E - 150).

End Num.

(** ** src/worldState.js: class [WorldState] *)

Module WorldState.
Import Js.
Local Open Scope Z_scope.

(** The payload [parseOnSpawn] builds. *)
Record participant := {
  spawn : jsstring;
  netId : Z;
  userId : Z;
  name : jsstring;
  type : jsstring
}.

Record t := { players : gmap Z participant; localNetId : Z }.

Definition new : t := {| players := ∅; localNetId := -1 |}.

Definition clear (w : t) : t := {| players := ∅; localNetId := -1 |}.

Definition onSpawn (w : t) (payload : participant) : t :=
  if netId payload <? 0 then w
  else {| players := <[netId payload := payload]> (players w);
          localNetId := if str_eqb (type payload) (lit "local")
                        then netId payload else localNetId w |}.

Definition onRemove (w : t) (netId : Z) : t :=
  if netId <? 0 then w
  else {| players := delete netId (players w);
          localNetId := if localNetId w =? netId then -1 else localNetId w |}.

Definition getLocalNetId (w : t) : Z := localNetId w.

(** The three mutators, as calls. *)
Inductive op :=
| OnSpawn (payload : participant)
| OnRemove (netId : Z)
| Clear.

Definition apply (w : t) (o : op) : t :=
  match o with
  | OnSpawn payload => onSpawn w payload
  | OnRemove netId => onRemove w netId
  | Clear => clear w
  end.

Definition run (ops : list op) : t := fold_left apply ops new.

End WorldState.

(** ** src/packet.js: frames, the variant codec, the tank header *)

Module Packet.
Import Js Num.
Local Open Scope Z_scope.

(** A Node [Buffer]: its bytes. *)
Definition Buffer := list Z.

(** The values that travel in a variant list.  [VArr] is an array of
    numbers (what the decoder builds for VEC2/VEC3); [VUndefined] is
    [undefined], also what reading a hole or past the end of an array
    gives. *)
Inductive jsval :=
| VStr (s : jsstring)
| VNum (x : number)
| VArr (l : list number)
| VUndefined.

(** [NET_MESSAGE], [GAME_PACKET], [VARIANT_TYPE]. *)
Definition SERVER_HELLO : Z := 1.
Definition GENERIC_TEXT : Z := 2.
Definition GAME_MESSAGE : Z := 3.
Definition GAME_PACKET : Z := 4.
Definition CALL_FUNCTION : Z := 1.
Definition DISCONNECT : Z := 26.
Definition FLOAT : Z := 1.
Definition STRING : Z := 2.
Definition VEC2 : Z := 3.
Definition VEC3 : Z := 4.
Definition UNSIGNED : Z := 5.
Definition SIGNED : Z := 9.

(** The values [parsed.packetId] takes: the members of [PacketId], and
    [Inherited] for what a table lookup yields under a name that the
    table inherits from [Object.prototype] ([tbl["toString"]] is a
    function, not [undefined]): a value that equals no packet id. *)
Inductive PacketId :=
| ServerHello | Quit | QuitToExit | JoinRequest | ValidateWorld | Input | Log
| Disconnect | OnSendToServer | OnSpawn | OnRemove | OnNameChanged
| OnChangeSkin | Unknown | Inherited.

(** *** Buffer primitives.  Every read below is guarded by the caller's
    bounds test, as in the source. *)

Definition blen (b : Buffer) : Z := Z.of_nat (length b).
Definition readUInt8 (b : Buffer) (pos : Z) : Z := nth (Z.to_nat pos) b 0.
Definition readUInt32LE (b : Buffer) (pos : Z) : Z :=
  readUInt8 b pos + 2 ^ 8 * readUInt8 b (pos + 1)
  + 2 ^ 16 * readUInt8 b (pos + 2) + 2 ^ 24 * readUInt8 b (pos + 3).
Definition readInt32LE (b : Buffer) (pos : Z) : Z :=
  let u := readUInt32LE b pos in if u <? 2 ^ 31 then u else u - 2 ^ 32.
Definition readFloatLE (b : Buffer) (pos : Z) : number :=
  f32_value (readUInt32LE b pos).
Definition subarray (b : Buffer) (from to : Z) : Buffer :=
  take (Z.to_nat (to - from)) (drop (Z.to_nat from) b).

(** An array element stored into a byte ([Buffer.from([v])]). *)
Definition u8 (v : Z) : Z := v mod 256.
(** Four little-endian bytes of a 32-bit pattern.  [writeUInt32LE] rejects
    values above 2^32-1 with a RangeError; the only unbounded value written
    is a string's byte length, which the engine's string size limit keeps
    far below. *)
Definition le32 (v : Z) : Buffer :=
  [v mod 256; (v / 2 ^ 8) mod 256; (v / 2 ^ 16) mod 256; (v / 2 ^ 24) mod 256].
Definition writeUInt32LE (v : Z) : Buffer := le32 v.
Definition writeInt32LE (v : Z) : Buffer := le32 (v mod 2 ^ 32).
Definition writeFloatLE (x : number) : Buffer := le32 (f32_bits x).
(** [b] with the bytes [w] stored at offset [off]. *)
Definition write_at (b : Buffer) (off : Z) (w : Buffer) : Buffer :=
  take (Z.to_nat off) b ++ w ++ drop (Z.to_nat off + length w) b.

Definition stripNullTerminator (buffer : Buffer) : Buffer :=
  if (0 <? blen buffer) && (readUInt8 buffer (blen buffer - 1) =? 0)
  then subarray buffer 0 (blen buffer - 1) else buffer.

Definition ensureNullTerminator (buffer : Buffer) : Buffer :=
  if (0 <? blen buffer) && (readUInt8 buffer (blen buffer - 1) =? 0)
  then buffer else buffer ++ [0].

(** *** Decoding a variant list *)

Record ventry := {
  entry_index : Z;
  entry_type : Z;
  entry_value : jsval;
  entry_encoded : option Buffer
}.

Record vparsed := { count : Z; entries : list ventry }.

(** The type-dependent branch of the loop body: value and new position,
    [None] where the source returns [null]. *)
Definition parse_payload (b : Buffer) (type pos : Z) : option (jsval * Z) :=
  if type =? FLOAT then
    if blen b <? pos + 4 then None
    else Some (VNum (readFloatLE b pos), pos + 4)
  else if type =? STRING then
    if blen b <? pos + 4 then None
    else
      let strLen := readUInt32LE b pos in
      let pos := pos + 4 in
      if blen b <? pos + strLen then None
      else Some (VStr (subarray b pos (pos + strLen)), pos + strLen)
  else if type =? VEC2 then
    if blen b <? pos + 8 then None
    else Some (VArr [readFloatLE b pos; readFloatLE b (pos + 4)], pos + 8)
  else if type =? VEC3 then
    if blen b <? pos + 12 then None
    else Some (VArr [readFloatLE b pos; readFloatLE b (pos + 4);
                     readFloatLE b (pos + 8)], pos + 12)
  else if type =? UNSIGNED then
    if blen b <? pos + 4 then None
    else Some (VNum (of_Z (readUInt32LE b pos)), pos + 4)
  else if type =? SIGNED then
    if blen b <? pos + 4 then None
    else Some (VNum (of_Z (readInt32LE b pos)), pos + 4)
  else None.

(** The [for (let i = 0; i < count; i += 1)] loop, [n] iterations left. *)
Fixpoint parse_loop (b : Buffer) (n : nat) (pos : Z) (acc : list ventry)
  : option (list ventry) :=
  match n with
  | O => Some acc
  | S n' =>
      if blen b <? pos + 2 then None
      else
        let entryStart := pos in
        let index := readUInt8 b pos in
        let type := readUInt8 b (pos + 1) in
        match parse_payload b type (pos + 2) with
        | None => None
        | Some (value, entryEnd) =>
            parse_loop b n' entryEnd
              (acc ++ [{| entry_index := index; entry_type := type;
                          entry_value := value;
                          entry_encoded := Some (subarray b entryStart entryEnd) |}])
        end
  end.

Definition parseVariantEntries (extraBuffer : Buffer) : option vparsed :=
  if blen extraBuffer =? 0 then Some {| count := 0; entries := [] |}
  else
    let count := readUInt8 extraBuffer 0 in
    match parse_loop extraBuffer (Z.to_nat count) 1 [] with
    | None => None
    | Some entries => Some {| count := count; entries := entries |}
    end.

(** A JavaScript array that may have holes: [None] is a hole. *)
Definition jsarray := list (option jsval).

(** [args[i] = v]: in range it overwrites, beyond the end the array grows
    and the skipped slots are holes. *)
Definition array_set (args : jsarray) (i : nat) (v : jsval) : jsarray :=
  if (i <? length args)%nat then <[i := Some v]> args
  else args ++ replicate (i - length args) None ++ [Some v].

(** [args[i]]. *)
Definition array_get (args : jsarray) (i : nat) : jsval :=
  match args !! i with
  | Some (Some v) => v
  | _ => VUndefined
  end.

Definition parseVariantArgs (extraBuffer : Buffer) : jsarray :=
  match parseVariantEntries extraBuffer with
  | None => []
  | Some parsed =>
      fold_left (fun args entry =>
                   array_set args (Z.to_nat (entry_index entry)) (entry_value entry))
                (entries parsed) []
  end.

(** *** Encoding from high-level arguments *)

(** What [encodeVariantArgs] pushes for one value, after the index byte. *)
Definition encode_value (value : jsval) : Buffer :=
  match value with
  | VStr s => [STRING] ++ writeUInt32LE (blen s) ++ s
  | VNum x =>
      if isInteger x then
        if (0 <=? trunc x) && (trunc x <=? UINT32_MAX) then
          [UNSIGNED] ++ writeUInt32LE (trunc x)
        else if (INT32_MIN <=? trunc x) && (trunc x <=? INT32_MAX) then
          [SIGNED] ++ writeInt32LE (trunc x)
        else
          let asText := toString x in
          [STRING] ++ writeUInt32LE (blen asText) ++ asText
      else if negb (isFinite x) then
        let asText := toString x in
        [STRING] ++ writeUInt32LE (blen asText) ++ asText
      else [FLOAT] ++ writeFloatLE x
  | VArr l =>
      if (2 <=? length l)%nat && (length l <=? 3)%nat then
        [if (length l =? 2)%nat then VEC2 else VEC3]
        ++ concat (map (fun c => writeFloatLE (or_zero c)) l)
      else [STRING] ++ writeUInt32LE 0
  | VUndefined => [STRING] ++ writeUInt32LE 0
  end.

(** The [for] loop of [encodeVariantArgs] from index [i] on. *)
Fixpoint encode_from (i : nat) (args : list jsval) : Buffer :=
  match args with
  | [] => []
  | value :: rest => [u8 (Z.of_nat i)] ++ encode_value value ++ encode_from (S i) rest
  end.

Definition encodeVariantArgs (args : list jsval) : Buffer :=
  [u8 (Z.of_nat (length args))] ++ encode_from 0 args.

(** *** Conversions *)

Section Conversions.
(** [Number(s)] for a string [s] (the StringToNumber of the language):
    a builtin, taken as given. *)
Variable StringToNumber : jsstring -> number.

(** [Number(v)]. *)
Definition ToNumber (v : jsval) : number :=
  match v with
  | VStr s => StringToNumber s
  | VNum x => x
  | VArr [] => of_Z 0
  | VArr [x] => if truthy x then x else match x with NaN => NaN | _ => of_Z 0 end
  | VArr _ => NaN
  | VUndefined => NaN
  end.

(** [String(v)], with the empty string for [undefined] (the [??] of the
    caller). *)
Definition ToString (v : jsval) : jsstring :=
  match v with
  | VStr s => s
  | VNum x => toString x
  | VArr l => join (lit ",") (map toString l)
  | VUndefined => []
  end.

(** *** Re-encoding parsed entries *)

Definition buildVariantEntry (index type : Z) (value : jsval) : option Buffer :=
  let indexBuffer := [Z.land index 255; Z.land type 255] in
  if type =? STRING then
    let text := ToString value in
    Some (indexBuffer ++ writeUInt32LE (blen text) ++ text)
  else if type =? UNSIGNED then
    Some (indexBuffer ++ writeUInt32LE (toUint32 (ToNumber value)))
  else if type =? SIGNED then
    Some (indexBuffer ++ writeInt32LE (toInt32 (ToNumber value)))
  else if type =? FLOAT then
    Some (indexBuffer ++ writeFloatLE (or_zero (ToNumber value)))
  else if (type =? VEC2) || (type =? VEC3) then
    let vec := match value with VArr l => l | _ => [] end in
    let count := if type =? VEC2 then 2%nat else 3%nat in
    Some (indexBuffer
          ++ concat (map (fun i => writeFloatLE (or_zero (nth i vec NaN)))
                         (seq 0 count)))
  else None.

(** The loop of [encodeVariantEntries]; [None] where the source gives up
    and returns the empty buffer. *)
Fixpoint encode_entries_loop (es : list ventry) : option Buffer :=
  match es with
  | [] => Some []
  | entry :: rest =>
      match (match entry_encoded entry with
             | Some enc => Some enc
             | None => buildVariantEntry (entry_index entry) (entry_type entry)
                         (entry_value entry)
             end) with
      | None => None
      | Some chunk =>
          match encode_entries_loop rest with
          | None => None
          | Some tail => Some (chunk ++ tail)
          end
      end
  end.

Definition encodeVariantEntries (parsed : vparsed) : Buffer :=
  match encode_entries_loop (entries parsed) with
  | None => []
  | Some body => [Z.land (count parsed) 255] ++ body
  end.

(** [entries.find((entry) => entry.index === i)]. *)
Definition find_index (i : Z) (es : list ventry) : option ventry :=
  List.find (fun entry => entry_index entry =? i) es.

(** The entry [find_index] returns is an alias into the list: a write to
    it changes the first entry of that index in place. *)
Fixpoint update_index (i : Z) (f : ventry -> ventry) (es : list ventry)
  : list ventry :=
  match es with
  | [] => []
  | entry :: rest =>
      if entry_index entry =? i then f entry :: rest
      else entry :: update_index i f rest
  end.

(** [s.indexOf(c)]: -1 when [c] does not occur. *)
Fixpoint indexOf (c : Z) (s : jsstring) : Z :=
  match s with
  | [] => -1
  | x :: s' => if x =? c then 0
               else let r := indexOf c s' in if r <? 0 then -1 else r + 1
  end.

(** [v === s] for a string [s]. *)
Definition strict_eq_string (v : jsval) (s : jsstring) : bool :=
  match v with VStr x => str_eqb x s | _ => false end.

Definition ON_SEND_TO_SERVER : jsstring := lit "OnSendToServer".
Definition LOCALHOST : jsstring := lit "127.0.0.1".

Definition rewriteOnSendToServerExtra
    (extraBuffer : Buffer) (newAddress : jsstring) (newPort : number)
  : option Buffer :=
  match parseVariantEntries extraBuffer with
  | None => None
  | Some parsed =>
      if (length (entries parsed) =? 0)%nat then None
      else
        match find_index 0 (entries parsed) with
        | None => None
        | Some functionEntry =>
            if negb (entry_type functionEntry =? STRING)
               || negb (strict_eq_string (entry_value functionEntry) ON_SEND_TO_SERVER)
            then None
            else
              match find_index 1 (entries parsed), find_index 4 (entries parsed) with
              | Some portEntry, Some routeEntry =>
                  if negb (entry_type routeEntry =? STRING) then None
                  else
                    let routeText :=
                      match entry_value routeEntry with VStr s => s | _ => [] end in
                    let separatorIndex := indexOf TextParse.BAR routeText in
                    let address :=
                      match newAddress with [] => LOCALHOST | _ => newAddress end in
                    let rewrittenRoute :=
                      if 0 <=? separatorIndex
                      then address ++ drop (Z.to_nat separatorIndex) routeText
                      else address in
                    let portValue := VNum (or_zero newPort) in
                    let portType :=
                      if (entry_type portEntry =? SIGNED)
                         || (entry_type portEntry =? UNSIGNED)
                      then entry_type portEntry else UNSIGNED in
                    let es1 :=
                      update_index 1
                        (fun e => {| entry_index := entry_index e;
                                     entry_type := entry_type e;
                                     entry_value := portValue;
                                     entry_encoded :=
                                       buildVariantEntry (entry_index e) portType portValue |})
                        (entries parsed) in
                    let es2 :=
                      update_index 4
                        (fun e => {| entry_index := entry_index e;
                                     entry_type := entry_type e;
                                     entry_value := VStr rewrittenRoute;
                                     entry_encoded :=
                                       buildVariantEntry (entry_index e) STRING
                                         (VStr rewrittenRoute) |})
                        es1 in
                    let encoded :=
                      encodeVariantEntries {| count := count parsed; entries := es2 |} in
                    if (0 <? length encoded)%nat then Some encoded else None
              | _, _ => None
              end
        end
  end.

(** *** [parseOnSendToServer] *)

Record sendToServer := {
  port : number;
  token : number;
  user : number;
  address : jsstring;
  doorId : jsstring;
  uuidToken : jsstring;
  loginMode : number;
  username : jsstring
}.

Definition string_or_empty (v : jsval) : jsstring :=
  match v with VStr s => s | _ => [] end.

Definition parseOnSendToServer (variantArgs : jsarray) : option sendToServer :=
  if (length variantArgs <? 5)%nat then None
  else
    let rawText := string_or_empty (array_get variantArgs 4) in
    let key := hd [] (split_on TextParse.BAR rawText) in
    let text := TextParse.new rawText in
    Some {| port := or_zero (ToNumber (array_get variantArgs 1));
            token := or_zero (ToNumber (array_get variantArgs 2));
            user := or_zero (ToNumber (array_get variantArgs 3));
            address := key;
            doorId := TextParse.get text key 0;
            uuidToken := TextParse.get text key 1;
            loginMode :=
              or_zero (ToNumber (match array_get variantArgs 5 with
                                 | VUndefined => VNum (of_Z 0)
                                 | v => v
                                 end));
            username := string_or_empty (array_get variantArgs 6) |}.

End Conversions.

(** *** Frames *)

Record text_packet := {
  text_messageType : Z;
  text_text : jsstring;
  text_parser : TextParse.t;
  text_packetId : PacketId;
  text_inputText : jsstring
}.

(** The property names every object literal inherits from
    [Object.prototype]: under these a lookup in a table yields the
    inherited member, which is not nullish. *)
Definition inherited_name (name : jsstring) : bool :=
  existsb (str_eqb name)
    [lit "constructor"; lit "toString"; lit "toLocaleString"; lit "valueOf";
     lit "hasOwnProperty"; lit "isPrototypeOf"; lit "propertyIsEnumerable";
     lit "__proto__"; lit "__defineGetter__"; lit "__defineSetter__";
     lit "__lookupGetter__"; lit "__lookupSetter__"].

(** [ACTION_PACKET_MAP[action] ?? PacketId.Unknown]. *)
Definition action_packet (action : jsstring) : PacketId :=
  if str_eqb action (lit "quit") then Quit
  else if str_eqb action (lit "quit_to_exit") then QuitToExit
  else if str_eqb action (lit "join_request") then JoinRequest
  else if str_eqb action (lit "validate_world") then ValidateWorld
  else if str_eqb action (lit "input") then Input
  else if str_eqb action (lit "log") then Log
  else if inherited_name action then Inherited
  else Unknown.

(** [VARIANT_FUNCTION_MAP[name] ?? PacketId.Unknown]. *)
Definition variant_function_packet (name : jsstring) : PacketId :=
  if str_eqb name (lit "OnSendToServer") then OnSendToServer
  else if str_eqb name (lit "OnSpawn") then OnSpawn
  else if str_eqb name (lit "OnRemove") then OnRemove
  else if str_eqb name (lit "OnNameChanged") then OnNameChanged
  else if str_eqb name (lit "OnChangeSkin") then OnChangeSkin
  else if inherited_name name then Inherited
  else Unknown.

Definition parseTextPacket (rawBuffer : Buffer) : option text_packet :=
  let buffer := stripNullTerminator rawBuffer in
  if blen buffer <? 4 then None
  else
    let messageType := readUInt32LE buffer 0 in
    let message := subarray buffer 4 (blen buffer) in
    let parser := TextParse.new message in
    let packetId :=
      if messageType =? SERVER_HELLO then ServerHello
      else action_packet (TextParse.get parser (lit "action") 0) in
    let inputText :=
      match packetId with
      | Input =>
          match TextParse.get parser (lit "text") 0 with
          | [] => TextParse.get parser [] 1
          | t => t
          end
      | _ => []
      end in
    Some {| text_messageType := messageType; text_text := message;
            text_parser := parser; text_packetId := packetId;
            text_inputText := inputText |}.

Record tank_packet := {
  messageType : Z;
  packetType : Z;
  netId : Z;
  targetNetId : Z;
  state : Z;
  info : Z;
  dataSize : Z;
  extra : Buffer;
  header : Buffer;
  packetId : PacketId;
  variantFunction : jsstring;
  variantArgs : option jsarray
}.

Definition parseTankPacket (rawBuffer : Buffer) : option tank_packet :=
  let buffer := stripNullTerminator rawBuffer in
  if blen buffer <? 60 then None
  else
    let messageType := readUInt32LE buffer 0 in
    if negb (messageType =? GAME_PACKET) then None
    else
      let type := readUInt8 buffer 4 in
      let dataSize := readUInt32LE buffer 56 in
      let extraEnd := Z.min (blen buffer) (60 + dataSize) in
      let extra := if 60 <? extraEnd then subarray buffer 60 extraEnd else [] in
      let variantArgs :=
        if type =? CALL_FUNCTION then Some (parseVariantArgs extra) else None in
      let variantFunction :=
        match variantArgs with
        | Some args => string_or_empty (array_get args 0)
        | None => []
        end in
      let packetId :=
        if type =? CALL_FUNCTION then variant_function_packet variantFunction
        else if type =? DISCONNECT then Disconnect
        else Unknown in
      Some {| messageType := messageType; packetType := type;
              netId := readInt32LE buffer 8;
              targetNetId := readInt32LE buffer 12;
              state := readUInt32LE buffer 16;
              info := readInt32LE buffer 24;
              dataSize := dataSize; extra := extra;
              header := subarray buffer 0 60;
              packetId := packetId; variantFunction := variantFunction;
              variantArgs := variantArgs |}.

Inductive parsed_packet :=
| Raw
| Text (p : text_packet)
| Tank (p : tank_packet).

Definition parsePacket (rawBuffer : Buffer) : parsed_packet :=
  if blen rawBuffer <? 4 then Raw
  else
    let messageType := readUInt32LE rawBuffer 0 in
    if (messageType =? SERVER_HELLO) || (messageType =? GENERIC_TEXT)
       || (messageType =? GAME_MESSAGE)
    then match parseTextPacket rawBuffer with Some p => Text p | None => Raw end
    else if messageType =? GAME_PACKET
    then match parseTankPacket rawBuffer with Some p => Tank p | None => Raw end
    else Raw.

Definition parsed_packetId (p : parsed_packet) : PacketId :=
  match p with
  | Raw => Unknown
  | Text t => text_packetId t
  | Tank t => packetId t
  end.

(** [buildTankPacket]; [None] is the thrown "Tank header must be at least 60
    bytes".  The field values written are those read from a header, hence in
    range for their writers. *)
Definition buildTankPacket (header : option Buffer)
    (packetType netId targetNetId state info : Z) (extra : Buffer)
  : option Buffer :=
  let headerBuffer := match header with Some h => h | None => replicate 60 0 end in
  if blen headerBuffer <? 60 then None
  else
    let h := write_at headerBuffer 0 (writeUInt32LE GAME_PACKET) in
    let h := write_at h 4 [u8 packetType] in
    let h := write_at h 8 (writeInt32LE netId) in
    let h := write_at h 12 (writeInt32LE targetNetId) in
    let h := write_at h 16 (writeUInt32LE state) in
    let h := write_at h 24 (writeInt32LE info) in
    let h := write_at h 56 (writeUInt32LE (blen extra)) in
    Some (subarray h 0 60 ++ extra).

(** *** [parseOnSpawn], [parseOnRemove] *)

Definition parseOnSpawn (variantArgs : jsarray) : option WorldState.participant :=
  if (length variantArgs <? 2)%nat then None
  else match array_get variantArgs 1 with
       | VStr s =>
           let parser := TextParse.new s in
           Some {| WorldState.spawn := TextParse.get parser (lit "spawn") 0;
                   WorldState.netId := TextParse.getInt parser (lit "netID") 0 (-1);
                   WorldState.userId := TextParse.getInt parser (lit "userID") 0 0;
                   WorldState.name := TextParse.get parser (lit "name") 0;
                   WorldState.type := TextParse.get parser (lit "type") 0 |}
       | _ => None
       end.

(** Returns the [netId] field of the object the source builds. *)
Definition parseOnRemove (variantArgs : jsarray) : option Z :=
  if (length variantArgs <? 2)%nat then None
  else
    let netData := string_or_empty (array_get variantArgs 1) in
    Some (TextParse.getInt (TextParse.new netData) (lit "netID") 0 (-1)).

End Packet.

(** ** src/taskScheduler.js: class [TaskScheduler]

    The scheduler is modelled together with the runtime's timer table, which
    [setTimeout] and [clearTimeout] act on.  A timer handle is a fresh natural
    number (a Node [Timeout] object: distinct from every earlier one, and
    truthy).  Delays are not measured: a pending timer may fire at any later
    moment, which covers every real firing order. *)

Module TaskScheduler.
Import Js.

(** A user callback: a label to tell callbacks apart, and the scheduler
    calls it makes when it runs (a callback that throws makes a prefix of
    its calls; the exception is swallowed). *)
Inductive callback :=
| Callback (label : nat) (body : list action)
with action :=
| ScheduleDelayed (cb : callback) (delayMs : Z) (tag : string)
| CancelByTag (tag : string)
| CancelAll.

Definition cb_label (cb : callback) : nat :=
  match cb with Callback l _ => l end.
Definition cb_body (cb : callback) : list action :=
  match cb with Callback _ b => b end.

Record t := {
  tasksByTag : gmap string nat;          (* this.tasksByTag *)
  timers : gmap nat (callback * string); (* the runtime: pending timers *)
  next_handle : nat;                     (* handles handed out so far *)
  ran : list (nat * nat)                 (* (handle, label) of each callback run *)
}.

Definition new : t :=
  {| tasksByTag := ∅; timers := ∅; next_handle := 0; ran := [] |}.

(** [if (tag)]: a string is truthy iff it is not empty. *)
Definition truthy (tag : string) : bool := negb (String.eqb tag EmptyString).

Definition clearTimeout (s : t) (timeoutId : nat) : t :=
  {| tasksByTag := tasksByTag s; timers := delete timeoutId (timers s);
     next_handle := next_handle s; ran := ran s |}.

Definition cancelByTag (s : t) (tag : string) : t * bool :=
  match tasksByTag s !! tag with
  | None => (s, false)
  | Some timeoutId =>
      let s := clearTimeout s timeoutId in
      ({| tasksByTag := delete tag (tasksByTag s); timers := timers s;
          next_handle := next_handle s; ran := ran s |}, true)
  end.

Definition scheduleDelayed (s : t) (cb : callback) (delayMs : Z) (tag : string)
  : t * nat :=
  let s := if truthy tag then fst (cancelByTag s tag) else s in
  let timeoutId := next_handle s in
  let s := {| tasksByTag := tasksByTag s;
              timers := <[timeoutId := (cb, tag)]> (timers s);
              next_handle := S (next_handle s); ran := ran s |} in
  let s := if truthy tag
           then {| tasksByTag := <[tag := timeoutId]> (tasksByTag s);
                   timers := timers s; next_handle := next_handle s; ran := ran s |}
           else s in
  (s, timeoutId).

Definition cancelAll (s : t) : t :=
  let s := map_fold (fun _ timeoutId s => clearTimeout s timeoutId) s (tasksByTag s) in
  {| tasksByTag := ∅; timers := timers s; next_handle := next_handle s; ran := ran s |}.

Definition call (s : t) (a : action) : t :=
  match a with
  | ScheduleDelayed cb delayMs tag => fst (scheduleDelayed s cb delayMs tag)
  | CancelByTag tag => fst (cancelByTag s tag)
  | CancelAll => cancelAll s
  end.

(** The function handed to [setTimeout], run for the pending timer
    [timeoutId]; the runtime has then dropped the timer from its table. *)
Definition fire (s : t) (timeoutId : nat) (cb : callback) (tag : string) : t :=
  let s := {| tasksByTag := tasksByTag s; timers := delete timeoutId (timers s);
              next_handle := next_handle s; ran := ran s |} in
  let s := if truthy tag
           then {| tasksByTag := delete tag (tasksByTag s); timers := timers s;
                   next_handle := next_handle s; ran := ran s |}
           else s in
  let s := {| tasksByTag := tasksByTag s; timers := timers s;
              next_handle := next_handle s;
              ran := ran s ++ [(timeoutId, cb_label cb)] |} in
  fold_left call (cb_body cb) s.

(** What can happen next: the program calls a method, or a pending timer
    fires. *)
Inductive event :=
| Call (a : action)
| Fire (timeoutId : nat).

Inductive step : t -> event -> t -> Prop :=
| step_call s a : step s (Call a) (call s a)
| step_fire s timeoutId cb tag :
    timers s !! timeoutId = Some (cb, tag) ->
    step s (Fire timeoutId) (fire s timeoutId cb tag).

Inductive steps : t -> list event -> t -> Prop :=
| steps_nil s : steps s [] s
| steps_cons s e s' es s'' : step s e s' -> steps s' es s'' -> steps s (e :: es) s''.

End TaskScheduler.

(** ** src/commandRegistry.js: class [CommandRegistry] *)

Module CommandRegistry.
Import Js.
Local Open Scope Z_scope.

(** What a handler call does, as far as [execute] can tell: it returns, or
    it throws.  A thrown value is either one whose [message] property can be
    read ([message] is its rendering in the log line; "undefined" for a
    primitive), or [null]/[undefined], on which reading [message] is itself
    a TypeError. *)
Inductive thrown :=
| ThrownValue (message : jsstring)
| ThrownNullish.

Inductive outcome :=
| Returns
| Throws (error : thrown).

(** The fields of the handler's argument that [execute] builds. *)
Record invocation := {
  args : list jsstring;
  rawInput : jsstring;
  commandName : jsstring
}.

Record command := {
  name : jsstring;
  description : jsstring;
  handler : invocation -> outcome
}.

Record t := { prefix : jsstring; commands : gmap jsstring command }.

Definition new (prefix : jsstring) : t := {| prefix := prefix; commands := ∅ |}.

Definition QUOTE : Z := 34.

(** [normalizeInput]: drop the units 0..31 everywhere, then one leading
    U+FEFF, then leading white space. *)
Definition is_control (c : Z) : bool := (0 <=? c) && (c <=? 31).

Definition strip_bom (s : jsstring) : jsstring :=
  match s with
  | c :: s' => if c =? 65279 then s' else s
  | [] => []
  end.

Definition normalizeInput (text : jsstring) : jsstring :=
  trimStart (strip_bom (List.filter (fun c => negb (is_control c)) text)).

Definition setPrefix (r : t) (prefix : jsstring) : t :=
  if (length prefix =? 1)%nat then {| prefix := prefix; commands := commands r |} else r.

(** [s.split(/\s+/g)]: [in_run] tells that the previous unit was white
    space, whose separator has been emitted already. *)
Fixpoint split_spaces (in_run : bool) (s : jsstring) : list jsstring :=
  match s with
  | [] => [[]]
  | c :: s' =>
      if is_space c then
        if in_run then split_spaces true s' else [] :: split_spaces true s'
      else match split_spaces false s' with
           | p :: ps => (c :: p) :: ps
           | [] => [[c]]
           end
  end.

(** The class [[a-z0-9_-]]. *)
Definition is_name_unit (c : Z) : bool :=
  (97 <=? c) && (c <=? 122) || (48 <=? c) && (c <=? 57) || (c =? 95) || (c =? 45).

(** [rawName.match(/^[a-z0-9_-]+/)]: the leading run, [None] when empty. *)
Fixpoint leading_run (s : jsstring) : jsstring :=
  match s with
  | c :: s' => if is_name_unit c then c :: leading_run s' else []
  | [] => []
  end.

Definition name_match (rawName : jsstring) : option jsstring :=
  match leading_run rawName with
  | [] => None
  | m => Some m
  end.

Section WithBuiltins.
(** [String.prototype.toLowerCase], a builtin taken as given. *)
Variable toLowerCase : jsstring -> jsstring.

Definition key_of (name : jsstring) : jsstring := toLowerCase (trim name).

Definition register (r : t) (name description : jsstring)
    (handler : invocation -> outcome) : t :=
  let key := key_of name in
  match key with
  | [] => r
  | _ => {| prefix := prefix r;
            commands := <[key := {| name := key; description := description;
                                    handler := handler |}]> (commands r) |}
  end.

Definition get (r : t) (name : jsstring) : option command :=
  commands r !! key_of name.

Definition isCommand (r : t) (text : jsstring) : bool :=
  startsWith (normalizeInput text) (prefix r).

Definition parse (r : t) (text : jsstring) : option (jsstring * list jsstring) :=
  let normalized := normalizeInput text in
  if negb (startsWith normalized (prefix r)) then None
  else
    let clean := trim (drop (length (prefix r)) normalized) in
    match clean with
    | [] => None
    | _ =>
        match split_spaces false clean with
        | [] => None
        | first :: tokens =>
            match name_match (toLowerCase first) with
            | None => None
            | Some name => Some (name, tokens)
            end
        end
    end.

(** The result of a call of [execute]: it returns a boolean, having
    written the given lines to [context.logger.error]; or an exception
    leaves it. *)
Inductive result :=
| Return (value : bool) (logged : list jsstring)
| Raise.

(** [has_logger]: [context.logger.error] is a function. *)
Definition execute (r : t) (text : jsstring) (has_logger : bool) : result :=
  match parse r text with
  | None => Return false []
  | Some (name, tokens) =>
      match get r name with
      | None => Return false []
      | Some cmd =>
          match handler cmd {| args := tokens; rawInput := text;
                               commandName := name |} with
          | Returns => Return true []
          | Throws error =>
              if has_logger then
                match error with
                | ThrownValue message =>
                    Return true [lit "Command " ++ [QUOTE] ++ name ++ [QUOTE]
                                 ++ lit " failed: " ++ message]
                | ThrownNullish => Raise
                end
              else Return true []
          end
      end
  end.

End WithBuiltins.

End CommandRegistry.

(** ** src/proxyCore.js: the relay *)

Module ProxyCore.
Import Js Num Packet.
Local Open Scope Z_scope.

Definition CR : Z := 13.

Definition isInRangePort (port : number) : bool :=
  isInteger port && (0 <? trunc port) && (trunc port <=? 65535).

(** [s.replace(/pat/g, rep)] for a literal, non-empty [pat]: [skip] counts
    the units of a match still to be passed over. *)
Fixpoint replace_all (pat rep : jsstring) (skip : nat) (s : jsstring) : jsstring :=
  match s with
  | [] => []
  | c :: s' =>
      match skip with
      | S k => replace_all pat rep k s'
      | O => if startsWith s pat
             then rep ++ replace_all pat rep (length pat - 1) s'
             else c :: replace_all pat rep 0 s'
      end
  end.

Definition normalizeServerDataBody (rawBody : jsstring) : jsstring :=
  let normalized := replace_all [CR; TextParse.NL] [TextParse.NL] 0 rawBody in
  let normalized :=
    replace_all (CR :: lit "type|") (TextParse.NL :: lit "type|") 0 normalized in
  let normalized :=
    replace_all (CR :: lit "beta_type|") (TextParse.NL :: lit "beta_type|") 0 normalized in
  replace_all (CR :: lit "meta|") (TextParse.NL :: lit "meta|") 0 normalized.

(** Body of the loop of [extractServerDataPassthroughLines]. *)
Definition passthrough_step (passthrough : list jsstring) (rawLine : jsstring)
  : list jsstring :=
  let line := trim rawLine in
  match line with
  | [] => passthrough
  | _ => if negb (includes line [TextParse.BAR]) then passthrough ++ [line]
         else passthrough
  end.

Definition extractServerDataPassthroughLines (rawBody : jsstring) : list jsstring :=
  fold_left passthrough_step
    (split_on TextParse.NL (replace_all [CR; TextParse.NL] [TextParse.NL] 0 rawBody)) [].

(** Body of the loop that re-appends the marker lines to the output. *)
Definition append_passthrough (output line : jsstring) : jsstring :=
  if includes output line then output
  else match output with
       | [] => line
       | _ => output ++ [TextParse.NL] ++ line
       end.

Definition hasPendingEndpoint (address : jsstring) (port : number) : bool :=
  negb (length (trim address) =? 0)%nat && isInRangePort port.

(** The part of [this.config] the relay paths below read. *)
Record config := {
  server_port : Z;              (* config.server.port, an integer in 1..65535 *)
  web_ignoreMaintenance : bool  (* config.web.ignoreMaintenance !== false *)
}.

(** A peer is known by its net id. *)
Record state := {
  pendingAddress : jsstring;
  pendingPort : number;
  clientPeer : option Z;
  serverPeer : option Z;
  world : WorldState.t;
  proxyClientListening : bool;
  upstreamRetryTimer : bool;    (* a retry timer is armed *)
  upstreamRetryCount : nat
}.

(** The fields as the constructor leaves them. *)
Definition initial : state :=
  {| pendingAddress := []; pendingPort := of_Z 65535; clientPeer := None;
     serverPeer := None; world := WorldState.new; proxyClientListening := false;
     upstreamRetryTimer := false; upstreamRetryCount := 0 |}.

Definition set_pending (st : state) (a : jsstring) (p : number) : state :=
  {| pendingAddress := a; pendingPort := p; clientPeer := clientPeer st;
     serverPeer := serverPeer st; world := world st;
     proxyClientListening := proxyClientListening st;
     upstreamRetryTimer := upstreamRetryTimer st;
     upstreamRetryCount := upstreamRetryCount st |}.

Definition set_world (st : state) (w : WorldState.t) : state :=
  {| pendingAddress := pendingAddress st; pendingPort := pendingPort st;
     clientPeer := clientPeer st; serverPeer := serverPeer st; world := w;
     proxyClientListening := proxyClientListening st;
     upstreamRetryTimer := upstreamRetryTimer st;
     upstreamRetryCount := upstreamRetryCount st |}.

Definition set_retry (st : state) (timer : bool) (n : nat) : state :=
  {| pendingAddress := pendingAddress st; pendingPort := pendingPort st;
     clientPeer := clientPeer st; serverPeer := serverPeer st; world := world st;
     proxyClientListening := proxyClientListening st;
     upstreamRetryTimer := timer; upstreamRetryCount := n |}.

Definition clearUpstreamRetry (st : state) : state := set_retry st false 0.

Definition scheduleUpstreamRetry (st : state) : state :=
  if negb (bool_decide (is_Some (clientPeer st)))
     || (length (pendingAddress st) =? 0)%nat
     || negb (isInRangePort (pendingPort st))
  then st
  else if upstreamRetryTimer st then st
  else
    let n := S (upstreamRetryCount st) in
    if (12 <? n)%nat then set_retry st false n
    else set_retry st true n.

Section Relay.
Variable StringToNumber : jsstring -> number.
Variable cfg : config.
(** Whether [proxyClient.connect] gets an upstream connection under way,
    the second try after the peer-table reset included. *)
Variable upstream_connect : jsstring -> number -> bool.
(** The subscribers of the [clientBoundPacket] event: from the parsed
    packet and [context.raw] to the [raw] and [canceled] they leave in
    the context.  With no subscriber it returns [(raw, false)]. *)
Variable clientBoundSubscribers : parsed_packet -> Buffer -> Buffer * bool.

Definition connectPendingServer (st : state) : state * bool :=
  let cleanedAddress :=
    trim (List.filter (fun c => negb (c =? 0)) (pendingAddress st)) in
  let cleanedPort := pendingPort st in
  if (length cleanedAddress =? 0)%nat || negb (isInRangePort cleanedPort)
  then (st, false)
  else
    let st := set_pending st cleanedAddress cleanedPort in
    match serverPeer st with
    | Some _ =>
        let st := {| pendingAddress := pendingAddress st;
                     pendingPort := pendingPort st;
                     clientPeer := clientPeer st; serverPeer := None;
                     world := world st;
                     proxyClientListening := proxyClientListening st;
                     upstreamRetryTimer := upstreamRetryTimer st;
                     upstreamRetryCount := upstreamRetryCount st |} in
        (scheduleUpstreamRetry st, false)
    | None =>
        let st := {| pendingAddress := pendingAddress st;
                     pendingPort := pendingPort st;
                     clientPeer := clientPeer st; serverPeer := serverPeer st;
                     world := world st;
                     proxyClientListening := true;
                     upstreamRetryTimer := upstreamRetryTimer st;
                     upstreamRetryCount := upstreamRetryCount st |} in
        if upstream_connect (pendingAddress st) (pendingPort st)
        then (set_pending (clearUpstreamRetry st) [] (of_Z 65535), true)
        else (scheduleUpstreamRetry st, false)
    end.

Definition is_OnSendToServer (p : PacketId) : bool :=
  match p with OnSendToServer => true | _ => false end.
Definition is_OnSpawn (p : PacketId) : bool :=
  match p with OnSpawn => true | _ => false end.
Definition is_OnRemove (p : PacketId) : bool :=
  match p with OnRemove => true | _ => false end.

(** [parsed.variantArgs] when it is an array. *)
Definition parsed_variantArgs (p : parsed_packet) : option jsarray :=
  match p with Tank t => variantArgs t | _ => None end.

(** The [OnSendToServer] branch: new state and new [context.raw]; [None]
    is an exception thrown by [buildTankPacket]. *)
Definition on_send_to_server (st : state) (rawData : Buffer)
    (hadTrailingNull : bool) (parsed : parsed_packet)
  : option (state * Buffer) :=
  match parsed with
  | Tank t =>
      match variantArgs t with
      | Some args =>
          match parseOnSendToServer StringToNumber args with
          | Some sendToServer =>
              let st := set_pending st (address sendToServer) (port sendToServer) in
              let modifiedExtra :=
                rewriteOnSendToServerExtra StringToNumber (extra t) LOCALHOST
                  (of_Z (server_port cfg)) in
              match (match modifiedExtra with
                     | Some modified =>
                         match buildTankPacket (Some (header t)) CALL_FUNCTION
                                 (netId t) (targetNetId t) (Packet.state t)
                                 (info t) modified with
                         | Some modifiedTank =>
                             Some (if hadTrailingNull
                                   then ensureNullTerminator modifiedTank
                                   else modifiedTank)
                         | None => None
                         end
                     | None => Some rawData
                     end) with
              | None => None
              | Some raw =>
                  let st :=
                    match clientPeer st, serverPeer st with
                    | Some _, None => fst (connectPendingServer st)
                    | _, _ => st
                    end in
                  Some (st, raw)
              end
          | None => Some (st, rawData)
          end
      | None => Some (st, rawData)
      end
  | _ => Some (st, rawData)
  end.

(** [handleClientBoundPacket]: the new state and the frame handed to the
    client peer, if one is sent; [None] is an exception. *)
Definition handleClientBoundPacket (st : state) (channelId : Z) (rawData : Buffer)
  : option (state * option Buffer) :=
  let hadTrailingNull :=
    (0 <? blen rawData) && (readUInt8 rawData (blen rawData - 1) =? 0) in
  let parsed := parsePacket rawData in
  match (if is_OnSendToServer (parsed_packetId parsed)
         then on_send_to_server st rawData hadTrailingNull parsed
         else Some (st, rawData)) with
  | None => None
  | Some (st, raw) =>
      let st :=
        if is_OnSpawn (parsed_packetId parsed) then
          match parsed_variantArgs parsed with
          | Some args =>
              match parseOnSpawn args with
              | Some spawnData => set_world st (WorldState.onSpawn (world st) spawnData)
              | None => st
              end
          | None => st
          end
        else st in
      let st :=
        if is_OnRemove (parsed_packetId parsed) then
          match parsed_variantArgs parsed with
          | Some args =>
              match parseOnRemove args with
              | Some netId => set_world st (WorldState.onRemove (world st) netId)
              | None => st
              end
          | None => st
          end
        else st in
      let '(raw, canceled) := clientBoundSubscribers parsed raw in
      if canceled then Some (st, None)
      else match clientPeer st with
           | None => Some (st, None)
           | Some _ => Some (st, Some raw)
           end
  end.

(** [handleServerDataRequest] from the point where the upstream body is in
    hand: the new pending endpoint and the body returned; [None] is the
    thrown "Received unparseable server_data.php response". *)
Definition handleServerDataResponse (st : state) (responseBody : jsstring)
  : option (state * jsstring) :=
  let passthroughLines := extractServerDataPassthroughLines responseBody in
  let normalizedBody := normalizeServerDataBody responseBody in
  let parser := TextParse.new normalizedBody in
  if TextParse.empty parser then None
  else
    let st := set_pending st (TextParse.get parser (lit "server") 0)
                (of_Z (TextParse.getInt parser (lit "port") 0 65535)) in
    let parser :=
      if negb (TextParse.contains parser (lit "type"))
      then TextParse.set parser (lit "type") [lit "1"] else parser in
    let parser := TextParse.set parser (lit "server") [lit "127.0.0.1"] in
    let parser := TextParse.set parser (lit "port") [decimal (server_port cfg)] in
    let parser := TextParse.set parser (lit "type2") [lit "1"] in
    let maint := TextParse.get parser (lit "#maint") 0 in
    let parser :=
      match maint with
      | [] => parser
      | _ => if web_ignoreMaintenance cfg
             then TextParse.remove (TextParse.remove parser (lit "#maint")) (lit "maint")
             else parser
      end in
    let output :=
      fold_left append_passthrough passthroughLines
                (TextParse.getRaw parser TextParse.BAR []) in
    Some (st, output).

End Relay.

End ProxyCore.

(** ** src/packet.js: the frame builders *)

Module PacketBuilders.
Import Js Num Packet.
Local Open Scope Z_scope.

(** [buildTextPacket]: the message type, the UTF-8 bytes of the text (its
    units, for an ASCII text) and one zero byte.  Every caller passes a
    [NET_MESSAGE] constant, in range for [writeUInt32LE]. *)
Definition buildTextPacket (messageType : Z) (rawText : jsstring) : Buffer :=
  writeUInt32LE messageType ++ rawText ++ [0].

(** [[...originalArgs]]: a copy in which a hole reads as [undefined]. *)
Definition spread (a : jsarray) : jsarray :=
  map (fun slot => Some (match slot with Some v => v | None => VUndefined end)) a.

(** [buildOnSendToServerArgs] for a payload of the shape
    [parseOnSendToServer] returns and a numeric [port]. *)
Definition buildOnSendToServerArgs (payload : sendToServer) (address : jsstring)
    (port : number) (originalArgs : option jsarray) : jsarray :=
  let parser :=
    TextParse.add (TextParse.new []) address [doorId payload; uuidToken payload] in
  let out := match originalArgs with Some a => spread a | None => [] end in
  let out := array_set out 0 (VStr ON_SEND_TO_SERVER) in
  let out := array_set out 1 (VNum (or_zero port)) in
  let out := array_set out 2 (VNum (or_zero (token payload))) in
  let out := array_set out 3 (VNum (or_zero (user payload))) in
  let out := array_set out 4 (VStr (TextParse.getRaw parser TextParse.BAR [])) in
  let out := array_set out 5 (VNum (or_zero (loginMode payload))) in
  array_set out 6 (VStr (username payload)).

End PacketBuilders.

(** ** src/proxyCore.js: frames the proxy sends on its own *)

Module ProxyOutbound.
Import Js Num Packet PacketBuilders ProxyCore.
Local Open Scope Z_scope.

Definition isServerConnected (st : state) : bool :=
  bool_decide (is_Some (serverPeer st)).

(** [sendToServer], [sendToClient]: the buffer handed to the transport;
    [None] when the peer is missing and the method returns [false].  The
    transport is taken to accept the buffer. *)
Definition sendToServer (st : state) (buffer : Buffer) : option Buffer :=
  match serverPeer st with Some _ => Some buffer | None => None end.

Definition sendToClient (st : state) (buffer : Buffer) : option Buffer :=
  match clientPeer st with Some _ => Some buffer | None => None end.

Definition sendLog (st : state) (message : jsstring) : option Buffer :=
  let parser := TextParse.new [] in
  let parser := TextParse.add parser (lit "action") [lit "log"] in
  let parser := TextParse.add parser (lit "msg") [message] in
  sendToClient st (buildTextPacket GAME_MESSAGE (TextParse.getRaw parser TextParse.BAR [])).

Definition sendQuitToExit (st : state) : option Buffer :=
  let parser := TextParse.new [] in
  let parser := TextParse.add parser (lit "action") [lit "quit_to_exit"] in
  sendToServer st (buildTextPacket GAME_MESSAGE (TextParse.getRaw parser TextParse.BAR [])).

Definition sendJoinRequest (st : state) (worldName : jsstring) (invitedWorld : bool)
  : option Buffer :=
  let parser := TextParse.new [] in
  let parser := TextParse.add parser (lit "action") [lit "join_request"] in
  let parser := TextParse.add parser (lit "name") [worldName] in
  let parser :=
    TextParse.add parser (lit "invitedWorld") [if invitedWorld then lit "1" else lit "0"] in
  sendToServer st (buildTextPacket GAME_MESSAGE (TextParse.getRaw parser TextParse.BAR [])).

(** A value [writeInt32LE] accepts; it throws a RangeError on the others. *)
Definition in_int32 (v : Z) : bool := (INT32_MIN <=? v) && (v <=? INT32_MAX).

(** [sendVariantToClient] with integer options [netId], [targetNetId] and
    [delay]; [None] when the method returns [false]: a header write threw
    (a net id, the delay or the length of the extra buffer out of range for
    its field), or there is no client peer. *)
Definition sendVariantToClient (st : state) (functionName : jsstring)
    (args : list jsval) (netId targetNetId delay : Z) : option Buffer :=
  let variantArgs := VStr functionName :: args in
  let extra := encodeVariantArgs variantArgs in
  if in_int32 netId && in_int32 targetNetId && in_int32 delay
     && (blen extra <=? UINT32_MAX) then
    match buildTankPacket None CALL_FUNCTION netId targetNetId 8 delay extra with
    | Some tank => sendToClient st (ensureNullTerminator tank)
    | None => None
    end
  else None.

End ProxyOutbound.

(** ** src/proxyCore.js: host names of the web front *)

Module ProxyHosts.
Import Js Packet.
Local Open Scope Z_scope.

Definition DEFAULT_UPSTREAM_HOSTS : list jsstring :=
  [lit "www.growtopia1.com"; lit "growtopia1.com"].

(** [s.lastIndexOf(c)]: -1 when [c] does not occur. *)
Fixpoint lastIndexOf (c : Z) (s : jsstring) : Z :=
  match s with
  | [] => -1
  | x :: s' =>
      let r := lastIndexOf c s' in
      if 0 <=? r then r + 1 else if x =? c then 0 else -1
  end.

(** [/^\d+$/.test(s)]. *)
Definition all_digits (s : jsstring) : bool :=
  match s with
  | [] => false
  | _ => forallb is_digit s
  end.

Section WithBuiltins.
(** [String.prototype.toLowerCase], a builtin taken as given. *)
Variable toLowerCase : jsstring -> jsstring.

(** Body of the loop of [buildUpstreamHostCandidates]. *)
Definition candidate_step (acc : gset jsstring * list jsstring) (value : jsstring)
  : gset jsstring * list jsstring :=
  let host := toLowerCase (trim value) in
  match host with
  | [] => acc
  | _ => if bool_decide (host ∈ fst acc) then acc
         else ({[ host ]} ∪ fst acc, snd acc ++ [host])
  end.

Definition buildUpstreamHostCandidates (primaryHosts : list jsstring) : list jsstring :=
  snd (fold_left candidate_step (primaryHosts ++ DEFAULT_UPSTREAM_HOSTS) (∅, [])).

Definition getHostWithoutPort (hostHeaderValue : jsstring) : jsstring :=
  let raw := trim hostHeaderValue in
  match raw with
  | [] => []
  | _ =>
      let withoutIpv6Brackets := if startsWith raw (lit "[") then drop 1 raw else raw in
      let closingBracketIndex := indexOf 93 withoutIpv6Brackets in
      if 0 <=? closingBracketIndex
      then toLowerCase (take (Z.to_nat closingBracketIndex) withoutIpv6Brackets)
      else
        let portSplitIndex := lastIndexOf 58 withoutIpv6Brackets in
        if portSplitIndex <=? 0 then toLowerCase withoutIpv6Brackets
        else
          let maybePort := drop (Z.to_nat (portSplitIndex + 1)) withoutIpv6Brackets in
          if all_digits maybePort
          then toLowerCase (take (Z.to_nat portSplitIndex) withoutIpv6Brackets)
          else toLowerCase withoutIpv6Brackets
  end.

End WithBuiltins.

End ProxyHosts.

(** ** src/proxyCore.js: the input text read off the raw frame text *)

Module ProxyInput.
Import Js Packet ProxyCore.

(** The loop of [extractInputTextFallback] over the lines. *)
Fixpoint first_text_line (lines : list jsstring) : jsstring :=
  match lines with
  | [] => []
  | line :: rest =>
      let trimmed := trim line in
      match trimmed with
      | [] => first_text_line rest
      | _ =>
          if startsWith trimmed (lit "text|")
          then drop (length (lit "text|")) trimmed
          else if startsWith trimmed (lit "|text|")
               then drop (length (lit "|text|")) trimmed
               else first_text_line rest
      end
  end.

Definition extractInputTextFallback (rawText : jsstring) : jsstring :=
  match rawText with
  | [] => []
  | _ =>
      first_text_line
        (split_on TextParse.NL (replace_all [CR; TextParse.NL] [TextParse.NL] 0 rawText))
  end.

End ProxyInput.

(* ===================================================================== *)
(** * Part II. Properties                                                  *)
(* ===================================================================== *)

(** ** The text-line codec (spec 4.A) *)

Section TextLines.
Import Js TextParse.

(** The token list with one leading empty token removed: tokenization as
    the specification words it. *)
Definition drop_one_leading_empty (tokens : list jsstring) : list jsstring :=
  match tokens with
  | [] :: rest => rest
  | _ => tokens
  end.

(** The token list without the empty tokens that come before the first
    non-empty one. *)
Fixpoint drop_leading_empties (tokens : list jsstring) : list jsstring :=
  match tokens with
  | [] :: rest => drop_leading_empties rest
  | _ => tokens
  end.

(** The record a line yields, if it yields one: first kept token as key,
    the remaining tokens, in order, as values; nothing when fewer than two
    tokens are kept. *)
Definition record_of_line (delimiter : Z) (line : jsstring) : option entry :=
  match tokenize line delimiter true with
  | key :: value :: values => Some (key, value :: values)
  | _ => None
  end.

Lemma tokenize_loop (tokens out : list jsstring) :
  fold_left (tokenize_step true) tokens out =
  match out with
  | [] => drop_leading_empties tokens
  | _ => out ++ tokens
  end.
Proof.
  revert out. induction tokens as [|tok tokens IH]; intros out; simpl.
  - destruct out; [done | by rewrite app_nil_r].
  - rewrite IH. unfold tokenize_step.
    destruct tok as [|c tok], out as [|o out]; simpl; try done.
    + by rewrite <- app_assoc.
    + by rewrite <- app_assoc.
Qed.

Lemma tokenize_spec (raw : jsstring) (delimiter : Z) :
  tokenize raw delimiter true = drop_leading_empties (split_on delimiter raw).
Proof.
  unfold tokenize. destruct raw as [|c raw]; [done |].
  by rewrite tokenize_loop.
Qed.

Lemma parse_loop_spec (delimiter : Z) (lines : list jsstring) (acc : t) :
  fold_left (parse_step delimiter) lines acc
  = acc ++ omap (record_of_line delimiter) lines.
Proof.
  revert acc. induction lines as [|line lines IH]; intros acc; simpl.
  - by rewrite app_nil_r.
  - rewrite IH. unfold parse_step, record_of_line.
    destruct (tokenize line delimiter true) as [|key [|value values]]; simpl; try done.
    by rewrite <- app_assoc.
Qed.

Lemma parse_spec (raw : jsstring) (delimiter : Z) :
  parse raw delimiter = omap (record_of_line delimiter) (split_on NL raw).
Proof.
  unfold parse. destruct raw as [|c raw]; [done |].
  by rewrite parse_loop_spec.
Qed.

(** C9, as the specification states it, fails: on the line "||a" the code
    keeps the single token "a", while dropping one leading empty token
    leaves an empty token in front of it. *)
Lemma tokenize_drops_more_than_one_leading_empty :
  ~ (forall raw : jsstring,
        tokenize raw BAR true = drop_one_leading_empty (split_on BAR raw)).
Proof.
  intros H. specialize (H (lit "||a")). vm_compute in H. discriminate H.
Qed.

(** C9, as the code has it: tokenization drops every empty token that comes before
    the first non-empty token and keeps all later tokens, empty ones
    included; parsing splits the buffer on newline, discards the lines that
    tokenize to fewer than two tokens (the empty line among them), and for
    each surviving line, in order, records the first kept token as key and
    the remaining tokens as its value list. *)
Theorem tokenize_and_parse_records :
  (forall (raw : jsstring) (delimiter : Z),
      tokenize raw delimiter true = drop_leading_empties (split_on delimiter raw))
  /\ (forall (raw : jsstring) (delimiter : Z),
         parse raw delimiter = omap (record_of_line delimiter) (split_on NL raw))
  /\ (forall delimiter : Z, record_of_line delimiter [] = None)
  /\ (forall (delimiter : Z) (line key : jsstring) (values : list jsstring),
         record_of_line delimiter line = Some (key, values) <->
         (tokenize line delimiter true = key :: values /\ 2 <= length (key :: values))).
Proof.
  split; [exact tokenize_spec |].
  split; [exact parse_spec |].
  split; [done |].
  intros delimiter line key values. unfold record_of_line.
  destruct (tokenize line delimiter true) as [|k [|v vs]]; simpl; split.
  - done.
  - by intros [? _].
  - done.
  - intros [[= <- <-] Hlen]. simpl in Hlen. lia.
  - intros [= <- <-]. split; [done | simpl; lia].
  - intros [[= <- <-] _]. done.
Qed.

End TextLines.

(** ** The bootstrap rewrite (spec 4.H)

    First, how [split] and [join] undo each other on lines that hold no
    separator. *)

Section SplitJoin.
Import Js TextParse.

Lemma split_on_nonempty (d : Z) (s : jsstring) : split_on d s <> [].
Proof.
  destruct s as [|c s]; simpl; [done |].
  destruct (c =? d)%Z; [done |]. by destruct (split_on d s).
Qed.

Lemma split_on_sep_free (d : Z) (s : jsstring) :
  Forall (fun piece => d ∉ piece) (split_on d s).
Proof.
  induction s as [|c s IH]; simpl.
  - repeat constructor. set_solver.
  - destruct (Z.eqb_spec c d) as [->|Hne].
    + constructor; [set_solver | done].
    + destruct (split_on d s) as [|p ps]; [repeat constructor; set_solver |].
      inversion IH; subst. constructor; [set_solver | done].
Qed.

Lemma split_on_units (d : Z) (s piece : jsstring) (x : Z) :
  piece ∈ split_on d s -> x ∈ piece -> x ∈ s.
Proof.
  revert piece. induction s as [|c s IH]; simpl; intros piece Hp Hx.
  - apply list_elem_of_singleton in Hp. by subst.
  - destruct (Z.eqb_spec c d) as [->|Hne].
    + apply elem_of_cons in Hp as [->|Hp]; [by apply elem_of_nil in Hx |].
      right. eauto.
    + destruct (split_on d s) as [|p ps] eqn:E.
      * apply list_elem_of_singleton in Hp. subst. set_solver.
      * apply elem_of_cons in Hp as [->|Hp].
        -- apply elem_of_cons in Hx as [->|Hx]; [left | right; apply (IH p)]; set_solver.
        -- right. apply (IH piece); set_solver.
Qed.

Lemma split_on_app (d : Z) (a b : jsstring) :
  d ∉ a -> split_on d (a ++ d :: b) = a :: split_on d b.
Proof.
  induction a as [|c a IH]; simpl; intros Ha.
  - by rewrite Z.eqb_refl.
  - destruct (Z.eqb_spec c d) as [->|Hne]; [set_solver |].
    rewrite IH; [done | set_solver].
Qed.

Lemma split_on_sep_absent (d : Z) (s : jsstring) : d ∉ s -> split_on d s = [s].
Proof.
  induction s as [|c s IH]; simpl; intros Hs; [done |].
  destruct (Z.eqb_spec c d) as [->|Hne]; [set_solver |].
  rewrite IH; [done | set_solver].
Qed.

Lemma split_on_join (d : Z) (ls : list jsstring) :
  ls <> [] -> Forall (fun l => d ∉ l) ls -> split_on d (join [d] ls) = ls.
Proof.
  induction ls as [|l ls IH]; [done |]. intros _ Hall.
  inversion Hall as [|? ? Hl Hls]; subst.
  destruct ls as [|l' ls]; simpl.
  - by apply split_on_sep_absent.
  - rewrite split_on_app by done. f_equal. by apply IH.
Qed.

Lemma split_on_snoc (d : Z) (s line : jsstring) :
  d ∉ line -> split_on d (s ++ d :: line) = split_on d s ++ [line].
Proof.
  intros Hl. induction s as [|c s IH]; simpl.
  - rewrite Z.eqb_refl. by rewrite split_on_sep_absent.
  - destruct (Z.eqb_spec c d) as [->|Hne].
    + by rewrite IH.
    + rewrite IH. pose proof (split_on_nonempty d s).
      by destruct (split_on d s).
Qed.

End SplitJoin.

(** Then, the records [parse] builds are exactly those [getRaw] prints back
    faithfully. *)

Section Records.
Import Js TextParse.

(** A unit sequence that can sit in a record line: no delimiter, no newline. *)
Definition plain (s : jsstring) : Prop := (BAR ∉ s) /\ (NL ∉ s).

(** A record that [getRaw] prints and [parse] reads back unchanged. *)
Definition wf_entry (e : entry) : Prop :=
  fst e <> [] /\ plain (fst e) /\ snd e <> [] /\ Forall plain (snd e).

Lemma str_eqb_eq (a b : jsstring) : str_eqb a b = true <-> a = b.
Proof. unfold str_eqb. apply bool_decide_eq_true. Qed.

Lemma str_eqb_neq (a b : jsstring) : str_eqb a b = false <-> a <> b.
Proof. unfold str_eqb. apply bool_decide_eq_false. Qed.

Lemma raw_line_unfold (e : entry) :
  raw_line BAR [] e = fst e ++ concat (map (cons BAR) (snd e)).
Proof.
  unfold raw_line. simpl. generalize (fst e) as line.
  induction (snd e) as [|v vs IH]; intros line; simpl.
  - by rewrite app_nil_r.
  - rewrite IH. by rewrite <- app_assoc.
Qed.

Lemma split_on_values (key : jsstring) (values : list jsstring) :
  BAR ∉ key -> Forall (fun v => BAR ∉ v) values ->
  split_on BAR (key ++ concat (map (cons BAR) values)) = key :: values.
Proof.
  revert key. induction values as [|v vs IH]; intros key Hk Hvs; simpl.
  - rewrite app_nil_r. by apply split_on_sep_absent.
  - inversion Hvs; subst. rewrite split_on_app by done. f_equal. by apply IH.
Qed.

Lemma record_of_raw_line (e : entry) :
  wf_entry e -> record_of_line BAR (raw_line BAR [] e) = Some e.
Proof.
  destruct e as [key values]. intros (Hne & [Hk _] & Hvs & Hall). simpl in *.
  unfold record_of_line. rewrite tokenize_spec, raw_line_unfold. simpl.
  rewrite split_on_values; [| done | eapply Forall_impl; [exact Hall | by intros ? []]].
  destruct key; [done |]. simpl. by destruct values.
Qed.

Lemma raw_line_no_newline (e : entry) : wf_entry e -> NL ∉ raw_line BAR [] e.
Proof.
  destruct e as [key values]. intros (_ & [_ Hk] & _ & Hall). simpl in *.
  rewrite raw_line_unfold. simpl. rewrite elem_of_app. intros [H|H]; [done |].
  induction Hall as [|v vs [_ Hv] _ IH]; simpl in H; [by apply elem_of_nil in H |].
  apply elem_of_cons in H as [H|H]; [discriminate H |].
  apply elem_of_app in H as [H|H]; [done | by apply IH].
Qed.

Lemma raw_line_nonempty (e : entry) : wf_entry e -> raw_line BAR [] e <> [].
Proof.
  intros (Hne & _). rewrite raw_line_unfold. by destruct (fst e).
Qed.

Lemma record_of_barless_line (line : jsstring) :
  BAR ∉ line -> record_of_line BAR line = None.
Proof.
  intros H. unfold record_of_line. rewrite tokenize_spec, split_on_sep_absent by done.
  by destruct line.
Qed.

Lemma drop_leading_empties_suffix (tokens : list jsstring) :
  exists skipped, tokens = skipped ++ drop_leading_empties tokens.
Proof.
  induction tokens as [|tok tokens [skipped IH]]; [by exists [] |].
  destruct tok; simpl.
  - exists ([] :: skipped). simpl. by f_equal.
  - by exists [].
Qed.

Lemma drop_leading_empties_head (tokens : list jsstring) (key : jsstring) rest :
  drop_leading_empties tokens = key :: rest -> key <> [].
Proof.
  induction tokens as [|tok tokens IH]; simpl; [done |].
  destruct tok; [done |]. by intros [= <- _].
Qed.

Lemma record_of_line_wf (line : jsstring) (e : entry) :
  NL ∉ line -> record_of_line BAR line = Some e -> wf_entry e.
Proof.
  intros Hline. unfold record_of_line. rewrite tokenize_spec.
  destruct (drop_leading_empties (split_on BAR line)) as [|key [|v vs]] eqn:E; try done.
  intros [= <-]. simpl.
  assert (Hall : Forall plain (key :: v :: vs)).
  { destruct (drop_leading_empties_suffix (split_on BAR line)) as [skipped Hs].
    rewrite E in Hs. apply Forall_forall. intros tok Htok.
    assert (Hin : tok ∈ split_on BAR line) by (rewrite Hs; set_solver).
    split.
    - pose proof (split_on_sep_free BAR line) as Hfree.
      rewrite Forall_forall in Hfree. by apply Hfree.
    - intros Hnl. apply Hline. by eapply split_on_units. }
  inversion Hall as [|? ? Hkey Hvals]; subst.
  repeat split; try done; try apply Hkey.
  by eapply drop_leading_empties_head.
Qed.

Lemma parse_wf (raw : jsstring) : Forall wf_entry (parse raw BAR).
Proof.
  rewrite parse_spec. apply Forall_forall. intros e He.
  apply list_elem_of_omap in He as (line & Hline & Hrec).
  eapply record_of_line_wf; [| exact Hrec].
  pose proof (split_on_sep_free NL raw) as Hfree.
  rewrite Forall_forall in Hfree. by apply Hfree.
Qed.

(** *** [set], [remove], [contains], [get] *)

Lemma set_wf (p : t) (key : jsstring) (values : list jsstring) :
  Forall wf_entry p -> wf_entry (key, values) -> Forall wf_entry (set p key values).
Proof.
  intros Hp Hkv. induction Hp as [|[k vs] p Hk Hp IH]; simpl.
  - by constructor.
  - destruct (str_eqb k key) eqn:E.
    + apply str_eqb_eq in E as ->. by constructor.
    + by constructor.
Qed.

Lemma remove_wf (p : t) (key : jsstring) :
  Forall wf_entry p -> Forall wf_entry (remove p key).
Proof.
  intros Hp. unfold remove. induction Hp as [|e p He Hp IH]; simpl; [done |].
  destruct (negb _); [by constructor | done].
Qed.

Lemma set_elem (p : t) (key : jsstring) (values : list jsstring) :
  (key, values) ∈ set p key values.
Proof.
  induction p as [|[k vs] p IH]; simpl; [set_solver |].
  destruct (str_eqb k key) eqn:E.
  - apply str_eqb_eq in E as ->. set_solver.
  - set_solver.
Qed.

Lemma set_keeps (p : t) (key : jsstring) (values : list jsstring) (e : entry) :
  e ∈ p -> fst e <> key -> e ∈ set p key values.
Proof.
  intros He Hne. induction p as [|[k vs] p IH]; simpl; [set_solver |].
  destruct (str_eqb k key) eqn:E.
  - apply str_eqb_eq in E as ->.
    apply elem_of_cons in He as [->|He]; [done | set_solver].
  - apply elem_of_cons in He as [->|He]; set_solver.
Qed.

Lemma remove_keeps (p : t) (key : jsstring) (e : entry) :
  e ∈ p -> fst e <> key -> e ∈ remove p key.
Proof.
  intros He Hne. unfold remove. apply list_elem_of_In, filter_In.
  split; [by apply list_elem_of_In |].
  apply negb_true_iff. by apply str_eqb_neq.
Qed.

Lemma contains_elem (p : t) (key : jsstring) :
  contains p key = true <-> exists values, (key, values) ∈ p.
Proof.
  unfold contains. rewrite existsb_exists. split.
  - intros ([k vs] & Hin & Heq). apply str_eqb_eq in Heq. simpl in Heq. subst.
    exists vs. by apply list_elem_of_In.
  - intros (vs & Hin). exists (key, vs). split; [by apply list_elem_of_In |].
    by apply str_eqb_eq.
Qed.

Lemma contains_remove (p : t) (key : jsstring) : contains (remove p key) key = false.
Proof.
  apply not_true_is_false. rewrite contains_elem. intros (vs & Hin).
  unfold remove in Hin. apply list_elem_of_In, filter_In in Hin as [_ Hin].
  apply negb_true_iff, str_eqb_neq in Hin. done.
Qed.

Lemma contains_remove_absent (p : t) (key key' : jsstring) :
  contains p key = false -> contains (remove p key') key = false.
Proof.
  intros H. apply not_true_is_false. rewrite contains_elem. intros (vs & Hin).
  unfold remove in Hin. apply list_elem_of_In, filter_In in Hin as [Hin _].
  apply not_true_iff_false in H. apply H. apply contains_elem.
  exists vs. by apply list_elem_of_In.
Qed.

Lemma get_set_other (p : t) (key key' : jsstring) (values : list jsstring) (i : nat) :
  key <> key' -> get (set p key values) key' i = get p key' i.
Proof.
  intros Hne. unfold get, find. induction p as [|[k vs] p IH]; simpl.
  - assert (E : str_eqb key key' = false) by by apply str_eqb_neq.
    by rewrite E.
  - destruct (str_eqb k key) eqn:E; simpl.
    + apply str_eqb_eq in E as ->.
      assert (E : str_eqb key key' = false) by by apply str_eqb_neq.
      by rewrite E.
    + destruct (str_eqb k key'); [done | exact IH].
Qed.

End Records.

(** Last, the rewrite itself. *)

Section Bootstrap.
Import Js TextParse ProxyCore.
Local Open Scope Z_scope.

Lemma trimStart_units (s : jsstring) (x : Z) : x ∈ trimStart s -> x ∈ s.
Proof.
  induction s as [|c s IH]; simpl; [done |].
  destruct (is_space c); [| done]. intros H. right. by apply IH.
Qed.

Lemma trim_units (s : jsstring) (x : Z) : x ∈ trim s -> x ∈ s.
Proof.
  unfold trim, trimEnd. intros H.
  apply list_elem_of_In, in_rev, list_elem_of_In, trimStart_units in H.
  apply list_elem_of_In, in_rev, list_elem_of_In in H.
  by apply trimStart_units.
Qed.

Lemma startsWith_singleton (s : jsstring) (c : Z) :
  startsWith s [c] = true -> c ∈ s.
Proof.
  destruct s as [|x s]; simpl; [done |].
  rewrite andb_true_iff. intros [H _]. apply Z.eqb_eq in H as ->. left.
Qed.

Lemma includes_singleton (s : jsstring) (c : Z) : includes s [c] = false -> c ∉ s.
Proof.
  induction s as [|x s IH]; intros H Hin; [by apply elem_of_nil in Hin |].
  cbn [includes] in H. apply orb_false_iff in H as [H1 H2].
  apply elem_of_cons in Hin as [->|Hin]; [| by apply IH].
  cbn [startsWith] in H1. rewrite Z.eqb_refl in H1. destruct s; discriminate H1.
Qed.

Lemma passthrough_plain (lines acc : list jsstring) :
  Forall plain acc -> Forall (fun l => NL ∉ l) lines ->
  Forall plain (fold_left passthrough_step lines acc).
Proof.
  intros Hacc Hlines. revert acc Hacc.
  induction Hlines as [|line lines Hline _ IH]; intros acc Hacc; simpl; [done |].
  apply IH. unfold passthrough_step.
  destruct (trim line) as [|c l] eqn:E; [done |].
  destruct (includes (c :: l) [BAR]) eqn:Hinc; simpl; [done |].
  apply Forall_app. split; [done |]. constructor; [| done]. split.
  - by apply includes_singleton.
  - intros H. apply Hline. apply trim_units. by rewrite E.
Qed.

Lemma passthrough_lines_plain (body : jsstring) :
  Forall plain (extractServerDataPassthroughLines body).
Proof.
  unfold extractServerDataPassthroughLines.
  apply passthrough_plain; [done | apply split_on_sep_free].
Qed.

Lemma append_passthrough_cases (output line : jsstring) :
  output <> [] ->
  append_passthrough output line = output
  \/ append_passthrough output line = output ++ NL :: line.
Proof.
  intros Hne. unfold append_passthrough.
  destruct (includes output line); [by left |].
  destruct output; [done | by right].
Qed.

Lemma append_passthrough_lines (lines : list jsstring) (output : jsstring) :
  output <> [] -> Forall plain lines ->
  exists extra,
    split_on NL (fold_left append_passthrough lines output) = split_on NL output ++ extra
    /\ Forall (fun l => BAR ∉ l) extra.
Proof.
  intros Hne Hlines. revert output Hne.
  induction Hlines as [|line lines [Hbar Hnl] _ IH]; intros output Hne; simpl.
  - exists []. by rewrite app_nil_r.
  - destruct (append_passthrough_cases output line Hne) as [-> | ->].
    + by apply IH.
    + destruct (IH (output ++ NL :: line)) as (extra & Heq & Hextra);
        [by destruct output |].
      exists (line :: extra). split; [| by constructor].
      rewrite Heq, split_on_snoc by done. by rewrite <- app_assoc.
Qed.

Lemma getRaw_lines (p : t) :
  p <> [] -> Forall wf_entry p ->
  split_on NL (getRaw p BAR []) = map (raw_line BAR []) p
  /\ getRaw p BAR [] <> [].
Proof.
  intros Hne Hwf. unfold getRaw. split.
  - apply split_on_join; [by destruct p |].
    apply Forall_map. eapply Forall_impl; [exact Hwf |].
    intros e He. by apply raw_line_no_newline.
  - destruct p as [|e p]; [done |]. inversion Hwf; subst.
    pose proof (raw_line_nonempty e) as Hl.
    simpl. destruct (map (raw_line BAR []) p); [by apply Hl |].
    destruct (raw_line BAR [] e); [by exfalso; apply Hl | done].
Qed.

Lemma records_of_raw_lines (p : t) (extra : list jsstring) :
  Forall wf_entry p -> Forall (fun l => BAR ∉ l) extra ->
  omap (record_of_line BAR) (map (raw_line BAR []) p ++ extra) = p.
Proof.
  intros Hwf Hextra. rewrite omap_app.
  replace (omap (record_of_line BAR) extra) with (@nil entry).
  - rewrite app_nil_r. induction Hwf as [|e p He _ IH]; simpl; [done |].
    rewrite record_of_raw_line by done. f_equal. exact IH.
  - induction Hextra as [|l extra Hl _ IH]; simpl; [done |].
    rewrite record_of_barless_line by done. exact IH.
Qed.

Lemma digits_fuel_units (fuel : nat) (n : Z) (acc : jsstring) (x : Z) :
  x ∈ digits_fuel fuel n acc -> x ∈ acc \/ 48 <= x <= 57.
Proof.
  revert n acc. induction fuel as [|fuel IH]; intros n acc; simpl; [by left |].
  assert (Hd : forall y, y ∈ (48 + n mod 10) :: acc -> y ∈ acc \/ 48 <= y <= 57).
  { intros y Hy. apply elem_of_cons in Hy as [->|Hy]; [right | by left].
    pose proof (Z.mod_pos_bound n 10). lia. }
  destruct (n <? 10); [by apply Hd |].
  intros H. apply IH in H as [H|H]; [by apply Hd | by right].
Qed.

Lemma decimal_plain (n : Z) : plain (decimal n).
Proof.
  assert (H : forall x, x ∈ decimal n -> 45 <= x <= 57).
  { intros x. unfold decimal. destruct (n <? 0).
    - intros Hx. apply elem_of_cons in Hx as [->|Hx]; [lia |].
      apply digits_fuel_units in Hx as [Hx|Hx]; [by apply elem_of_nil in Hx | lia].
    - intros Hx.
      apply digits_fuel_units in Hx as [Hx|Hx]; [by apply elem_of_nil in Hx | lia]. }
  split; intros Hin; apply H in Hin; unfold BAR, NL in Hin; lia.
Qed.

Lemma lit_plain (s : jsstring) :
  forallb (fun c => negb (c =? BAR) && negb (c =? NL)) s = true -> plain s.
Proof.
  intros H. rewrite forallb_forall in H.
  split; intros Hin; apply list_elem_of_In, H in Hin;
    rewrite Z.eqb_refl in Hin; simpl in Hin;
    rewrite ?andb_false_r in Hin; discriminate Hin.
Qed.


Ltac lit_neq := let H := fresh in intros H; vm_compute in H; discriminate H.

Lemma wf_entry_lit (key value : jsstring) :
  key <> [] -> plain key -> plain value -> wf_entry (key, [value]).
Proof. intros. repeat split; simpl; try done; try apply H0. by constructor. Qed.

(** The record [handleServerDataResponse] prints, for the record [p0] parsed
    from the upstream body. *)
Lemma rewritten_record (cfg : config) (p0 : t) :
  Forall wf_entry p0 ->
  let p1 := if negb (contains p0 (lit "type")) then set p0 (lit "type") [lit "1"] else p0 in
  let p2 := set p1 (lit "server") [lit "127.0.0.1"] in
  let p3 := set p2 (lit "port") [decimal (server_port cfg)] in
  let p4 := set p3 (lit "type2") [lit "1"] in
  let p5 := match get p4 (lit "#maint") 0 with
            | [] => p4
            | _ => if web_ignoreMaintenance cfg
                   then remove (remove p4 (lit "#maint")) (lit "maint") else p4
            end in
  Forall wf_entry p5
  /\ (lit "server", [lit "127.0.0.1"]) ∈ p5
  /\ (lit "port", [decimal (server_port cfg)]) ∈ p5
  /\ (lit "type2", [lit "1"]) ∈ p5
  /\ (exists values, (lit "type", values) ∈ p5)
  /\ (web_ignoreMaintenance cfg = true -> get p0 (lit "#maint") 0 <> [] ->
      contains p5 (lit "#maint") = false /\ contains p5 (lit "maint") = false).
Proof.
  intros Hwf0 p1 p2 p3 p4 p5.
  assert (Hwf1 : Forall wf_entry p1).
  { subst p1. destruct (negb _); [| done].
    apply set_wf; [done |]. apply wf_entry_lit; [lit_neq | |]; by apply lit_plain. }
  assert (Hwf4 : Forall wf_entry p4).
  { subst p4 p3 p2. repeat apply set_wf; try done; apply wf_entry_lit;
      try lit_neq; try (by apply lit_plain). apply decimal_plain. }
  assert (Htype1 : exists values, (lit "type", values) ∈ p1).
  { subst p1. destruct (contains p0 (lit "type")) eqn:E; simpl.
    - by apply contains_elem.
    - eexists. apply set_elem. }
  assert (Hserver : (lit "server", [lit "127.0.0.1"]) ∈ p4).
  { subst p4 p3 p2. repeat (apply set_keeps; [| simpl; lit_neq]). apply set_elem. }
  assert (Hport : (lit "port", [decimal (server_port cfg)]) ∈ p4).
  { subst p4 p3. apply set_keeps; [| simpl; lit_neq]. apply set_elem. }
  assert (Htype2 : (lit "type2", [lit "1"]) ∈ p4) by apply set_elem.
  assert (Htype : exists values, (lit "type", values) ∈ p4).
  { destruct Htype1 as [values Hv]. exists values. subst p4 p3 p2.
    repeat (apply set_keeps; [| simpl; lit_neq]). done. }
  assert (Hmaint : get p4 (lit "#maint") 0 = get p0 (lit "#maint") 0).
  { subst p4 p3 p2. rewrite !get_set_other by lit_neq.
    subst p1. destruct (negb _); [| done]. by rewrite get_set_other by lit_neq. }
  assert (Hkeep : forall e, e ∈ p4 -> fst e <> lit "#maint" -> fst e <> lit "maint" ->
                            e ∈ remove (remove p4 (lit "#maint")) (lit "maint")).
  { intros e He H1 H2. by repeat apply remove_keeps. }
  subst p5. rewrite Hmaint.
  destruct (get p0 (lit "#maint") 0) as [|c maint] eqn:Eget.
  - repeat split; try done.
  - destruct (web_ignoreMaintenance cfg).
    + destruct Htype as [values Hv]. repeat split.
      * by repeat apply remove_wf.
      * apply Hkeep; [done | simpl; lit_neq ..].
      * apply Hkeep; [done | simpl; lit_neq ..].
      * apply Hkeep; [done | simpl; lit_neq ..].
      * exists values. apply Hkeep; [done | simpl; lit_neq ..].
      * apply contains_remove_absent, contains_remove.
      * apply contains_remove.
    + repeat split; try done.
Qed.

(** A body, read as a text record, has a record with the given key. *)
Definition body_has_key (body key : jsstring) : bool := contains (TextParse.new body) key.

(** What the specification says of the returned body, for an upstream body
    that parses to a non-empty record. *)
Definition bootstrap_claim (cfg : config) (st : state) (body : jsstring) : Prop :=
  empty (TextParse.new (normalizeServerDataBody body)) = false ->
  exists st' out,
    handleServerDataResponse cfg st body = Some (st', out)
    /\ lit "server|127.0.0.1" ∈ split_on NL out
    /\ (lit "port|" ++ decimal (server_port cfg)) ∈ split_on NL out
    /\ lit "type2|1" ∈ split_on NL out
    /\ (exists rest, (lit "type|" ++ rest) ∈ split_on NL out)
    /\ (web_ignoreMaintenance cfg = true ->
        body_has_key out (lit "#maint") = false /\ body_has_key out (lit "maint") = false).

Definition cfg_ignoring_maintenance : config :=
  {| server_port := 16999; web_ignoreMaintenance := true |}.

(** C2, as the specification states it, fails: with maintenance-ignore on, a
    [maint] record of a body that has no [#maint] record is returned to the
    client, and so is a [#maint] record whose first value is empty. *)
Lemma maintenance_records_can_remain :
  ~ bootstrap_claim cfg_ignoring_maintenance initial
      (lit "maint|down" ++ [NL] ++ lit "server|a" ++ [NL] ++ lit "port|1"
       ++ [NL] ++ lit "type|1")
  /\ ~ bootstrap_claim cfg_ignoring_maintenance initial
         (lit "#maint||soon" ++ [NL] ++ lit "server|a" ++ [NL] ++ lit "port|1"
          ++ [NL] ++ lit "type|1").
Proof.
  split; intros H.
  - destruct H as (st' & out & Hrun & _ & _ & _ & _ & Hmaint); [reflexivity |].
    vm_compute in Hrun. injection Hrun as _ <-.
    destruct Hmaint as [_ Hmaint]; [reflexivity |]. vm_compute in Hmaint. discriminate Hmaint.
  - destruct H as (st' & out & Hrun & _ & _ & _ & _ & Hmaint); [reflexivity |].
    vm_compute in Hrun. injection Hrun as _ <-.
    destruct Hmaint as [Hmaint _]; [reflexivity |]. vm_compute in Hmaint. discriminate Hmaint.
Qed.

(** C2, as the code has it: for every upstream body that parses to a non-empty record,
    the returned body has the lines [server|127.0.0.1],
    [port|<configured server.port>] and [type2|1] and a line that starts with
    [type|]; and when maintenance-ignore is on and the first [#maint] record
    of the upstream body has a non-empty first value, the returned body has
    no [#maint] record and no [maint] record. *)
Theorem server_data_rewrite (cfg : config) (st : state) (body : jsstring) :
  empty (TextParse.new (normalizeServerDataBody body)) = false ->
  exists st' out,
    handleServerDataResponse cfg st body = Some (st', out)
    /\ lit "server|127.0.0.1" ∈ split_on NL out
    /\ (lit "port|" ++ decimal (server_port cfg)) ∈ split_on NL out
    /\ lit "type2|1" ∈ split_on NL out
    /\ (exists rest, (lit "type|" ++ rest) ∈ split_on NL out)
    /\ (web_ignoreMaintenance cfg = true ->
        get (TextParse.new (normalizeServerDataBody body)) (lit "#maint") 0 <> [] ->
        body_has_key out (lit "#maint") = false /\ body_has_key out (lit "maint") = false).
Proof.
  intros Hne. unfold handleServerDataResponse. rewrite Hne.
  pose proof (rewritten_record cfg (TextParse.new (normalizeServerDataBody body))
                (parse_wf _)) as H.
  cbv zeta in H |- *.
  match type of H with
  | Forall wf_entry ?p /\ _ => set (p5 := p) in *
  end.
  destruct H as (Hwf & Hserver & Hport & Htype2 & [values Htype] & Hmaint).
  assert (Hp5 : p5 <> []) by (intros E; rewrite E in Hserver; by apply elem_of_nil in Hserver).
  destruct (getRaw_lines p5 Hp5 Hwf) as [Hlines Hraw].
  destruct (append_passthrough_lines (extractServerDataPassthroughLines body)
              (getRaw p5 BAR []) Hraw (passthrough_lines_plain body))
    as (extra & Hsplit & Hextra).
  rewrite Hlines in Hsplit.
  assert (Hline : forall e, e ∈ p5 ->
            raw_line BAR [] e
            ∈ split_on NL (fold_left append_passthrough
                             (extractServerDataPassthroughLines body) (getRaw p5 BAR []))).
  { intros e He. rewrite Hsplit. apply elem_of_app. left. by apply list_elem_of_fmap_2. }
  eexists _, _. split; [reflexivity |].
  split; [exact (Hline _ Hserver) |].
  split; [exact (Hline _ Hport) |].
  split; [exact (Hline _ Htype2) |].
  split.
  - assert (Hv : wf_entry (lit "type", values)).
    { rewrite Forall_forall in Hwf. by apply Hwf. }
    destruct Hv as (_ & _ & Hv & _). simpl in Hv.
    destruct values as [|v vs]; [done |].
    exists (v ++ concat (map (cons BAR) vs)).
    specialize (Hline _ Htype). rewrite raw_line_unfold in Hline. exact Hline.
  - intros Hon Hget. unfold body_has_key, TextParse.new.
    rewrite parse_spec, Hsplit, records_of_raw_lines by done.
    by apply Hmaint.
Qed.

Definition maintenance_body : jsstring :=
  lit "#maint|hello" ++ [NL] ++ lit "server|a" ++ [NL] ++ lit "port|1"
  ++ [NL] ++ lit "type|1" ++ [NL].

(** The maintenance scenario of the specification (8, scenario 5), through
    the theorem. *)
Lemma server_data_rewrite_witness :
  exists st' out,
    handleServerDataResponse cfg_ignoring_maintenance initial maintenance_body
    = Some (st', out)
    /\ lit "server|127.0.0.1" ∈ split_on NL out
    /\ lit "port|16999" ∈ split_on NL out
    /\ lit "type2|1" ∈ split_on NL out
    /\ body_has_key out (lit "#maint") = false
    /\ body_has_key out (lit "maint") = false.
Proof.
  destruct (server_data_rewrite cfg_ignoring_maintenance initial maintenance_body)
    as (st' & out & Hrun & Hserver & Hport & Htype2 & _ & Hmaint);
    [reflexivity |].
  exists st', out.
  destruct Hmaint as [H1 H2]; [reflexivity | vm_compute; discriminate |].
  repeat split; assumption.
Defined.

End Bootstrap.

(** ** The variant codec (spec 4.B) *)

(** *** Decoding fails as a whole (C8) *)

Section VariantDecoding.
Import Js Num Packet.
Local Open Scope Z_scope.

(** The type tags of the format. *)
Definition known_tag (type : Z) : Prop :=
  type = FLOAT \/ type = STRING \/ type = VEC2 \/ type = VEC3
  \/ type = UNSIGNED \/ type = SIGNED.

(** Payload size of the fixed-size types. *)
Definition fixed_size (type : Z) : option Z :=
  if type =? FLOAT then Some 4
  else if type =? VEC2 then Some 8
  else if type =? VEC3 then Some 12
  else if type =? UNSIGNED then Some 4
  else if type =? SIGNED then Some 4
  else None.

(** The entry that starts at [pos] is entirely inside the buffer, has a known
    tag, and ends at [next]. *)
Definition entry_span (b : Buffer) (pos next : Z) : Prop :=
  pos + 2 <= blen b
  /\ ((exists n, fixed_size (readUInt8 b (pos + 1)) = Some n
                 /\ pos + 2 + n <= blen b /\ next = pos + 2 + n)
      \/ (readUInt8 b (pos + 1) = STRING
          /\ pos + 6 <= blen b
          /\ pos + 6 + readUInt32LE b (pos + 2) <= blen b
          /\ next = pos + 6 + readUInt32LE b (pos + 2))).

(** The entry that starts at [pos] has an unknown tag, or one of its fields
    (the two header bytes, the fixed payload, the string length, the string
    bytes) extends past the end of the buffer. *)
Definition malformed_at (b : Buffer) (pos : Z) : Prop :=
  blen b < pos + 2
  \/ ~ known_tag (readUInt8 b (pos + 1))
  \/ (exists n, fixed_size (readUInt8 b (pos + 1)) = Some n /\ blen b < pos + 2 + n)
  \/ (readUInt8 b (pos + 1) = STRING
      /\ (blen b < pos + 6 \/ blen b < pos + 6 + readUInt32LE b (pos + 2))).

(** [walk b pos k pos']: [k] entries, each inside the buffer and of known
    tag, lie between [pos] and [pos']. *)
Inductive walk (b : Buffer) : Z -> nat -> Z -> Prop :=
| walk_here pos : walk b pos 0 pos
| walk_next pos next k pos' :
    entry_span b pos next -> walk b next k pos' -> walk b pos (S k) pos'.

Lemma parse_payload_fixed (b : Buffer) (type p n : Z) :
  fixed_size type = Some n ->
  (blen b < p + n -> parse_payload b type p = None)
  /\ (p + n <= blen b -> exists value, parse_payload b type p = Some (value, p + n)).
Proof.
  unfold fixed_size, parse_payload.
  destruct (Z.eqb_spec type FLOAT) as [->|_].
  { intros [= <-]. split; intros; destruct (Z.ltb_spec (blen b) (p + 4)); eauto; lia. }
  destruct (Z.eqb_spec type STRING) as [->|_]; [intros H; vm_compute in H; discriminate H |].
  destruct (Z.eqb_spec type VEC2) as [->|_].
  { intros [= <-]. split; intros; destruct (Z.ltb_spec (blen b) (p + 8)); eauto; lia. }
  destruct (Z.eqb_spec type VEC3) as [->|_].
  { intros [= <-]. split; intros; destruct (Z.ltb_spec (blen b) (p + 12)); eauto; lia. }
  destruct (Z.eqb_spec type UNSIGNED) as [->|_].
  { intros [= <-]. split; intros; destruct (Z.ltb_spec (blen b) (p + 4)); eauto; lia. }
  destruct (Z.eqb_spec type SIGNED) as [->|_]; [| discriminate].
  intros [= <-]. split; intros; destruct (Z.ltb_spec (blen b) (p + 4)); eauto; lia.
Qed.

Lemma parse_payload_string (b : Buffer) (p : Z) :
  parse_payload b STRING p =
  if blen b <? p + 4 then None
  else if blen b <? p + 4 + readUInt32LE b p then None
       else Some (VStr (subarray b (p + 4) (p + 4 + readUInt32LE b p)),
                  p + 4 + readUInt32LE b p).
Proof. reflexivity. Qed.

Lemma parse_payload_unknown (b : Buffer) (type p : Z) :
  ~ known_tag type -> parse_payload b type p = None.
Proof.
  unfold known_tag, parse_payload. intros H.
  destruct (Z.eqb_spec type FLOAT); [tauto |].
  destruct (Z.eqb_spec type STRING); [tauto |].
  destruct (Z.eqb_spec type VEC2); [tauto |].
  destruct (Z.eqb_spec type VEC3); [tauto |].
  destruct (Z.eqb_spec type UNSIGNED); [tauto |].
  destruct (Z.eqb_spec type SIGNED); [tauto | done].
Qed.

Lemma parse_payload_span (b : Buffer) (pos next : Z) :
  entry_span b pos next ->
  exists value, parse_payload b (readUInt8 b (pos + 1)) (pos + 2) = Some (value, next).
Proof.
  intros [Hhdr [(n & Hn & Hfit & ->) | (Ht & H1 & H2 & ->)]].
  - by apply (parse_payload_fixed b _ (pos + 2) n Hn).
  - rewrite Ht, parse_payload_string.
    destruct (Z.ltb_spec (blen b) (pos + 2 + 4)); [lia |].
    destruct (Z.ltb_spec (blen b) (pos + 2 + 4 + readUInt32LE b (pos + 2))); [lia |].
    eexists. do 2 f_equal. lia.
Qed.

Lemma parse_payload_malformed (b : Buffer) (pos : Z) :
  pos + 2 <= blen b -> malformed_at b pos ->
  parse_payload b (readUInt8 b (pos + 1)) (pos + 2) = None.
Proof.
  intros Hhdr [H | [H | [(n & Hn & Hfit) | (Ht & H)]]]; [lia | | |].
  - by apply parse_payload_unknown.
  - by apply (parse_payload_fixed b _ (pos + 2) n Hn).
  - rewrite Ht, parse_payload_string.
    destruct (Z.ltb_spec (blen b) (pos + 2 + 4)); [done |].
    destruct (Z.ltb_spec (blen b) (pos + 2 + 4 + readUInt32LE b (pos + 2))); [done | lia].
Qed.

Lemma parse_loop_malformed (b : Buffer) (k n : nat) (pos pos' : Z) (acc : list ventry) :
  (k < n)%nat -> walk b pos k pos' -> malformed_at b pos' ->
  parse_loop b n pos acc = None.
Proof.
  intros Hk Hwalk Hbad. revert n acc Hk.
  induction Hwalk as [pos | pos next k pos' Hspan Hwalk IH]; intros n acc Hk.
  - destruct n as [|n]; [lia |]. simpl.
    destruct (Z.ltb_spec (blen b) (pos + 2)); [done |].
    by rewrite parse_payload_malformed.
  - destruct n as [|n]; [lia |]. simpl.
    destruct (Z.ltb_spec (blen b) (pos + 2)) as [Hlt|_]; [destruct Hspan; lia |].
    destruct (parse_payload_span b pos next Hspan) as [value ->].
    apply IH; [done | lia].
Qed.

Lemma tag_cases (type : Z) :
  (exists n, fixed_size type = Some n) \/ type = STRING \/ ~ known_tag type.
Proof.
  unfold fixed_size, known_tag.
  destruct (Z.eqb_spec type FLOAT); [left; eauto |].
  destruct (Z.eqb_spec type VEC2); [left; eauto |].
  destruct (Z.eqb_spec type VEC3); [left; eauto |].
  destruct (Z.eqb_spec type UNSIGNED); [left; eauto |].
  destruct (Z.eqb_spec type SIGNED); [left; eauto |].
  destruct (Z.eqb_spec type STRING); [right; left; done |].
  right. right. tauto.
Qed.

Lemma parse_payload_cases (b : Buffer) (pos : Z) :
  pos + 2 <= blen b ->
  match parse_payload b (readUInt8 b (pos + 1)) (pos + 2) with
  | Some (_, next) => entry_span b pos next
  | None => malformed_at b pos
  end.
Proof.
  intros Hhdr.
  destruct (tag_cases (readUInt8 b (pos + 1))) as [[n Hn] | [Ht | Hbad]].
  - destruct (parse_payload_fixed b _ (pos + 2) n Hn) as [Hshort Hfit].
    destruct (Z.lt_ge_cases (blen b) (pos + 2 + n)) as [Hlt|Hge].
    + rewrite (Hshort Hlt). right. right. left. eauto.
    + destruct (Hfit Hge) as [value ->]. split; [done |]. left. eauto.
  - rewrite Ht, parse_payload_string.
    destruct (Z.ltb_spec (blen b) (pos + 2 + 4)).
    { right. right. right. split; [done |]. left. lia. }
    destruct (Z.ltb_spec (blen b) (pos + 2 + 4 + readUInt32LE b (pos + 2))).
    { right. right. right. split; [done |]. right. lia. }
    split; [done |]. right. repeat split; try done; lia.
  - rewrite parse_payload_unknown by done. right. by left.
Qed.

(** The converse: decoding fails only because of such an entry. *)
Lemma parse_loop_fails_at (b : Buffer) (n : nat) (pos : Z) (acc : list ventry) :
  parse_loop b n pos acc = None ->
  exists k pos', (k < n)%nat /\ walk b pos k pos' /\ malformed_at b pos'.
Proof.
  revert pos acc. induction n as [|n IH]; intros pos acc; simpl; [done |].
  destruct (Z.ltb_spec (blen b) (pos + 2)) as [Hlt|Hge].
  { intros _. exists 0%nat, pos. split; [lia |]. split; [constructor | by left]. }
  pose proof (parse_payload_cases b pos Hge) as Hcase.
  destruct (parse_payload b (readUInt8 b (pos + 1)) (pos + 2)) as [[value next]|].
  - intros H. apply IH in H as (k & pos' & Hk & Hwalk & Hbad).
    exists (S k), pos'. split; [lia |]. split; [by econstructor | done].
  - intros _. exists 0%nat, pos. split; [lia |]. split; [constructor | done].
Qed.

(** C8: for a non-empty extra buffer, if one of the declared entries (the
    [k]-th, found at [pos] by walking the [k] entries before it) has a type
    tag outside FLOAT, STRING, VEC2, VEC3, UNSIGNED, SIGNED, or one of its
    reads would extend past the end of the buffer, then [parseVariantEntries]
    fails and [parseVariantArgs] returns the empty list: nothing of the
    entries decoded before it is kept. *)
Theorem malformed_entry_fails_whole_buffer (b : Buffer) (k : nat) (pos : Z) :
  b <> [] ->
  (k < Z.to_nat (readUInt8 b 0))%nat ->
  walk b 1 k pos ->
  malformed_at b pos ->
  parseVariantEntries b = None /\ parseVariantArgs b = [].
Proof.
  intros Hne Hk Hwalk Hbad.
  assert (H : parseVariantEntries b = None).
  { unfold parseVariantEntries.
    destruct (Z.eqb_spec (blen b) 0) as [E|_]; [by destruct b |].
    by rewrite (parse_loop_malformed b k _ 1 pos []). }
  split; [exact H |]. unfold parseVariantArgs. by rewrite H.
Qed.

(** Two declared entries: the first a well-formed UNSIGNED, the second with
    the unknown tag 7. *)
Lemma malformed_entry_fails_whole_buffer_witness :
  parseVariantEntries [2; 0; 5; 1; 0; 0; 0; 1; 7] = None
  /\ parseVariantArgs [2; 0; 5; 1; 0; 0; 0; 1; 7] = [].
Proof.
  apply (malformed_entry_fails_whole_buffer [2; 0; 5; 1; 0; 0; 0; 1; 7] 1 7).
  - discriminate.
  - vm_compute. lia.
  - apply (walk_next _ 1 7 0 7); [| apply walk_here].
    split; [vm_compute; discriminate |].
    left. exists 4. repeat split. vm_compute. discriminate.
  - right. left. vm_compute. intros H. repeat destruct H as [H|H]; discriminate H.
Defined.

End VariantDecoding.

(** *** Bytes and 32-bit words *)

Section Words.
Import Js Num Packet.
Local Open Scope Z_scope.

Definition is_byte (v : Z) : Prop := 0 <= v < 256.

Lemma le32_length (v : Z) : length (le32 v) = 4%nat.
Proof. reflexivity. Qed.

Lemma le32_bytes (v : Z) : Forall is_byte (le32 v).
Proof.
  unfold le32, is_byte. repeat constructor; apply Z.mod_pos_bound; lia.
Qed.

Lemma le32_value (v : Z) :
  v mod 256 + 2 ^ 8 * ((v / 2 ^ 8) mod 256) + 2 ^ 16 * ((v / 2 ^ 16) mod 256)
  + 2 ^ 24 * ((v / 2 ^ 24) mod 256) = v mod 2 ^ 32.
Proof.
  change (2 ^ 8) with 256. change (2 ^ 16) with 65536.
  change (2 ^ 24) with 16777216. change (2 ^ 32) with 4294967296.
  Z.div_mod_to_equations. lia.
Qed.

Lemma readUInt8_at (pre post : Buffer) (x pos : Z) :
  pos = blen pre -> readUInt8 (pre ++ x :: post) pos = x.
Proof.
  intros ->. unfold readUInt8, blen. rewrite Nat2Z.id.
  rewrite app_nth2 by lia. by rewrite Nat.sub_diag.
Qed.

Lemma readUInt8_skip (pre rest : Buffer) (pos : Z) :
  blen pre <= pos -> readUInt8 (pre ++ rest) pos = readUInt8 rest (pos - blen pre).
Proof.
  intros H. unfold readUInt8, blen in *. rewrite app_nth2 by lia.
  f_equal. lia.
Qed.

Lemma readUInt32LE_skip (pre rest : Buffer) (pos : Z) :
  blen pre <= pos -> readUInt32LE (pre ++ rest) pos = readUInt32LE rest (pos - blen pre).
Proof.
  intros H. unfold readUInt32LE. rewrite !readUInt8_skip by lia.
  repeat f_equal; lia.
Qed.

Lemma readUInt32LE_le32 (v : Z) (post : Buffer) :
  readUInt32LE (le32 v ++ post) 0 = v mod 2 ^ 32.
Proof. unfold readUInt32LE, le32, readUInt8. simpl. apply le32_value. Qed.

Lemma readUInt32LE_at (pre post : Buffer) (v pos : Z) :
  pos = blen pre -> readUInt32LE (pre ++ le32 v ++ post) pos = v mod 2 ^ 32.
Proof.
  intros ->. rewrite readUInt32LE_skip by lia. rewrite Z.sub_diag.
  apply readUInt32LE_le32.
Qed.

Lemma subarray_at (pre mid post : Buffer) (from to : Z) :
  from = blen pre -> to = blen pre + blen mid ->
  subarray (pre ++ mid ++ post) from to = mid.
Proof.
  intros -> ->. unfold subarray, blen.
  rewrite Nat2Z.id, drop_app_length.
  replace (Z.to_nat _) with (length mid) by lia.
  by rewrite take_app_length.
Qed.

End Words.

(** *** The tag chosen for a number (C5) *)

Section TagSelection.
Import Js Num Packet.
Local Open Scope Z_scope.

Lemma encode_from_app (i : nat) (a b : list jsval) :
  encode_from i (a ++ b) = encode_from i a ++ encode_from (i + length a) b.
Proof.
  revert i. induction a as [|v a IH]; intros i; simpl.
  - by rewrite Nat.add_0_r.
  - rewrite IH, <- !app_assoc.
    by replace (S i + length a)%nat with (i + S (length a))%nat by lia.
Qed.

(** Where the entry of one argument sits in the encoding: after the count
    byte and the entries before it, its index byte, then what
    [encode_value] pushes. *)
Lemma encodeVariantArgs_entry (before after : list jsval) (value : jsval) :
  encodeVariantArgs (before ++ value :: after)
  = [u8 (Z.of_nat (length (before ++ value :: after)))]
    ++ encode_from 0 before
    ++ [u8 (Z.of_nat (length before))] ++ encode_value value
    ++ encode_from (S (length before)) after.
Proof.
  unfold encodeVariantArgs. by rewrite encode_from_app.
Qed.

(** The textual form of a non-finite number. *)
Definition non_finite_text (x : number) : jsstring :=
  match x with
  | NaN => lit "NaN"
  | Inf false => lit "Infinity"
  | Inf true => lit "-Infinity"
  | Fin _ _ _ => []
  end.

(** [payload] is the little-endian u32 of [v]: four bytes that read back as
    [v]. *)
Definition u32_le (payload : Buffer) (v : Z) : Prop :=
  length payload = 4%nat /\ Forall is_byte payload /\ readUInt32LE payload 0 = v.

(** [payload] is the little-endian i32 of [v]. *)
Definition i32_le (payload : Buffer) (v : Z) : Prop :=
  length payload = 4%nat /\ Forall is_byte payload /\ readInt32LE payload 0 = v.

Lemma readUInt32LE_word (v : Z) : readUInt32LE (le32 v) 0 = v mod 2 ^ 32.
Proof. unfold readUInt32LE, le32, readUInt8. simpl. apply le32_value. Qed.

Lemma le32_u32 (v : Z) : 0 <= v < 2 ^ 32 -> u32_le (le32 v) v.
Proof.
  intros Hv. split; [done |]. split; [apply le32_bytes |].
  rewrite readUInt32LE_word. by apply Z.mod_small.
Qed.

Lemma mod32_signed (v : Z) :
  - 2 ^ 31 <= v < 2 ^ 31 ->
  v mod 2 ^ 32 = if v <? 0 then v + 2 ^ 32 else v.
Proof.
  intros Hv. destruct (Z.ltb_spec v 0).
  - rewrite <- (Z.mod_small (v + 2 ^ 32) (2 ^ 32)) by lia.
    rewrite <- (Z.mod_add v 1 (2 ^ 32)) by lia. f_equal; lia.
  - apply Z.mod_small. lia.
Qed.

Lemma le32_i32 (v : Z) : - 2 ^ 31 <= v < 2 ^ 31 -> i32_le (writeInt32LE v) v.
Proof.
  intros Hv. split; [done |]. split; [apply le32_bytes |].
  unfold readInt32LE, writeInt32LE.
  rewrite readUInt32LE_word, Z.mod_mod by lia.
  rewrite mod32_signed by done.
  destruct (Z.ltb_spec v 0).
  - destruct (Z.ltb_spec (v + 2 ^ 32) (2 ^ 31)); lia.
  - destruct (Z.ltb_spec v (2 ^ 31)); lia.
Qed.

(** C5: in the encoding of an argument list, the entry of a number [x]
    consists of its index byte followed by
    - UNSIGNED and the u32 LE of its value, when [x] is an integer in
      [0, 2^32-1];
    - SIGNED and the i32 LE of its value, when [x] is an integer in
      [-2^31, -1];
    - STRING, the u32 LE length and the bytes of its textual form, when [x]
      is not finite. *)
Theorem number_tag_selection (before after : list jsval) (x : number) :
  exists entry,
    encodeVariantArgs (before ++ VNum x :: after)
    = [u8 (Z.of_nat (length (before ++ VNum x :: after)))]
      ++ encode_from 0 before
      ++ [u8 (Z.of_nat (length before))] ++ entry
      ++ encode_from (S (length before)) after
    /\ (isInteger x = true -> 0 <= trunc x <= 2 ^ 32 - 1 ->
        exists payload, entry = UNSIGNED :: payload /\ u32_le payload (trunc x))
    /\ (isInteger x = true -> - 2 ^ 31 <= trunc x <= -1 ->
        exists payload, entry = SIGNED :: payload /\ i32_le payload (trunc x))
    /\ (isFinite x = false ->
        exists len, entry = STRING :: len ++ non_finite_text x
                    /\ u32_le len (blen (non_finite_text x))).
Proof.
  exists (encode_value (VNum x)). split; [apply encodeVariantArgs_entry |].
  split; [| split].
  - intros Hint Hrange. simpl. rewrite Hint. unfold UINT32_MAX.
    destruct (Z.leb_spec 0 (trunc x)); [| lia].
    destruct (Z.leb_spec (trunc x) 4294967295); [| lia]. simpl.
    eexists. split; [reflexivity |]. apply le32_u32. lia.
  - intros Hint Hrange. simpl. rewrite Hint. unfold UINT32_MAX, INT32_MIN, INT32_MAX.
    destruct (Z.leb_spec 0 (trunc x)); [lia |]. simpl.
    destruct (Z.leb_spec (-2147483648) (trunc x)); [| lia].
    destruct (Z.leb_spec (trunc x) 2147483647); [| lia]. simpl.
    eexists. split; [reflexivity |]. apply le32_i32. lia.
  - intros Hfin. destruct x as [neg m e | neg |]; [discriminate Hfin | |].
    + exists (le32 (blen (non_finite_text (Inf neg)))).
      destruct neg; (split; [reflexivity |]); by apply le32_u32.
    + exists (le32 (blen (non_finite_text NaN))).
      split; [reflexivity |]. by apply le32_u32.
Qed.

(** Scenario 4 of the specification, with a signed and a non-finite
    companion. *)
Lemma number_tag_selection_witness :
  (exists payload,
      encodeVariantArgs [VStr (lit "OnChangeSkin"); VNum (of_Z 4294967295)]
      = [2; 0; 2; 12; 0; 0; 0] ++ lit "OnChangeSkin" ++ [1; UNSIGNED] ++ payload
      /\ u32_le payload 4294967295)
  /\ (exists payload,
         encodeVariantArgs [VNum (of_Z (-2))] = [1; 0; SIGNED] ++ payload
         /\ i32_le payload (-2))
  /\ (exists len,
         encodeVariantArgs [VNum (Inf true)] = [1; 0; STRING] ++ len ++ lit "-Infinity"
         /\ u32_le len 9).
Proof.
  split; [| split].
  - destruct (number_tag_selection [VStr (lit "OnChangeSkin")] [] (of_Z 4294967295))
      as (entry & Heq & Hunsigned & _).
    destruct Hunsigned as (payload & -> & Hle); [reflexivity | vm_compute; split; discriminate |].
    exists payload. split; [| exact Hle]. refine (eq_trans Heq _). simpl.
    by rewrite app_nil_r.
  - destruct (number_tag_selection [] [] (of_Z (-2))) as (entry & Heq & _ & Hsigned & _).
    destruct Hsigned as (payload & -> & Hle); [reflexivity | vm_compute; split; discriminate |].
    exists payload. split; [| exact Hle]. refine (eq_trans Heq _). simpl.
    by rewrite app_nil_r.
  - destruct (number_tag_selection [] [] (Inf true)) as (entry & Heq & _ & _ & Htext).
    destruct Htext as (len & -> & Hle); [reflexivity |].
    exists len. split; [| exact Hle]. refine (eq_trans Heq _). simpl.
    by rewrite app_nil_r.
Defined.

End TagSelection.

(** *** binary32: a pattern read and written again is unchanged *)

Section Binary32.
Import Js Num Packet.
Local Open Scope Z_scope.

Lemma round_shift_nonneg (m d : Z) : 0 <= m -> 0 <= round_shift m d.
Proof.
  intros Hm. unfold round_shift.
  assert (0 <= m / 2 ^ d).
  { destruct (Z.le_gt_cases 0 d).
    - apply Z.div_pos; [done |]. by apply Z.pow_pos_nonneg.
    - rewrite Z.pow_neg_r by lia. by rewrite Z.div_0_r. }
  destruct (_ || _); lia.
Qed.

Lemma f32_bits_range (x : number) : 0 <= f32_bits x < 2 ^ 32.
Proof.
  destruct x as [neg m e | neg |]; simpl.
  - destruct (m =? 0)%N; [destruct neg; simpl; lia |].
    set (q := Z.max _ _).
    set (n := if q <=? e then _ else _).
    assert (Hn : 0 <= n).
    { subst n. destruct (q <=? e).
      - apply Z.mul_nonneg_nonneg; [lia |]. apply Z.pow_nonneg. lia.
      - apply round_shift_nonneg. lia. }
    assert (Hq : -149 <= q) by (subst q; lia).
    assert (0 <= (q + 149) * 2 ^ 23 + n) by nia.
    destruct neg; simpl; lia.
  - destruct neg; simpl; lia.
  - lia.
Qed.

(** The 32-bit patterns that denote NaN. *)
Definition nan_pattern (b : Z) : Prop :=
  (b / 2 ^ 23) mod 256 = 255 /\ b mod 2 ^ 23 <> 0.

Lemma f32_bits_value (b : Z) :
  0 <= b < 2 ^ 32 -> ~ nan_pattern b -> f32_bits (f32_value b) = b.
Proof.
  intros Hb Hnan. unfold f32_value, nan_pattern in *.
  assert (HE : 0 <= (b / 2 ^ 23) mod 256 < 256) by (apply Z.mod_pos_bound; lia).
  assert (HM : 0 <= b mod 2 ^ 23 < 2 ^ 23) by (apply Z.mod_pos_bound; lia).
  assert (Hdec : b = sign_bit (2 ^ 31 <=? b) + (b / 2 ^ 23) mod 256 * 2 ^ 23
                     + b mod 2 ^ 23).
  { unfold sign_bit.
    change (2 ^ 23) with 8388608. change (2 ^ 31) with 2147483648.
    change (2 ^ 32) with 4294967296 in Hb.
    destruct (Z.leb_spec 2147483648 b); Z.div_mod_to_equations; lia. }
  revert Hnan HE HM Hdec.
  generalize ((b / 2 ^ 23) mod 256) (b mod 2 ^ 23) (2 ^ 31 <=? b).
  intros E M neg Hnan HE HM Hdec.
  destruct (Z.eqb_spec E 255) as [E255|E255].
  { destruct (Z.eqb_spec M 0) as [M0|M0]; [| tauto]. unfold f32_bits. lia. }
  destruct (Z.eqb_spec E 0) as [E0|E0].
  - unfold f32_bits. destruct (N.eqb_spec (Z.to_N M) 0) as [M0|M0]; [lia |].
    rewrite Z2N.id by lia.
    assert (Hlog : Z.log2 M < 23) by (apply Z.log2_lt_pow2; lia).
    cbv zeta. rewrite Z.max_r by lia.
    change (-149 <=? -149) with true. cbv iota.
    change (-149 - -149) with 0. rewrite Z.pow_0_r, Z.mul_1_r.
    change ((-149 + 149) * 2 ^ 23) with 0. rewrite Z.min_l by lia. lia.
  - unfold f32_bits. destruct (N.eqb_spec (Z.to_N (2 ^ 23 + M)) 0) as [M0|M0]; [lia |].
    rewrite Z2N.id by lia.
    assert (Hlog : Z.log2 (2 ^ 23 + M) = 23) by (apply Z.log2_unique; lia).
    cbv zeta. rewrite Hlog. rewrite Z.max_l by lia.
    replace (23 + (E - 150) - 23) with (E - 150) by lia.
    rewrite Z.leb_refl, Z.sub_diag, Z.pow_0_r, Z.mul_1_r.
    rewrite Z.min_l by lia. lia.
Qed.

Lemma f32_bits_not_nan (x : number) : x <> NaN -> ~ nan_pattern (f32_bits x).
Proof.
  intros Hx [HE HM]. destruct x as [neg m e | neg |]; [| | done].
  - simpl in HE, HM. destruct (m =? 0)%N.
    { destruct neg; vm_compute in HE; discriminate HE. }
    set (q := Z.max _ _) in *.
    set (n := if q <=? e then _ else _) in *.
    set (r := (q + 149) * 2 ^ 23 + n) in *.
    assert (Hn : 0 <= n).
    { subst n. destruct (q <=? e).
      - apply Z.mul_nonneg_nonneg; [lia |]. apply Z.pow_nonneg. lia.
      - apply round_shift_nonneg. lia. }
    assert (Hr : 0 <= r) by (subst r q; nia).
    revert HE HM. generalize (Z.min r 2139095040) (Z.le_min_r r 2139095040)
      (Z.min_glb r 2139095040 0 Hr ltac:(lia)).
    intros v Hv1 Hv2.
    change (2 ^ 23) with 8388608. unfold sign_bit. change (2 ^ 31) with 2147483648.
    destruct neg; intros HE HM; Z.div_mod_to_equations; lia.
  - destruct neg; vm_compute in HM; by apply HM.
Qed.

Lemma f32_round_trip (x : number) :
  x <> NaN -> f32_bits (f32_value (f32_bits x)) = f32_bits x.
Proof.
  intros Hx. apply f32_bits_value; [apply f32_bits_range | by apply f32_bits_not_nan].
Qed.

End Binary32.

(** *** Decoding what the encoder wrote *)

Section RoundTrip.
Import Js Num Packet.
Local Open Scope Z_scope.

(** The text the encoder writes under the STRING tag, if that is the tag it
    chooses. *)
Definition as_text (v : jsval) : option jsstring :=
  match v with
  | VStr s => Some s
  | VNum x =>
      if isInteger x then
        if (0 <=? trunc x) && (trunc x <=? UINT32_MAX) then None
        else if (INT32_MIN <=? trunc x) && (trunc x <=? INT32_MAX) then None
        else Some (toString x)
      else if negb (isFinite x) then Some (toString x)
      else None
  | VArr l => if (2 <=? length l)%nat && (length l <=? 3)%nat then None else Some []
  | VUndefined => Some []
  end.

(** The engine's bound on the size of a string keeps every length the
    encoder writes within 32 bits. *)
Definition encodable (v : jsval) : Prop :=
  forall s, as_text v = Some s -> blen s < 2 ^ 32.

(** The value the decoder returns for the entry the encoder wrote for [v]. *)
Definition decoded (v : jsval) : jsval :=
  match as_text v with
  | Some s => VStr s
  | None =>
      match v with
      | VNum x => if isInteger x then VNum (of_Z (trunc x))
                  else VNum (f32_value (f32_bits x))
      | VArr l => VArr (map (fun c => f32_value (f32_bits (or_zero c))) l)
      | _ => v
      end
  end.

Definition tag_of (v : jsval) : Z := hd 0 (encode_value v).

Definition decoded_entry (i : nat) (v : jsval) : ventry :=
  {| entry_index := u8 (Z.of_nat i);
     entry_type := tag_of v;
     entry_value := decoded v;
     entry_encoded := Some ([u8 (Z.of_nat i)] ++ encode_value v) |}.

Fixpoint decoded_entries (i : nat) (args : list jsval) : list ventry :=
  match args with
  | [] => []
  | v :: rest => decoded_entry i v :: decoded_entries (S i) rest
  end.

Lemma parse_payload_FLOAT (b : Buffer) (p : Z) :
  parse_payload b FLOAT p =
  if blen b <? p + 4 then None else Some (VNum (readFloatLE b p), p + 4).
Proof. reflexivity. Qed.

Lemma parse_payload_VEC2 (b : Buffer) (p : Z) :
  parse_payload b VEC2 p =
  if blen b <? p + 8 then None
  else Some (VArr [readFloatLE b p; readFloatLE b (p + 4)], p + 8).
Proof. reflexivity. Qed.

Lemma parse_payload_VEC3 (b : Buffer) (p : Z) :
  parse_payload b VEC3 p =
  if blen b <? p + 12 then None
  else Some (VArr [readFloatLE b p; readFloatLE b (p + 4); readFloatLE b (p + 8)],
             p + 12).
Proof. reflexivity. Qed.

Lemma parse_payload_UNSIGNED (b : Buffer) (p : Z) :
  parse_payload b UNSIGNED p =
  if blen b <? p + 4 then None else Some (VNum (of_Z (readUInt32LE b p)), p + 4).
Proof. reflexivity. Qed.

Lemma parse_payload_SIGNED (b : Buffer) (p : Z) :
  parse_payload b SIGNED p =
  if blen b <? p + 4 then None else Some (VNum (of_Z (readInt32LE b p)), p + 4).
Proof. reflexivity. Qed.

Lemma blen_app (a b : Buffer) : blen (a ++ b) = blen a + blen b.
Proof. unfold blen. rewrite length_app. lia. Qed.

Lemma blen_cons (x : Z) (b : Buffer) : blen (x :: b) = 1 + blen b.
Proof. unfold blen. simpl length. lia. Qed.

Lemma blen_le32 (v : Z) : blen (le32 v) = 4.
Proof. reflexivity. Qed.

Lemma blen_nonneg (b : Buffer) : 0 <= blen b.
Proof. unfold blen. lia. Qed.

(** A word written at the end of [pre] reads back. *)
Lemma read_word (b pre post : Buffer) (v p : Z) :
  b = pre ++ le32 v ++ post -> p = blen pre -> 0 <= v < 2 ^ 32 ->
  readUInt32LE b p = v.
Proof.
  intros -> -> Hv. rewrite readUInt32LE_at by done. by apply Z.mod_small.
Qed.

Lemma read_float (b pre post : Buffer) (x : number) (p : Z) :
  b = pre ++ writeFloatLE x ++ post -> p = blen pre ->
  readFloatLE b p = f32_value (f32_bits x).
Proof.
  intros Hb Hp. unfold readFloatLE.
  by rewrite (read_word b pre post (f32_bits x) p Hb Hp (f32_bits_range x)).
Qed.

Ltac buf_eq := simpl; rewrite <- ?app_assoc; simpl; reflexivity.

Ltac blen_lia :=
  repeat match goal with
         | |- context [blen ?b] => lazymatch goal with
                                   | H : 0 <= blen b |- _ => fail
                                   | _ => pose proof (blen_nonneg b)
                                   end
         end;
  rewrite ?blen_app, ?blen_cons, ?blen_le32 in *; unfold blen in *; simpl length in *; lia.

Ltac blen_eq :=
  rewrite ?blen_app, ?blen_cons, ?blen_le32; unfold blen; simpl length; lia.

Lemma subarray_in (b pre mid post : Buffer) (from to : Z) :
  b = pre ++ mid ++ post -> from = blen pre -> to = blen pre + blen mid ->
  subarray b from to = mid.
Proof. intros ->. apply subarray_at. Qed.

(** An encoded string entry decodes to the string. *)
Lemma parse_text_entry (pre post : Buffer) (idx : Z) (s : jsstring) :
  blen s < 2 ^ 32 ->
  parse_payload (pre ++ idx :: STRING :: (writeUInt32LE (blen s) ++ s) ++ post)
    STRING (blen pre + 2)
  = Some (VStr s, blen pre + 2 + blen (writeUInt32LE (blen s) ++ s)).
Proof.
  intros Hs. unfold writeUInt32LE.
  set (b := pre ++ idx :: STRING :: (le32 (blen s) ++ s) ++ post).
  assert (Hlen : blen b = blen pre + 6 + blen s + blen post).
  { subst b. rewrite !blen_app, !blen_cons, !blen_app, blen_le32. lia. }
  assert (Hread : readUInt32LE b (blen pre + 2) = blen s).
  { apply (read_word b (pre ++ [idx; STRING]) (s ++ post)).
    - subst b. buf_eq.
    - rewrite blen_app. reflexivity.
    - pose proof (blen_nonneg s). lia. }
  rewrite parse_payload_string, Hread.
  pose proof (blen_nonneg s). pose proof (blen_nonneg post).
  destruct (Z.ltb_spec (blen b) (blen pre + 2 + 4)); [lia |].
  destruct (Z.ltb_spec (blen b) (blen pre + 2 + 4 + blen s)); [lia |].
  f_equal. f_equal.
  - f_equal. apply (subarray_in b (pre ++ [idx; STRING] ++ le32 (blen s)) s post).
    + subst b. buf_eq.
    + blen_eq.
    + blen_eq.
  - rewrite blen_app, blen_le32. lia.
Qed.

Lemma parse_float_entry (pre post : Buffer) (idx : Z) (x : number) :
  parse_payload (pre ++ idx :: FLOAT :: writeFloatLE x ++ post) FLOAT (blen pre + 2)
  = Some (VNum (f32_value (f32_bits x)), blen pre + 2 + 4).
Proof.
  set (b := pre ++ idx :: FLOAT :: writeFloatLE x ++ post).
  assert (Hlen : blen b = blen pre + 6 + blen post).
  { subst b. unfold writeFloatLE. rewrite !blen_app, !blen_cons, !blen_app, blen_le32. lia. }
  rewrite parse_payload_FLOAT. pose proof (blen_nonneg post).
  destruct (Z.ltb_spec (blen b) (blen pre + 2 + 4)); [lia |].
  rewrite (read_float b (pre ++ [idx; FLOAT]) post x); [done | subst b; buf_eq |].
  rewrite blen_app. reflexivity.
Qed.

Lemma parse_unsigned_entry (pre post : Buffer) (idx v : Z) :
  0 <= v < 2 ^ 32 ->
  parse_payload (pre ++ idx :: UNSIGNED :: writeUInt32LE v ++ post) UNSIGNED (blen pre + 2)
  = Some (VNum (of_Z v), blen pre + 2 + 4).
Proof.
  intros Hv. set (b := pre ++ idx :: UNSIGNED :: writeUInt32LE v ++ post).
  assert (Hlen : blen b = blen pre + 6 + blen post).
  { subst b. unfold writeUInt32LE. rewrite !blen_app, !blen_cons, !blen_app, blen_le32. lia. }
  rewrite parse_payload_UNSIGNED. pose proof (blen_nonneg post).
  destruct (Z.ltb_spec (blen b) (blen pre + 2 + 4)); [lia |].
  rewrite (read_word b (pre ++ [idx; UNSIGNED]) post v); [done | subst b; buf_eq | | done].
  rewrite blen_app. reflexivity.
Qed.

Lemma parse_signed_entry (pre post : Buffer) (idx v : Z) :
  - 2 ^ 31 <= v < 2 ^ 31 ->
  parse_payload (pre ++ idx :: SIGNED :: writeInt32LE v ++ post) SIGNED (blen pre + 2)
  = Some (VNum (of_Z v), blen pre + 2 + 4).
Proof.
  intros Hv. set (b := pre ++ idx :: SIGNED :: writeInt32LE v ++ post).
  assert (Hlen : blen b = blen pre + 6 + blen post).
  { subst b. unfold writeInt32LE. rewrite !blen_app, !blen_cons, !blen_app, blen_le32. lia. }
  rewrite parse_payload_SIGNED. pose proof (blen_nonneg post).
  destruct (Z.ltb_spec (blen b) (blen pre + 2 + 4)); [lia |].
  unfold readInt32LE.
  rewrite (read_word b (pre ++ [idx; SIGNED]) post (v mod 2 ^ 32));
    [| subst b; buf_eq | rewrite blen_app; reflexivity | apply Z.mod_pos_bound; lia].
  rewrite mod32_signed by done.
  destruct (Z.ltb_spec v 0).
  - destruct (Z.ltb_spec (v + 2 ^ 32) (2 ^ 31)); [lia |].
    by replace (v + 2 ^ 32 - 2 ^ 32) with v by lia.
  - destruct (Z.ltb_spec v (2 ^ 31)); [done | lia].
Qed.

Lemma parse_vec2_entry (pre post : Buffer) (idx : Z) (x y : number) :
  parse_payload (pre ++ idx :: VEC2 :: (writeFloatLE x ++ writeFloatLE y ++ []) ++ post)
    VEC2 (blen pre + 2)
  = Some (VArr [f32_value (f32_bits x); f32_value (f32_bits y)], blen pre + 2 + 8).
Proof.
  set (b := pre ++ _).
  assert (Hlen : blen b = blen pre + 10 + blen post).
  { subst b. unfold writeFloatLE. rewrite !blen_app, !blen_cons, !blen_app, !blen_le32.
    change (blen []) with 0. lia. }
  rewrite parse_payload_VEC2. pose proof (blen_nonneg post).
  destruct (Z.ltb_spec (blen b) (blen pre + 2 + 8)); [lia |].
  rewrite (read_float b (pre ++ [idx; VEC2]) (writeFloatLE y ++ post) x);
    [| subst b; buf_eq | blen_eq].
  rewrite (read_float b (pre ++ [idx; VEC2] ++ writeFloatLE x) post y);
    [done | subst b; buf_eq | unfold writeFloatLE; blen_eq].
Qed.

Lemma parse_vec3_entry (pre post : Buffer) (idx : Z) (x y z : number) :
  parse_payload
    (pre ++ idx :: VEC3 :: (writeFloatLE x ++ writeFloatLE y ++ writeFloatLE z ++ []) ++ post)
    VEC3 (blen pre + 2)
  = Some (VArr [f32_value (f32_bits x); f32_value (f32_bits y); f32_value (f32_bits z)],
          blen pre + 2 + 12).
Proof.
  set (b := pre ++ _).
  assert (Hlen : blen b = blen pre + 14 + blen post).
  { subst b. unfold writeFloatLE. rewrite !blen_app, !blen_cons, !blen_app, !blen_le32.
    change (blen []) with 0. lia. }
  rewrite parse_payload_VEC3. pose proof (blen_nonneg post).
  destruct (Z.ltb_spec (blen b) (blen pre + 2 + 12)); [lia |].
  rewrite (read_float b (pre ++ [idx; VEC3]) (writeFloatLE y ++ writeFloatLE z ++ post) x);
    [| subst b; buf_eq | blen_eq].
  rewrite (read_float b (pre ++ [idx; VEC3] ++ writeFloatLE x) (writeFloatLE z ++ post) y);
    [| subst b; buf_eq | unfold writeFloatLE; blen_eq].
  rewrite (read_float b (pre ++ [idx; VEC3] ++ writeFloatLE x ++ writeFloatLE y) post z);
    [done | subst b; buf_eq | unfold writeFloatLE; blen_eq].
Qed.

(** One entry: what [encode_value] wrote for [v] decodes to [decoded v], and
    decoding stops right after it. *)
Lemma parse_entry_encoded (pre post : Buffer) (idx : Z) (v : jsval) :
  encodable v ->
  exists payload,
    encode_value v = tag_of v :: payload
    /\ 4 <= blen payload
    /\ parse_payload (pre ++ idx :: tag_of v :: payload ++ post) (tag_of v) (blen pre + 2)
       = Some (decoded v, blen pre + 2 + blen payload).
Proof.
  intros Henc. unfold encodable in Henc.
  assert (Htext : forall s, as_text v = Some s ->
            encode_value v = STRING :: writeUInt32LE (blen s) ++ s ->
            exists payload,
              encode_value v = tag_of v :: payload
              /\ 4 <= blen payload
              /\ parse_payload (pre ++ idx :: tag_of v :: payload ++ post) (tag_of v)
                   (blen pre + 2)
                 = Some (decoded v, blen pre + 2 + blen payload)).
  { intros s Hs Heq. exists (writeUInt32LE (blen s) ++ s).
    unfold tag_of, decoded. rewrite Heq, Hs. simpl hd.
    split; [done |]. split.
    - unfold writeUInt32LE. rewrite blen_app, blen_le32. pose proof (blen_nonneg s). lia.
    - apply parse_text_entry. by apply Henc. }
  destruct v as [s | x | l |].
  - by apply (Htext s).
  - unfold tag_of, decoded. cbn [as_text encode_value].
    destruct (isInteger x) eqn:Hint.
    + destruct ((0 <=? trunc x) && (trunc x <=? UINT32_MAX)) eqn:Hu.
      * apply andb_true_iff in Hu as [H1 H2]. unfold UINT32_MAX in H2.
        exists (writeUInt32LE (trunc x)). split; [done |]. split; [done |].
        apply parse_unsigned_entry. lia.
      * destruct ((INT32_MIN <=? trunc x) && (trunc x <=? INT32_MAX)) eqn:Hs.
        -- apply andb_true_iff in Hs as [H1 H2]. unfold INT32_MIN, INT32_MAX in *.
           exists (writeInt32LE (trunc x)). split; [done |]. split; [done |].
           apply parse_signed_entry. lia.
        -- specialize (Htext (toString x)). unfold tag_of, decoded in Htext.
           cbn [as_text encode_value] in Htext. rewrite Hint, Hu, Hs in Htext.
           by apply Htext.
    + destruct (negb (isFinite x)) eqn:Hfin.
      * specialize (Htext (toString x)). unfold tag_of, decoded in Htext.
        cbn [as_text encode_value] in Htext. rewrite Hint, Hfin in Htext.
        by apply Htext.
      * exists (writeFloatLE x). split; [done |]. split; [done |].
        apply parse_float_entry.
  - unfold tag_of, decoded. cbn [as_text encode_value].
    destruct ((2 <=? length l)%nat && (length l <=? 3)%nat) eqn:Hl.
    + destruct l as [|x [|y [|z [|w l]]]]; try discriminate Hl.
      * eexists. split; [reflexivity |]. split; [done |]. apply parse_vec2_entry.
      * eexists. split; [reflexivity |]. split; [done |]. apply parse_vec3_entry.
    + specialize (Htext []). unfold tag_of, decoded in Htext.
      cbn [as_text encode_value] in Htext. rewrite Hl in Htext.
      by apply Htext.
  - by apply (Htext []).
Qed.

Lemma readUInt8_in (b pre post : Buffer) (x pos : Z) :
  b = pre ++ x :: post -> pos = blen pre -> readUInt8 b pos = x.
Proof. intros ->. apply readUInt8_at. Qed.

Lemma decoded_entries_app (i : nat) (a b : list jsval) :
  decoded_entries i (a ++ b) = decoded_entries i a ++ decoded_entries (i + length a) b.
Proof.
  revert i. induction a as [|v a IH]; intros i; simpl.
  - by rewrite Nat.add_0_r.
  - rewrite IH. by replace (S i + length a)%nat with (i + S (length a))%nat by lia.
Qed.

(** The decoding loop, started where the encoder began to write [args],
    returns their entries. *)
Lemma parse_loop_encoded (args : list jsval) (i : nat) (pre post : Buffer)
    (acc : list ventry) :
  Forall encodable args ->
  parse_loop (pre ++ encode_from i args ++ post) (length args) (blen pre) acc
  = Some (acc ++ decoded_entries i args).
Proof.
  intros Hargs. revert i pre acc.
  induction Hargs as [|v rest Hv _ IH]; intros i pre acc.
  - simpl. by rewrite app_nil_r.
  - destruct (parse_entry_encoded pre (encode_from (S i) rest ++ post)
                (u8 (Z.of_nat i)) v Hv) as (payload & Henc & Hpay & Hparse).
    set (idx := u8 (Z.of_nat i)) in *.
    assert (Hb : pre ++ encode_from i (v :: rest) ++ post
                 = pre ++ idx :: tag_of v :: payload ++ encode_from (S i) rest ++ post).
    { cbn [encode_from]. rewrite Henc. subst idx. buf_eq. }
    rewrite Hb. cbn [length parse_loop].
    set (b := pre ++ idx :: tag_of v :: payload ++ encode_from (S i) rest ++ post) in *.
    assert (Hlen : blen pre + 2 + blen payload <= blen b).
    { subst b. rewrite !blen_app, !blen_cons, !blen_app.
      pose proof (blen_nonneg (encode_from (S i) rest)). pose proof (blen_nonneg post). lia. }
    destruct (Z.ltb_spec (blen b) (blen pre + 2)); [lia |].
    assert (Htag : readUInt8 b (blen pre + 1) = tag_of v).
    { apply (readUInt8_in b (pre ++ [idx]) (payload ++ encode_from (S i) rest ++ post));
        [subst b; buf_eq | blen_eq]. }
    assert (Hidx : readUInt8 b (blen pre) = idx).
    { by apply (readUInt8_in b pre (tag_of v :: payload ++ encode_from (S i) rest ++ post)). }
    rewrite Htag, Hidx, Hparse.
    assert (Hsub : subarray b (blen pre) (blen pre + 2 + blen payload)
                   = [idx] ++ encode_value v).
    { rewrite Henc.
      apply (subarray_in b pre (idx :: tag_of v :: payload) (encode_from (S i) rest ++ post)).
      - subst b. buf_eq.
      - done.
      - blen_eq. }
    rewrite Hsub.
    replace b with ((pre ++ idx :: tag_of v :: payload) ++ encode_from (S i) rest ++ post)
      by (subst b; buf_eq).
    replace (blen pre + 2 + blen payload) with (blen (pre ++ idx :: tag_of v :: payload))
      by blen_eq.
    rewrite IH. f_equal. rewrite <- app_assoc. done.
Qed.

(** Entries numbered from [length acc] on fill the array in order. *)
Lemma fold_array_set (l : list jsval) (acc : jsarray) :
  (length acc + length l <= 256)%nat ->
  fold_left (fun args entry =>
               array_set args (Z.to_nat (entry_index entry)) (entry_value entry))
            (decoded_entries (length acc) l) acc
  = acc ++ map (fun v => Some (decoded v)) l.
Proof.
  revert acc. induction l as [|v l IH]; intros acc Hlen; simpl.
  - by rewrite app_nil_r.
  - simpl in Hlen.
    assert (Hidx : Z.to_nat (u8 (Z.of_nat (length acc))) = length acc).
    { unfold u8. rewrite Z.mod_small by lia. lia. }
    rewrite Hidx. unfold array_set at 2.
    destruct (Nat.ltb_spec (length acc) (length acc)); [lia |].
    rewrite Nat.sub_diag. simpl replicate. simpl app at 2.
    replace (S (length acc)) with (length (acc ++ [Some (decoded v)]))
      by (rewrite length_app; simpl; lia).
    rewrite IH by (rewrite length_app; simpl; lia).
    by rewrite <- app_assoc.
Qed.

Lemma parse_loop_prefix (n : nat) (args : list jsval) (pre : Buffer) :
  (n <= length args)%nat -> Forall encodable args ->
  parse_loop (pre ++ encode_from 0 args) n (blen pre) []
  = Some (decoded_entries 0 (take n args)).
Proof.
  intros Hn Hargs.
  assert (Hlen : length (take n args) = n) by (rewrite length_take; lia).
  assert (Heq : encode_from 0 args
                = encode_from 0 (take n args)
                  ++ encode_from (0 + length (take n args)) (drop n args)).
  { by rewrite <- encode_from_app, take_drop. }
  pose proof (parse_loop_encoded (take n args) 0 pre
                (encode_from (0 + length (take n args)) (drop n args)) []
                ltac:(by apply Forall_take)) as H.
  rewrite <- Heq, Hlen in H. exact H.
Qed.

(** What decoding returns for an encoded list: the decoded values of as
    many leading arguments as the count byte announces. *)
Lemma parse_encoded_args (args : list jsval) :
  Forall encodable args ->
  parseVariantArgs (encodeVariantArgs args)
  = map (fun v => Some (decoded v))
        (take (Z.to_nat (Z.of_nat (length args) mod 256)) args).
Proof.
  intros Hargs. unfold parseVariantArgs, parseVariantEntries, encodeVariantArgs.
  set (n := Z.to_nat (Z.of_nat (length args) mod 256)).
  assert (Hn : (n <= length args)%nat /\ (n < 256)%nat).
  { subst n. pose proof (Z.mod_pos_bound (Z.of_nat (length args)) 256).
    pose proof (Z.mod_le (Z.of_nat (length args)) 256). lia. }
  destruct (Z.eqb_spec (blen ([u8 (Z.of_nat (length args))] ++ encode_from 0 args)) 0)
    as [E|_].
  { rewrite blen_app in E. pose proof (blen_nonneg (encode_from 0 args)).
    change (blen [u8 (Z.of_nat (length args))]) with 1 in E. lia. }
  change (readUInt8 ([u8 (Z.of_nat (length args))] ++ encode_from 0 args) 0)
    with (u8 (Z.of_nat (length args))).
  unfold u8 at 2. fold n.
  change 1 with (blen [u8 (Z.of_nat (length args))]).
  rewrite parse_loop_prefix by tauto.
  cbn [entries].
  change 0%nat with (length (@nil (option jsval))).
  rewrite fold_array_set; [done |]. rewrite length_take. simpl. lia.
Qed.



(** *** The entry count is one byte (C10) *)

(** C10: the count byte the encoder writes is the length of the argument
    list modulo 256; so for a list of more than 255 arguments (each one
    within the engine's string size bound) it differs from the length,
    decoding returns fewer values than were encoded, and the decoded list is
    not the original one, under whatever comparison of the values. *)
Theorem count_byte_wraps (args : list jsval) :
  Forall encodable args ->
  (255 < length args)%nat ->
  hd 0 (encodeVariantArgs args) = Z.of_nat (length args) mod 256
  /\ hd 0 (encodeVariantArgs args) <> Z.of_nat (length args)
  /\ (length (parseVariantArgs (encodeVariantArgs args)) < length args)%nat
  /\ parseVariantArgs (encodeVariantArgs args) <> map Some args
  /\ (forall R : option jsval -> jsval -> Prop,
         ~ Forall2 R (parseVariantArgs (encodeVariantArgs args)) args).
Proof.
  intros Hargs Hlen.
  pose proof (Z.mod_pos_bound (Z.of_nat (length args)) 256 ltac:(lia)) as Hmod.
  assert (Hshort : (length (parseVariantArgs (encodeVariantArgs args)) < length args)%nat).
  { rewrite parse_encoded_args by done. rewrite length_map, length_take. lia. }
  split; [reflexivity |]. split; [simpl; unfold u8; lia |]. split; [exact Hshort |].
  split.
  - intros E. rewrite E, length_map in Hshort. lia.
  - intros R HR. apply Forall2_length in HR. lia.
Qed.

Lemma count_byte_wraps_witness :
  hd 0 (encodeVariantArgs (replicate 256 (VStr []))) = 0
  /\ parseVariantArgs (encodeVariantArgs (replicate 256 (VStr []))) = [].
Proof.
  destruct (count_byte_wraps (replicate 256 (VStr []))) as (Hcount & _).
  - apply Forall_replicate. intros s [= <-]. reflexivity.
  - rewrite length_replicate. lia.
  - split; [exact Hcount | by vm_compute].
Defined.

(** *** The round trip (C4) *)

(** The values the specification lets into the round trip: strings,
    integers from -2^31 to 2^32-1, finite non-integers, and arrays of two or
    three numbers. *)
Definition in_round_trip_domain (v : jsval) : Prop :=
  match v with
  | VStr s => blen s < 2 ^ 32
  | VNum x =>
      (isInteger x = true /\ - 2 ^ 31 <= trunc x <= 2 ^ 32 - 1)
      \/ (isFinite x = true /\ isInteger x = false)
  | VArr l => length l = 2%nat \/ length l = 3%nat
  | VUndefined => False
  end.

(** Two numbers have the same binary32 bit pattern. *)
Definition f32_equal (x y : number) : Prop := f32_bits x = f32_bits y.

(** The equality of the round trip: strings unit for unit, integers by
    value, other numbers and array components by binary32 bit pattern. *)
Definition same_value (input output : jsval) : Prop :=
  match input, output with
  | VStr s, VStr s' => s' = s
  | VNum x, VNum y =>
      if isInteger x then isInteger y = true /\ trunc y = trunc x
      else f32_equal x y
  | VArr l, VArr l' => Forall2 f32_equal l l'
  | _, _ => False
  end.

Definition round_trips (args : list jsval) : Prop :=
  Forall2 (fun out v => exists w, out = Some w /\ same_value v w)
          (parseVariantArgs (encodeVariantArgs args)) args.

(** C4, as the specification states it, fails twice: a list of 256 entries
    decodes to the empty list, and an array component that is negative zero
    (or NaN) comes back as positive zero. *)
Lemma round_trip_fails :
  (Forall in_round_trip_domain (replicate 256 (VStr []))
   /\ ~ round_trips (replicate 256 (VStr [])))
  /\ (Forall in_round_trip_domain [VArr [Fin true 0 0; of_Z 1]]
      /\ ~ round_trips [VArr [Fin true 0 0; of_Z 1]])
  /\ (Forall in_round_trip_domain [VArr [NaN; of_Z 1]]
      /\ ~ round_trips [VArr [NaN; of_Z 1]]).
Proof.
  split; [| split].
  - split; [apply Forall_replicate; reflexivity |].
    intros H. apply Forall2_length in H. vm_compute in H. discriminate H.
  - split; [repeat constructor |].
    unfold round_trips.
    replace (parseVariantArgs (encodeVariantArgs [VArr [Fin true 0 0; of_Z 1]]))
      with [Some (VArr [Fin false 0 (-149); Fin false 8388608 (-23)])]
      by (vm_compute; reflexivity).
    intros H. apply Forall2_cons in H as [(w & Hw & Hsame) _].
    injection Hw as <-. apply Forall2_cons in Hsame as [Hbits _].
    vm_compute in Hbits. discriminate Hbits.
  - split; [repeat constructor |].
    unfold round_trips.
    replace (parseVariantArgs (encodeVariantArgs [VArr [NaN; of_Z 1]]))
      with [Some (VArr [Fin false 0 (-149); Fin false 8388608 (-23)])]
      by (vm_compute; reflexivity).
    intros H. apply Forall2_cons in H as [(w & Hw & Hsame) _].
    injection Hw as <-. apply Forall2_cons in Hsame as [Hbits _].
    vm_compute in Hbits. discriminate Hbits.
Qed.

(** An array component the encoder writes as it is: [c || 0] replaces NaN
    and negative zero by positive zero. *)
Definition plain_component (c : number) : Prop :=
  c <> NaN /\ (forall e, c <> Fin true 0 e).

Definition in_amended_domain (v : jsval) : Prop :=
  in_round_trip_domain v
  /\ match v with
     | VArr l => Forall plain_component l
     | _ => True
     end.

Lemma trunc_of_Z (z : Z) : trunc (of_Z z) = z.
Proof.
  unfold trunc, of_Z. change (0 <=? 0) with true. cbv iota.
  rewrite Z2N.id, Z.pow_0_r, Z.mul_1_r by lia.
  destruct (Z.ltb_spec z 0); lia.
Qed.

Lemma or_zero_bits (c : number) : plain_component c -> f32_bits (or_zero c) = f32_bits c.
Proof.
  intros [Hnan Hneg]. unfold or_zero, truthy.
  destruct c as [neg m e | neg |]; [| reflexivity | done].
  destruct (N.eqb_spec m 0) as [->|Hm]; cbn [negb]; [| reflexivity].
  destruct neg; [by destruct (Hneg e) | reflexivity].
Qed.

Lemma or_zero_not_nan (c : number) : or_zero c <> NaN.
Proof.
  unfold or_zero, truthy. destruct c as [neg m e | neg |]; try done.
  by destruct (negb _).
Qed.

Lemma in_domain_encodable (v : jsval) : in_round_trip_domain v -> encodable v.
Proof.
  intros Hv s. destruct v as [t | x | l |]; simpl in *.
  - by intros [= <-].
  - destruct Hv as [[Hint Hrange] | [Hfin Hint]]; rewrite Hint.
    + unfold UINT32_MAX, INT32_MIN, INT32_MAX.
      destruct (Z.leb_spec 0 (trunc x)); simpl.
      * destruct (Z.leb_spec (trunc x) 4294967295); [done | lia].
      * destruct (Z.leb_spec (-2147483648) (trunc x)); [| lia].
        destruct (Z.leb_spec (trunc x) 2147483647); [done | lia].
    + by rewrite Hfin.
  - by destruct Hv as [-> | ->].
  - done.
Qed.

Lemma same_value_decoded (v : jsval) : in_amended_domain v -> same_value v (decoded v).
Proof.
  intros [Hv Hvec]. unfold decoded. destruct v as [t | x | l |]; simpl in *.
  - done.
  - destruct Hv as [[Hint Hrange] | [Hfin Hint]]; rewrite Hint.
    + unfold UINT32_MAX, INT32_MIN, INT32_MAX.
      assert (Hok : isInteger (of_Z (trunc x)) = true
                    /\ trunc (of_Z (trunc x)) = trunc x).
      { split; [done | apply trunc_of_Z]. }
      destruct (Z.leb_spec 0 (trunc x)); simpl.
      * destruct (Z.leb_spec (trunc x) 4294967295); [exact Hok | lia].
      * destruct (Z.leb_spec (-2147483648) (trunc x)); [| lia].
        destruct (Z.leb_spec (trunc x) 2147483647); [exact Hok | lia].
    + rewrite Hfin. cbn [negb]. unfold f32_equal. symmetry.
      apply f32_round_trip. by destruct x.
  - assert (Hl : Forall2 f32_equal l (map (fun c => f32_value (f32_bits (or_zero c))) l)).
    { clear Hv. induction Hvec as [|c l Hc _ IH]; simpl; constructor; [| exact IH].
      unfold f32_equal. rewrite f32_round_trip by apply or_zero_not_nan.
      symmetry. by apply or_zero_bits. }
    by destruct Hv as [-> | ->].
  - done.
Qed.

(** C4, as the code has it: for every list of at most 255 entries, each a string, an
    integer from -2^31 to 2^32-1, a finite non-integer, or an array of two or
    three numbers none of which is NaN or negative zero, decoding the
    encoding yields a list of the same length whose entries equal the
    input's: strings unit for unit, integers by value, the other numbers and
    the array components by binary32 bit pattern. *)
Theorem variant_round_trip (args : list jsval) :
  (length args <= 255)%nat ->
  Forall in_amended_domain args ->
  round_trips args.
Proof.
  intros Hlen Hargs. unfold round_trips.
  rewrite parse_encoded_args.
  - rewrite Z.mod_small, Nat2Z.id, firstn_all by lia.
    induction Hargs as [|v args Hv _ IH]; simpl; constructor.
    + exists (decoded v). split; [done | by apply same_value_decoded].
    + apply IH. simpl in Hlen. lia.
  - eapply Forall_impl; [exact Hargs |]. intros v [Hv _]. by apply in_domain_encodable.
Qed.

Definition round_trip_example : list jsval :=
  [VStr (lit "OnChangeSkin"); VNum (of_Z 4294967295); VNum (of_Z (-7));
   VNum (Fin false 3 (-1)); VArr [of_Z 1; Fin false 5 (-2)]].

Lemma variant_round_trip_witness : round_trips round_trip_example.
Proof.
  apply variant_round_trip; [simpl; lia |].
  unfold round_trip_example.
  repeat match goal with
         | |- Forall _ (_ :: _) => constructor
         | |- Forall _ [] => constructor
         end.
  - split; [reflexivity | exact I].
  - split; [left; split; [reflexivity | vm_compute; split; discriminate] | exact I].
  - split; [left; split; [reflexivity | vm_compute; split; discriminate] | exact I].
  - split; [right; split; reflexivity | exact I].
  - split; [left; reflexivity |].
    repeat match goal with
           | |- Forall _ (_ :: _) => constructor
           | |- Forall _ [] => constructor
           end; (split; [discriminate | intros e; discriminate]).
Defined.

End RoundTrip.

(** ** World state (spec 4.G) *)

Section World.
Import Js WorldState.
Local Open Scope Z_scope.

(** No participant of the map has type [local]. *)
Definition no_local_participant (w : t) : Prop :=
  forall id p, players w !! id = Some p -> type p <> lit "local".

(** The invariant of the specification: [localNetId] is -1 whenever no
    participant of type [local] is known. *)
Definition local_invariant (w : t) : Prop :=
  no_local_participant w -> localNetId w = -1.

Definition local_player : participant :=
  {| spawn := lit "avatar"; netId := 5; userId := 40; name := lit "me";
     type := lit "local" |}.

Definition other_player : participant :=
  {| spawn := lit "avatar"; netId := 5; userId := 41; name := lit "other";
     type := [] |}.

(** C6 fails on the code: a spawn of a non-local participant under the net
    id of the local one overwrites it in the map but leaves [localNetId]
    pointing at it, so the map has no [local] participant while
    [localNetId] is 5.  [onRemove] and [clear] do reset [localNetId] when
    the local participant goes away; [onSpawn] misses the case. *)
Theorem local_net_id_survives_overwrite :
  let w := run [OnSpawn local_player; OnSpawn other_player] in
  no_local_participant w /\ localNetId w = 5 /\ ~ local_invariant w.
Proof.
  assert (Hno : no_local_participant (run [OnSpawn local_player; OnSpawn other_player])).
  { intros id p. unfold run. simpl. unfold onSpawn. simpl.
    rewrite insert_insert_eq. intros Hp.
    destruct (decide (id = 5)) as [->|Hne].
    - rewrite lookup_insert_eq in Hp. injection Hp as <-. simpl. discriminate.
    - rewrite lookup_insert_ne, lookup_empty in Hp by done. discriminate Hp. }
  split; [exact Hno |]. split; [reflexivity |].
  intros H. specialize (H Hno). discriminate H.
Qed.

(** What the code does keep: [localNetId] is -1 or the key of a
    participant of the map. *)
Lemma local_net_id_is_a_key (ops : list op) :
  localNetId (run ops) = -1
  \/ (0 <= localNetId (run ops) /\ is_Some (players (run ops) !! localNetId (run ops))).
Proof.
  unfold run.
  assert (Hnew : localNetId new = -1
                 \/ (0 <= localNetId new /\ is_Some (players new !! localNetId new)))
    by (by left).
  revert Hnew. generalize new.
  induction ops as [|o ops IH]; intros w Hw; simpl; [exact Hw |].
  apply IH. destruct o as [payload | id |]; simpl.
  - unfold onSpawn. destruct (Z.ltb_spec (netId payload) 0); [exact Hw |]. simpl.
    destruct (str_eqb _ _).
    + right. split; [lia |]. rewrite lookup_insert_eq. by eexists.
    + destruct Hw as [Hw | [Hpos Hkey]]; [by left | right]. split; [done |].
      destruct (decide (netId payload = localNetId w)) as [->|Hne].
      * rewrite lookup_insert_eq. by eexists.
      * by rewrite lookup_insert_ne.
  - unfold onRemove. destruct (Z.ltb_spec id 0); [exact Hw |]. simpl.
    destruct (Z.eqb_spec (localNetId w) id) as [E|E]; [by left |].
    destruct Hw as [Hw | [Hpos Hkey]]; [by left | right]. split; [done |].
    by rewrite lookup_delete_ne.
  - by left.
Qed.

End World.

(** ** The task scheduler (spec 4.F) *)

Section Scheduler.
Import TaskScheduler.

(** The invariant behind "at most one task per tag": every pending timer
    was handed out already, and a pending timer that carries a non-empty tag
    is the one the scheduler maps that tag to. *)
Definition inv (s : t) : Prop :=
  (forall id cb tag, timers s !! id = Some (cb, tag) -> id < next_handle s)
  /\ (forall id cb tag, timers s !! id = Some (cb, tag) -> truthy tag = true ->
        tasksByTag s !! tag = Some id).

(** At most one pending timer carries a given non-empty tag. *)
Definition at_most_one_per_tag (s : t) : Prop :=
  forall tag id id' cb cb',
    truthy tag = true ->
    timers s !! id = Some (cb, tag) -> timers s !! id' = Some (cb', tag) -> id = id'.

(** The timer [id] is gone for good: not pending, and older than every
    handle still to be handed out; and it has not run. *)
Definition dead (id : nat) (s : t) : Prop :=
  timers s !! id = None /\ id < next_handle s /\ (forall label, (id, label) ∉ ran s).

Lemma inv_at_most_one (s : t) : inv s -> at_most_one_per_tag s.
Proof.
  intros [_ Hmap] tag id id' cb cb' Htag H1 H2.
  apply Hmap in H1; [| done]. apply Hmap in H2; [| done]. congruence.
Qed.

Lemma inv_new : inv new.
Proof. split; intros id cb tag H; simpl in H; by rewrite lookup_empty in H. Qed.

(** *** The methods keep the invariant *)

Lemma inv_cancelByTag (s : t) (tag : string) : inv s -> inv (fst (cancelByTag s tag)).
Proof.
  intros [Hold Hmap]. unfold cancelByTag.
  destruct (tasksByTag s !! tag) as [timeoutId|] eqn:E; simpl; [| done].
  split; intros id cb tag' Hid; simpl in *.
  - apply lookup_delete_Some in Hid as [_ Hid]. eauto.
  - intros Htag. apply lookup_delete_Some in Hid as [Hne Hid].
    pose proof (Hmap _ _ _ Hid Htag) as Hm.
    rewrite lookup_delete_ne; [done |]. intros ->. congruence.
Qed.

Lemma cancelByTag_clears (s : t) (tag : string) (id : nat) (cb : callback) :
  inv s -> truthy tag = true ->
  timers (fst (cancelByTag s tag)) !! id = Some (cb, tag) -> False.
Proof.
  intros [_ Hmap] Htag. unfold cancelByTag.
  destruct (tasksByTag s !! tag) as [timeoutId|] eqn:E; simpl.
  - intros Hid. apply lookup_delete_Some in Hid as [Hne Hid].
    pose proof (Hmap _ _ _ Hid Htag). congruence.
  - intros Hid. pose proof (Hmap _ _ _ Hid Htag). congruence.
Qed.

Lemma cancelByTag_fields (s : t) (tag : string) :
  next_handle (fst (cancelByTag s tag)) = next_handle s
  /\ ran (fst (cancelByTag s tag)) = ran s
  /\ (forall id, timers (fst (cancelByTag s tag)) !! id = None
                 \/ timers (fst (cancelByTag s tag)) !! id = timers s !! id).
Proof.
  unfold cancelByTag. destruct (tasksByTag s !! tag) as [timeoutId|]; simpl.
  - repeat split. intros id. destruct (decide (timeoutId = id)) as [->|Hne].
    + left. apply lookup_delete_eq.
    + right. by apply lookup_delete_ne.
  - repeat split. by right.
Qed.

Lemma inv_scheduleDelayed (s : t) (cb : callback) (delayMs : Z) (tag : string) :
  inv s -> inv (fst (scheduleDelayed s cb delayMs tag)).
Proof.
  intros Hinv. unfold scheduleDelayed.
  destruct (truthy tag) eqn:Htag; simpl.
  - pose proof (inv_cancelByTag s tag Hinv) as [Hold Hmap].
    pose proof (cancelByTag_clears s tag) as Hclear.
    set (s' := fst (cancelByTag s tag)) in *.
    split; intros id c tag' Hid; simpl in *.
    + apply lookup_insert_Some in Hid as [[<- _] | [_ Hid]]; [lia |].
      apply Hold in Hid. lia.
    + intros Htag'. apply lookup_insert_Some in Hid as [[<- [= <- <-]] | [Hne Hid]].
      * apply lookup_insert_eq.
      * destruct (decide (tag = tag')) as [<-|Hneq].
        -- exfalso. by eapply Hclear.
        -- rewrite lookup_insert_ne by done. by eapply Hmap.
  - destruct Hinv as [Hold Hmap].
    split; intros id c tag' Hid; simpl in *.
    + apply lookup_insert_Some in Hid as [[<- _] | [_ Hid]]; [lia |].
      apply Hold in Hid. lia.
    + intros Htag'. apply lookup_insert_Some in Hid as [[<- [= <- <-]] | [Hne Hid]].
      * congruence.
      * by eapply Hmap.
Qed.

Lemma cancelAll_loop (s : t) (m : gmap string nat) :
  let r := map_fold (fun _ timeoutId s => clearTimeout s timeoutId) s m in
  next_handle r = next_handle s /\ ran r = ran s
  /\ (forall id, timers r !! id = None \/ timers r !! id = timers s !! id)
  /\ (forall tag id, m !! tag = Some id -> timers r !! id = None).
Proof.
  apply (map_fold_weak_ind
           (fun r m =>
              next_handle r = next_handle s /\ ran r = ran s
              /\ (forall id, timers r !! id = None \/ timers r !! id = timers s !! id)
              /\ (forall tag id, m !! tag = Some id -> timers r !! id = None))).
  - repeat split; [by right |]. intros tag id H. by rewrite lookup_empty in H.
  - intros tag timeoutId m' r Hfresh (Hn & Hr & Hsub & Hcl). simpl.
    repeat split; try done.
    + intros id. destruct (decide (timeoutId = id)) as [->|Hne].
      * left. apply lookup_delete_eq.
      * rewrite lookup_delete_ne by done. apply Hsub.
    + intros tag' id Hin. destruct (decide (timeoutId = id)) as [->|Hne].
      * apply lookup_delete_eq.
      * rewrite lookup_delete_ne by done.
        apply lookup_insert_Some in Hin as [[_ ->] | [_ Hin]]; [done |]. by eapply Hcl.
Qed.

Lemma inv_cancelAll (s : t) : inv s -> inv (cancelAll s).
Proof.
  intros [Hold Hmap]. unfold cancelAll.
  destruct (cancelAll_loop s (tasksByTag s)) as (Hn & _ & Hsub & Hcl).
  split; intros id cb tag Hid; simpl in *.
  - rewrite Hn. destruct (Hsub id) as [E|E]; rewrite E in Hid; [done | eauto].
  - intros Htag. exfalso. destruct (Hsub id) as [E|E]; [congruence |].
    pose proof Hid as Hid'. rewrite E in Hid'.
    apply Hmap in Hid'; [| done]. apply Hcl in Hid'. congruence.
Qed.

Lemma inv_call (s : t) (a : action) : inv s -> inv (call s a).
Proof.
  destruct a as [cb delayMs tag | tag |]; simpl.
  - apply (inv_scheduleDelayed s cb delayMs tag).
  - apply inv_cancelByTag.
  - apply inv_cancelAll.
Qed.

Lemma inv_calls (body : list action) (s : t) : inv s -> inv (fold_left call body s).
Proof.
  revert s. induction body as [|a body IH]; intros s Hs; simpl; [done |].
  apply IH. by apply inv_call.
Qed.

Lemma inv_fire (s : t) (id : nat) (cb : callback) (tag : string) :
  inv s -> timers s !! id = Some (cb, tag) -> inv (fire s id cb tag).
Proof.
  intros [Hold Hmap] Hid. unfold fire. apply inv_calls.
  destruct (truthy tag) eqn:Htag; simpl.
  - split; intros id' c tag' Hid'; simpl in *.
    + apply lookup_delete_Some in Hid' as [_ Hid']. eauto.
    + intros Htag'. apply lookup_delete_Some in Hid' as [Hne Hid'].
      pose proof (Hmap _ _ _ Hid' Htag') as Hm.
      rewrite lookup_delete_ne; [done |]. intros ->.
      pose proof (Hmap _ _ _ Hid Htag). congruence.
  - split; intros id' c tag' Hid'; simpl in *.
    + apply lookup_delete_Some in Hid' as [_ Hid']. eauto.
    + intros Htag'. apply lookup_delete_Some in Hid' as [Hne Hid']. eauto.
Qed.

Lemma inv_step (s s' : t) (e : event) : step s e s' -> inv s -> inv s'.
Proof.
  intros Hstep Hs. destruct Hstep; [by apply inv_call | by apply inv_fire].
Qed.

Lemma inv_steps (s s' : t) (es : list event) : steps s es s' -> inv s -> inv s'.
Proof.
  induction 1 as [|s e s1 es s2 Hstep _ IH]; [done |].
  intros Hs. apply IH. by eapply inv_step.
Qed.

(** *** Handles are fresh, and a canceled timer stays canceled *)

(** Every callback that has run did so under a handle handed out before. *)
Definition ran_old (s : t) : Prop :=
  forall id label, (id, label) ∈ ran s -> id < next_handle s.

Lemma cancelAll_fields (s : t) :
  next_handle (cancelAll s) = next_handle s /\ ran (cancelAll s) = ran s
  /\ (forall id, timers (cancelAll s) !! id = None
                 \/ timers (cancelAll s) !! id = timers s !! id).
Proof.
  unfold cancelAll. destruct (cancelAll_loop s (tasksByTag s)) as (Hn & Hr & Hsub & _).
  simpl. by repeat split.
Qed.

(** A method call hands out handles upwards only, runs nothing, and makes
    no old timer pending. *)
Lemma call_fields (s : t) (a : action) :
  next_handle s <= next_handle (call s a) /\ ran (call s a) = ran s
  /\ (forall id, id < next_handle s ->
         timers (call s a) !! id = None \/ timers (call s a) !! id = timers s !! id).
Proof.
  destruct a as [cb delayMs tag | tag |]; cbn [call].
  - unfold scheduleDelayed.
    destruct (cancelByTag_fields s tag) as (Hn & Hr & Hsub).
    destruct (truthy tag); simpl.
    + rewrite Hn, Hr. repeat split; [lia |]. intros id Hid.
      rewrite lookup_insert_ne by lia. apply Hsub.
    + repeat split; [lia |]. intros id Hid. right. apply lookup_insert_ne. lia.
  - destruct (cancelByTag_fields s tag) as (Hn & Hr & Hsub).
    rewrite Hn, Hr. repeat split; [lia |]. intros id _. apply Hsub.
  - destruct (cancelAll_fields s) as (Hn & Hr & Hsub).
    rewrite Hn, Hr. repeat split; [lia |]. intros id _. apply Hsub.
Qed.

Lemma dead_call (id : nat) (s : t) (a : action) : dead id s -> dead id (call s a).
Proof.
  intros (Hgone & Hold & Hran). destruct (call_fields s a) as (Hn & Hr & Hsub).
  repeat split.
  - destruct (Hsub id Hold) as [E|E]; congruence.
  - lia.
  - by rewrite Hr.
Qed.

Lemma dead_calls (id : nat) (body : list action) (s : t) :
  dead id s -> dead id (fold_left call body s).
Proof.
  revert s. induction body as [|a body IH]; intros s Hs; simpl; [done |].
  apply IH. by apply dead_call.
Qed.

Lemma dead_step (id : nat) (s s' : t) (e : event) : step s e s' -> dead id s -> dead id s'.
Proof.
  intros Hstep (Hgone & Hold & Hran).
  destruct Hstep as [s a | s timeoutId cb tag Hpending]; [by apply dead_call |].
  unfold fire. apply dead_calls.
  assert (Hne : timeoutId <> id) by congruence.
  destruct (truthy tag); simpl; repeat split; simpl;
    try (rewrite lookup_delete_ne by done; exact Hgone); try exact Hold;
    intros label Hin; apply elem_of_app in Hin as [Hin | Hin];
    try (by apply (Hran label));
    apply list_elem_of_singleton in Hin; congruence.
Qed.

Lemma dead_steps (id : nat) (s s' : t) (es : list event) :
  steps s es s' -> dead id s -> dead id s'.
Proof.
  induction 1 as [|s e s1 es s2 Hstep _ IH]; [done |].
  intros Hs. apply IH. by eapply dead_step.
Qed.

Lemma ran_old_calls (body : list action) (s : t) :
  ran_old s -> ran_old (fold_left call body s).
Proof.
  revert s. induction body as [|a body IH]; intros s Hs; simpl; [done |].
  apply IH. destruct (call_fields s a) as (Hn & Hr & _).
  intros id label Hin. rewrite Hr in Hin. apply Hs in Hin. lia.
Qed.

Lemma ran_old_step (s s' : t) (e : event) :
  step s e s' -> inv s -> ran_old s -> ran_old s'.
Proof.
  intros Hstep [Hold _] Hran.
  destruct Hstep as [s a | s timeoutId cb tag Hpending].
  - by apply (ran_old_calls [a]).
  - unfold fire. apply ran_old_calls.
    assert (Hlt : timeoutId < next_handle s) by eauto.
    destruct (truthy tag); simpl; intros id label Hin; simpl in *;
      apply elem_of_app in Hin as [Hin | Hin]; try (by eapply Hran);
      apply list_elem_of_singleton in Hin; injection Hin as -> _; exact Hlt.
Qed.

Lemma reachable_inv (es : list event) (s : t) : steps new es s -> inv s /\ ran_old s.
Proof.
  assert (Hgen : forall s0 s1, steps s0 es s1 -> inv s0 /\ ran_old s0 -> inv s1 /\ ran_old s1).
  { induction 1 as [|s0 e s1 es' s2 Hstep _ IH]; [done |].
    intros [Hi Hr]. apply IH. split; [by eapply inv_step | by eapply ran_old_step]. }
  intros H. apply (Hgen _ _ H). split; [apply inv_new |].
  intros id label Hin. simpl in Hin. by apply elem_of_nil in Hin.
Qed.

(** C7: in any state the scheduler can reach, for a non-empty tag [X],
    after [scheduleDelayed(cb, d, X)] followed at once by
    [scheduleDelayed(cb2, d2, X)]: the first timer was pending and is
    canceled; the only pending timer under [X] is the second, with callback
    [cb2]; whatever happens afterwards (method calls, timers firing, in any
    order), the first timer never fires, so [cb] is never run by it; and in
    every reachable state at most one pending timer carries a given
    non-empty tag. *)
Theorem rescheduling_replaces_the_task
    (es : list event) (s : t) (cb cb2 : callback) (d d2 : Z) (X : string) :
  steps new es s ->
  truthy X = true ->
  let s1 := fst (scheduleDelayed s cb d X) in
  let id1 := snd (scheduleDelayed s cb d X) in
  let s2 := fst (scheduleDelayed s1 cb2 d2 X) in
  let id2 := snd (scheduleDelayed s1 cb2 d2 X) in
  timers s1 !! id1 = Some (cb, X)
  /\ timers s2 !! id1 = None
  /\ tasksByTag s2 !! X = Some id2
  /\ (forall id c, timers s2 !! id = Some (c, X) <-> id = id2 /\ c = cb2)
  /\ (forall es' s3, steps s2 es' s3 -> forall label, (id1, label) ∉ ran s3)
  /\ (forall es' s3, steps s2 es' s3 -> at_most_one_per_tag s3)
  /\ at_most_one_per_tag s /\ at_most_one_per_tag s1 /\ at_most_one_per_tag s2.
Proof.
  intros Hreach HX s1 id1 s2 id2.
  destruct (reachable_inv es s Hreach) as [Hs Hran].
  assert (Hs1 : inv s1) by (by apply inv_scheduleDelayed).
  assert (Hs2 : inv s2) by (by apply inv_scheduleDelayed).
  destruct (cancelByTag_fields s X) as (Hn & Hr & _).
  assert (Hid1 : id1 = next_handle s).
  { subst id1. unfold scheduleDelayed. rewrite HX. simpl. exact Hn. }
  assert (Ht1 : timers s1 !! id1 = Some (cb, X)).
  { subst s1 id1. unfold scheduleDelayed. rewrite HX. simpl. apply lookup_insert_eq. }
  assert (Hm1 : tasksByTag s1 !! X = Some id1) by (by apply Hs1 in Ht1).
  assert (Hn1 : next_handle s1 = S id1).
  { rewrite Hid1. subst s1. unfold scheduleDelayed. rewrite HX. simpl. by rewrite Hn. }
  assert (Hr1 : ran s1 = ran s).
  { subst s1. unfold scheduleDelayed. rewrite HX. simpl. exact Hr. }
  assert (Hc : fst (cancelByTag s1 X)
               = {| tasksByTag := delete X (tasksByTag s1);
                    timers := delete id1 (timers s1);
                    next_handle := next_handle s1; ran := ran s1 |}).
  { unfold cancelByTag. by rewrite Hm1. }
  assert (Hid2 : id2 = S id1).
  { subst id2. unfold scheduleDelayed. rewrite HX, Hc. simpl. exact Hn1. }
  assert (Ht2 : timers s2 = <[S id1 := (cb2, X)]> (delete id1 (timers s1))).
  { subst s2. unfold scheduleDelayed. rewrite HX, Hc. simpl. by rewrite Hn1. }
  assert (Hm2 : tasksByTag s2 !! X = Some id2).
  { rewrite Hid2. subst s2. unfold scheduleDelayed. rewrite HX, Hc. simpl.
    rewrite Hn1. apply lookup_insert_eq. }
  assert (Hgone : timers s2 !! id1 = None).
  { rewrite Ht2, lookup_insert_ne by lia. apply lookup_delete_eq. }
  assert (Hdead : dead id1 s2).
  { repeat split; [exact Hgone | |].
    - subst s2. unfold scheduleDelayed. rewrite HX, Hc. simpl. lia.
    - intros label Hin.
      assert (Hr2 : ran s2 = ran s1).
      { subst s2. unfold scheduleDelayed. rewrite HX, Hc. reflexivity. }
      rewrite Hr2, Hr1 in Hin. apply Hran in Hin. lia. }
  split; [exact Ht1 |]. split; [exact Hgone |]. split; [exact Hm2 |].
  split; [| split; [| split; [| repeat split; by apply inv_at_most_one]]].
  - intros id c. split.
    + intros Hid. pose proof Hid as Hid'. apply Hs2 in Hid'; [| done].
      assert (id = id2) as -> by congruence. split; [done |].
      rewrite Ht2, Hid2, lookup_insert_eq in Hid. congruence.
    + intros [-> ->]. rewrite Ht2, Hid2. apply lookup_insert_eq.
  - intros es' s3 Hsteps. by apply (dead_steps id1 s2 s3 es' Hsteps Hdead).
  - intros es' s3 Hsteps. apply inv_at_most_one. by eapply inv_steps.
Qed.

(** The warp command of the core script, issued twice in a row on a fresh
    scheduler, the second timer then firing. *)
Lemma rescheduling_replaces_the_task_witness :
  let s1 := fst (scheduleDelayed new (Callback 1 []) 1500 "warp") in
  let s2 := fst (scheduleDelayed s1 (Callback 2 []) 1500 "warp") in
  timers s2 !! 0 = None
  /\ timers s2 !! 1 = Some (Callback 2 [], "warp"%string)
  /\ (forall s3, steps s2 [Fire 1] s3 -> forall label, (0, label) ∉ ran s3).
Proof.
  destruct (rescheduling_replaces_the_task [] new (Callback 1 []) (Callback 2 []) 1500 1500
              "warp" (steps_nil new) eq_refl)
    as (_ & Hgone & _ & Honly & Hnever & _).
  split; [exact Hgone |]. split; [by apply Honly |].
  intros s3 Hsteps. exact (Hnever _ _ Hsteps).
Defined.

End Scheduler.

(** ** The command registry (spec 4.D) *)

Section Tokens.
Import Js CommandRegistry.
Local Open Scope Z_scope.










End Tokens.

Section Commands.
Import Js CommandRegistry.
Local Open Scope Z_scope.

Variable toLowerCase : jsstring -> jsstring.












(** With a lower-casing that leaves the units of [[a-z0-9_-]] alone, as the
    builtin does, [get] looks a command name up as it is. *)
Lemma trimStart_name (s : jsstring) :
  forallb is_name_unit s = true -> trimStart s = s.
Proof.
  destruct s as [|c s]; simpl; [done |]. intros H.
  apply andb_true_iff in H as [Hc _].
  assert (is_space c = false) as ->; [| done].
  unfold is_name_unit, is_space in *. lia.
Qed.

Lemma get_command_name (r : t) (name : jsstring) :
  (forall s, forallb is_name_unit s = true -> toLowerCase s = s) ->
  forallb is_name_unit name = true ->
  get toLowerCase r name = commands r !! name.
Proof.
  intros Hlower Hname. unfold get, key_of, trim, trimEnd.
  rewrite (trimStart_name name Hname).
  assert (Hrev : forallb is_name_unit (rev name) = true).
  { rewrite forallb_forall in *. intros c Hc. apply Hname. by apply in_rev. }
  rewrite (trimStart_name _ Hrev), rev_involutive. by rewrite Hlower.
Qed.

Lemma leading_run_name (s : jsstring) : forallb is_name_unit (leading_run s) = true.
Proof.
  induction s as [|c s IH]; simpl; [done |].
  destruct (is_name_unit c) eqn:E; [| done]. simpl. by rewrite E.
Qed.

End Commands.

Section CommandExamples.
Import Js CommandRegistry.
Local Open Scope Z_scope.

(** [toLowerCase] on ASCII text: the builtin agrees with it on the texts
    below. *)
Definition ascii_lower (s : jsstring) : jsstring :=
  map (fun c => if (65 <=? c) && (c <=? 90) then c + 32 else c) s.

Definition warp_registry (h : invocation -> outcome) : t :=
  register ascii_lower (CommandRegistry.new (lit "/")) (lit "warp")
    (lit "Warp to a world.") h.



End CommandExamples.

(** ** The inline handoff (spec 4.I) *)

Section HandoffClaim.
Import Js Num Packet ProxyCore.
Local Open Scope Z_scope.

(** The route text before its first ['|'], and from that ['|'] on. *)
Fixpoint before_bar (s : jsstring) : jsstring :=
  match s with
  | c :: s' => if c =? TextParse.BAR then [] else c :: before_bar s'
  | [] => []
  end.

Fixpoint from_bar (s : jsstring) : jsstring :=
  match s with
  | c :: s' => if c =? TextParse.BAR then s else from_bar s'
  | [] => []
  end.

(** The event bus with no subscriber. *)
Definition no_subscribers (parsed : parsed_packet) (raw : Buffer) : Buffer * bool :=
  (raw, false).

(** Both peers are connected: the situation in which the transport hands a
    server frame to [handleClientBoundPacket]. *)
Definition relaying (st : state) : Prop :=
  is_Some (clientPeer st) /\ is_Some (serverPeer st).

(** [frame] is the tank [t] rebuilt around the extra buffer [extra'], with
    the trailing NUL of [rawData] kept if it had one. *)
Definition rebuilt_with (t : tank_packet) (rawData extra' frame : Buffer) : Prop :=
  exists tank,
    buildTankPacket (Some (header t)) CALL_FUNCTION (netId t) (targetNetId t)
      (Packet.state t) (info t) extra' = Some tank
    /\ frame = if (0 <? blen rawData) && (readUInt8 rawData (blen rawData - 1) =? 0)
               then ensureNullTerminator tank else tank.

(** The claim of the specification, for a relaying proxy without script
    subscribers. *)
Definition handoff_claim (StringToNumber : jsstring -> number) (cfg : config)
    (upstream_connect : jsstring -> number -> bool) (st : state) (rawData : Buffer)
  : Prop :=
  forall t args route,
    parsePacket rawData = Tank t ->
    packetId t = OnSendToServer ->
    variantArgs t = Some args ->
    (5 <= length args)%nat ->
    array_get args 4 = VStr route ->
    exists st' frame extra',
      handleClientBoundPacket StringToNumber cfg upstream_connect no_subscribers
        st 0 rawData = Some (st', Some frame)
      /\ pendingAddress st' = before_bar route
      /\ pendingPort st' = or_zero (ToNumber StringToNumber (array_get args 1))
      /\ rebuilt_with t rawData extra' frame
      /\ array_get (parseVariantArgs extra') 1 = VNum (of_Z (server_port cfg))
      /\ array_get (parseVariantArgs extra') 4 = VStr (LOCALHOST ++ from_bar route).

(** No text is converted to a number in the frames below: any function
    can stand for StringToNumber there. *)
Definition no_numeric_text (s : jsstring) : number := NaN.

(** A frame from the server: a CALL_FUNCTION tank around [extra], NUL
    terminated. *)
Definition server_frame (extra : Buffer) : Buffer :=
  match buildTankPacket None CALL_FUNCTION (-1) 0 8 0 extra with
  | Some tank => tank ++ [0]
  | None => []
  end.

Definition relaying_state : state :=
  {| pendingAddress := []; pendingPort := of_Z 65535; clientPeer := Some 0;
     serverPeer := Some 0; world := WorldState.new; proxyClientListening := true;
     upstreamRetryTimer := false; upstreamRetryCount := 0 |}.

Definition default_config : config :=
  {| server_port := 16999; web_ignoreMaintenance := true |}.

(** An OnSendToServer call that carries only the entries 0 (the function
    name) and 4 (the route): its argument array has length 5 and a string
    route, and no port entry. *)
Definition extra_without_port : Buffer :=
  [2; 0; STRING; 14; 0; 0; 0] ++ lit "OnSendToServer"
  ++ [4; STRING; 17; 0; 0; 0] ++ lit "5.6.7.8|door|uuid".

(** The same call with the port entry given twice. *)
Definition extra_with_two_ports : Buffer :=
  [4; 0; STRING; 14; 0; 0; 0] ++ lit "OnSendToServer"
  ++ [1; UNSIGNED; 104; 66; 0; 0] ++ [1; UNSIGNED; 105; 66; 0; 0]
  ++ [4; STRING; 17; 0; 0; 0] ++ lit "5.6.7.8|door|uuid".

End HandoffClaim.


(** *** Reading inside a slice *)

Section Slices.
Import Js Num Packet.
Local Open Scope Z_scope.

Lemma readUInt8_lookup (b : Buffer) (k : nat) :
  readUInt8 b (Z.of_nat k) = default 0 (b !! k).
Proof. unfold readUInt8. rewrite Nat2Z.id. apply nth_lookup. Qed.

Lemma readUInt8_drop (b : Buffer) (p k : Z) :
  0 <= p -> 0 <= k -> readUInt8 b (p + k) = readUInt8 (drop (Z.to_nat p) b) k.
Proof.
  intros Hp Hk. unfold readUInt8. rewrite !nth_lookup, lookup_drop.
  do 2 f_equal. lia.
Qed.

Lemma readUInt32LE_drop (b : Buffer) (p k : Z) :
  0 <= p -> 0 <= k -> readUInt32LE b (p + k) = readUInt32LE (drop (Z.to_nat p) b) k.
Proof.
  intros Hp Hk. unfold readUInt32LE.
  rewrite <- !Z.add_assoc, !readUInt8_drop by lia. reflexivity.
Qed.

Lemma blen_drop (b : Buffer) (p : Z) :
  0 <= p <= blen b -> blen (drop (Z.to_nat p) b) = blen b - p.
Proof. intros Hp. unfold blen in *. rewrite length_drop. lia. Qed.

Lemma subarray_drop (b : Buffer) (p from to : Z) :
  0 <= p -> 0 <= from ->
  subarray b (p + from) (p + to) = subarray (drop (Z.to_nat p) b) from to.
Proof.
  intros Hp Hf. unfold subarray. rewrite drop_drop. f_equal; [lia |].
  f_equal. lia.
Qed.

Lemma readUInt8_take (l post : Buffer) (n k : Z) :
  0 <= k < n -> n <= blen l -> readUInt8 (take (Z.to_nat n) l ++ post) k = readUInt8 l k.
Proof.
  intros Hk Hn. unfold readUInt8, blen in *. rewrite !nth_lookup.
  rewrite lookup_app_l by (rewrite length_take; lia).
  rewrite lookup_take_lt by lia. reflexivity.
Qed.

Lemma readUInt32LE_take (l post : Buffer) (n k : Z) :
  0 <= k -> k + 4 <= n -> n <= blen l ->
  readUInt32LE (take (Z.to_nat n) l ++ post) k = readUInt32LE l k.
Proof.
  intros Hk Hkn Hn. unfold readUInt32LE. rewrite !readUInt8_take by lia. reflexivity.
Qed.

Lemma subarray_take (l post : Buffer) (n from to : Z) :
  0 <= from -> to <= n -> n <= blen l ->
  subarray (take (Z.to_nat n) l ++ post) from to = subarray l from to.
Proof.
  intros Hf Ht Hn. unfold subarray, blen in *.
  destruct (Z.le_gt_cases to from) as [Hle|Hgt].
  { replace (Z.to_nat (to - from)) with 0%nat by lia. reflexivity. }
  rewrite drop_app_le by (rewrite length_take; lia).
  rewrite take_app_le by (rewrite length_drop, length_take; lia).
  replace (Z.to_nat n) with (Z.to_nat from + (Z.to_nat n - Z.to_nat from))%nat by lia.
  rewrite <- take_drop_commute, take_take. f_equal. lia.
Qed.

Lemma readUInt8_byte (b : Buffer) (pos : Z) : Forall is_byte b -> is_byte (readUInt8 b pos).
Proof.
  intros Hb. unfold readUInt8.
  destruct (Nat.lt_ge_cases (Z.to_nat pos) (length b)) as [Hlt|Hge].
  - rewrite List.Forall_forall in Hb. apply Hb. by apply nth_In.
  - rewrite nth_overflow by exact Hge. unfold is_byte. lia.
Qed.

Lemma readUInt32LE_range (b : Buffer) (pos : Z) :
  Forall is_byte b -> 0 <= readUInt32LE b pos < 2 ^ 32.
Proof.
  intros Hb. unfold readUInt32LE.
  pose proof (readUInt8_byte b pos Hb). pose proof (readUInt8_byte b (pos + 1) Hb).
  pose proof (readUInt8_byte b (pos + 2) Hb). pose proof (readUInt8_byte b (pos + 3) Hb).
  unfold is_byte in *. lia.
Qed.

End Slices.

(** *** Which entry an argument slot holds *)

Section Slots.
Import Js Num Packet.
Local Open Scope Z_scope.

(** The assignment [args[entry.index] = entry.value] of [parseVariantArgs]. *)
Definition store (args : jsarray) (entry : ventry) : jsarray :=
  array_set args (Z.to_nat (entry_index entry)) (entry_value entry).

(** The value the slot [k] ends with after the entries [es] are stored in
    turn: that of the last entry of that index. *)
Fixpoint slot_value (k : nat) (es : list ventry) (d : jsval) : jsval :=
  match es with
  | [] => d
  | e :: rest =>
      slot_value k rest (if (Z.to_nat (entry_index e) =? k)%nat then entry_value e else d)
  end.

(** Exactly one entry of [es] has the index [i]. *)
Definition carried_once (i : Z) (es : list ventry) : Prop :=
  length (List.filter (fun e => entry_index e =? i) es) = 1%nat.

Definition keeps_index (f : ventry -> ventry) : Prop :=
  forall e, entry_index (f e) = entry_index e.

Lemma parseVariantArgs_store (b : Buffer) (parsed : vparsed) :
  parseVariantEntries b = Some parsed ->
  parseVariantArgs b = fold_left store (entries parsed) [].
Proof. intros H. unfold parseVariantArgs. rewrite H. reflexivity. Qed.

Lemma array_get_set (a : jsarray) (i k : nat) (v : jsval) :
  array_get (array_set a i v) k = if (i =? k)%nat then v else array_get a k.
Proof.
  unfold array_get, array_set, jsarray in *.
  destruct (Nat.ltb_spec i (length a)) as [Hlt|Hge];
    destruct (Nat.eqb_spec i k) as [->|Hne].
  - rewrite list_lookup_insert_eq by exact Hlt. reflexivity.
  - rewrite list_lookup_insert_ne by exact Hne. reflexivity.
  - rewrite lookup_app_r by exact Hge.
    rewrite lookup_app_r by (rewrite length_replicate; lia).
    rewrite length_replicate. replace (k - length a - (k - length a))%nat with 0%nat by lia.
    reflexivity.
  - destruct (Nat.lt_ge_cases k (length a)) as [Hk|Hk].
    + rewrite lookup_app_l by exact Hk. reflexivity.
    + rewrite lookup_app_r by exact Hk.
      rewrite (lookup_ge_None_2 a k) by exact Hk.
      destruct (Nat.lt_ge_cases (k - length a) (i - length a)) as [Hr|Hr].
      * rewrite lookup_app_l by (rewrite length_replicate; exact Hr).
        rewrite lookup_replicate_2 by exact Hr. reflexivity.
      * rewrite lookup_app_r by (rewrite length_replicate; exact Hr).
        rewrite length_replicate.
        destruct (k - length a - (i - length a))%nat as [|[|n]] eqn:E; [lia | |]; reflexivity.
Qed.

Lemma array_get_fold (es : list ventry) (acc : jsarray) (k : nat) :
  array_get (fold_left store es acc) k = slot_value k es (array_get acc k).
Proof.
  revert acc. induction es as [|e es IH]; intros acc; [reflexivity |].
  cbn [fold_left slot_value]. rewrite IH. unfold store.
  rewrite array_get_set. reflexivity.
Qed.

Lemma slot_value_absent (k : nat) (es : list ventry) (d : jsval) :
  Forall (fun e => Z.to_nat (entry_index e) <> k) es -> slot_value k es d = d.
Proof.
  revert d. induction es as [|e es IH]; intros d H; [reflexivity |].
  apply Forall_cons in H as [He H]. cbn [slot_value].
  destruct (Nat.eqb_spec (Z.to_nat (entry_index e)) k); [contradiction | by apply IH].
Qed.

Lemma update_index_same (i : Z) (es : list ventry) :
  update_index i (fun e => e) es = es.
Proof.
  induction es as [|e es IH]; [reflexivity |]. cbn [update_index].
  destruct (entry_index e =? i); [reflexivity | by rewrite IH].
Qed.

Lemma update_index_length (i : Z) (f : ventry -> ventry) (es : list ventry) :
  length (update_index i f es) = length es.
Proof.
  induction es as [|e es IH]; [reflexivity |]. cbn [update_index].
  destruct (entry_index e =? i); cbn [length]; [reflexivity | by rewrite IH].
Qed.

Lemma update_index_indices (i : Z) (f : ventry -> ventry) (es : list ventry) :
  keeps_index f ->
  map entry_index (update_index i f es) = map entry_index es.
Proof.
  intros Hf. induction es as [|e es IH]; [reflexivity |]. cbn [update_index].
  destruct (entry_index e =? i); cbn [map]; [by rewrite Hf | by rewrite IH].
Qed.

Lemma update_index_Forall (P : ventry -> Prop) (i : Z) (f : ventry -> ventry)
    (es : list ventry) :
  (forall e, P e -> entry_index e = i -> P (f e)) ->
  Forall P es -> Forall P (update_index i f es).
Proof.
  intros Hf. induction 1 as [|e es He Hes IH]; [constructor |]. cbn [update_index].
  destruct (Z.eqb_spec (entry_index e) i); constructor; auto.
Qed.

Lemma slot_value_other (k : nat) (j : Z) (g : ventry -> ventry) (es : list ventry)
    (d : jsval) :
  keeps_index g -> Z.to_nat j <> k ->
  slot_value k (update_index j g es) d = slot_value k es d.
Proof.
  intros Hg Hj. revert d. induction es as [|e es IH]; intros d; [reflexivity |].
  cbn [update_index]. destruct (Z.eqb_spec (entry_index e) j) as [He|He].
  - cbn [slot_value]. rewrite Hg, He.
    destruct (Nat.eqb_spec (Z.to_nat j) k); [contradiction | reflexivity].
  - cbn [slot_value]. apply IH.
Qed.

Lemma find_index_other (i j : Z) (g : ventry -> ventry) (es : list ventry) :
  keeps_index g -> i <> j ->
  find_index i (update_index j g es) = find_index i es.
Proof.
  intros Hg Hij. unfold find_index. induction es as [|e es IH]; [reflexivity |].
  cbn [update_index]. destruct (Z.eqb_spec (entry_index e) j) as [He|He].
  - cbn [find]. rewrite Hg, He.
    destruct (Z.eqb_spec j i); [congruence | reflexivity].
  - cbn [find]. destruct (entry_index e =? i); [reflexivity | exact IH].
Qed.

Lemma carried_once_update (i j : Z) (g : ventry -> ventry) (es : list ventry) :
  keeps_index g -> carried_once i es -> carried_once i (update_index j g es).
Proof.
  intros Hg. unfold carried_once. intros H. rewrite <- H. clear H.
  induction es as [|e es IH]; [reflexivity |]. cbn [update_index].
  destruct (entry_index e =? j).
  - cbn [List.filter]. rewrite Hg. by destruct (entry_index e =? i).
  - cbn [List.filter]. destruct (entry_index e =? i); cbn [length]; by rewrite IH.
Qed.

End Slots.

(** *** Entries as self-contained chunks *)

Section Chunks.
Import Js Num Packet.
Local Open Scope Z_scope.

(** The bytes [chunk] are one entry: wherever they stand in a buffer, the
    loop body reads index, type tag and value from them and moves past
    them. *)
Definition reads_back (chunk : Buffer) (idx ty : Z) (v : jsval) : Prop :=
  2 <= blen chunk
  /\ forall pre post,
       readUInt8 (pre ++ chunk ++ post) (blen pre) = idx
       /\ readUInt8 (pre ++ chunk ++ post) (blen pre + 1) = ty
       /\ parse_payload (pre ++ chunk ++ post) ty (blen pre + 2)
          = Some (v, blen pre + blen chunk).

Definition chunked (e : ventry) : Prop :=
  is_byte (entry_index e)
  /\ exists chunk ty,
       entry_encoded e = Some chunk
       /\ reads_back chunk (entry_index e) ty (entry_value e).

(** A string value comes from a STRING entry. *)
Definition typed (e : ventry) : Prop :=
  forall s, entry_value e = VStr s -> entry_type e = STRING.

Definition same_slot (e e' : ventry) : Prop :=
  entry_index e' = entry_index e /\ entry_value e' = entry_value e.

Definition shift (q : Z) (r : option (jsval * Z)) : option (jsval * Z) :=
  match r with Some (v, n) => Some (v, q + n) | None => None end.

Lemma ltb_shift (a b q : Z) : (a - q <? b) = (a <? q + b).
Proof. destruct (Z.ltb_spec (a - q) b), (Z.ltb_spec a (q + b)); lia || reflexivity. Qed.

Lemma readFloatLE_drop (b : Buffer) (q k : Z) :
  0 <= q -> 0 <= k -> readFloatLE b (q + k) = readFloatLE (drop (Z.to_nat q) b) k.
Proof. intros. unfold readFloatLE. by rewrite readUInt32LE_drop. Qed.

Lemma readInt32LE_drop (b : Buffer) (q k : Z) :
  0 <= q -> 0 <= k -> readInt32LE b (q + k) = readInt32LE (drop (Z.to_nat q) b) k.
Proof. intros. unfold readInt32LE. by rewrite readUInt32LE_drop. Qed.

Lemma parse_payload_drop (b : Buffer) (ty q p : Z) :
  0 <= q <= blen b -> 0 <= p ->
  parse_payload b ty (q + p) = shift q (parse_payload (drop (Z.to_nat q) b) ty p).
Proof.
  intros Hq Hp. unfold parse_payload. rewrite blen_drop by exact Hq.
  rewrite !ltb_shift, <- !Z.add_assoc.
  rewrite !readFloatLE_drop, !readInt32LE_drop, !readUInt32LE_drop by lia.
  set (l := drop (Z.to_nat q) b).
  repeat match goal with
         | |- context [if ?c then _ else _] => destruct c
         end; cbn [shift]; try reflexivity.
  subst l. rewrite <- subarray_drop by lia. reflexivity.
Qed.

Lemma blen_take_app (l post : Buffer) (n : Z) :
  0 <= n <= blen l -> blen (take (Z.to_nat n) l ++ post) = n + blen post.
Proof. intros Hn. unfold blen in *. rewrite length_app, length_take. lia. Qed.

Lemma readFloatLE_take (l post : Buffer) (n k : Z) :
  0 <= k -> k + 4 <= n -> n <= blen l ->
  readFloatLE (take (Z.to_nat n) l ++ post) k = readFloatLE l k.
Proof. intros. unfold readFloatLE. by rewrite readUInt32LE_take. Qed.

Lemma readInt32LE_take (l post : Buffer) (n k : Z) :
  0 <= k -> k + 4 <= n -> n <= blen l ->
  readInt32LE (take (Z.to_nat n) l ++ post) k = readInt32LE l k.
Proof. intros. unfold readInt32LE. by rewrite readUInt32LE_take. Qed.

(** What an entry's payload decodes to depends on the entry's bytes only. *)
Lemma parse_payload_take (l post : Buffer) (ty p : Z) (v : jsval) (n : Z) :
  Forall is_byte l -> 0 <= p ->
  parse_payload l ty p = Some (v, n) ->
  p + 4 <= n <= blen l
  /\ parse_payload (take (Z.to_nat n) l ++ post) ty p = Some (v, n).
Proof.
  intros Hb Hp H. pose proof (readUInt32LE_range l p Hb) as Hlen.
  pose proof (blen_nonneg post) as Hpost.
  unfold parse_payload in H. cbv zeta in H.
  repeat match type of H with
         | context [if ?c =? ?d then _ else _] => destruct (Z.eqb_spec c d) as [->|?]
         | context [if ?c <? ?d then _ else _] => destruct (Z.ltb_spec c d)
         end; try discriminate; injection H as <- <-; (split; [lia |]);
    rewrite ?parse_payload_FLOAT, ?parse_payload_string, ?parse_payload_VEC2,
      ?parse_payload_VEC3, ?parse_payload_UNSIGNED, ?parse_payload_SIGNED;
    rewrite blen_take_app by lia;
    rewrite ?readFloatLE_take, ?readInt32LE_take, ?readUInt32LE_take by lia;
    repeat match goal with
           | |- context [if ?c <? ?d then _ else _] =>
               destruct (Z.ltb_spec c d); [lia |]
           end;
    rewrite ?subarray_take by lia; reflexivity.
Qed.

Lemma parse_payload_string_type (b : Buffer) (ty p : Z) (s : jsstring) (n : Z) :
  parse_payload b ty p = Some (VStr s, n) -> ty = STRING.
Proof.
  unfold parse_payload.
  repeat match goal with
         | |- context [if ?c =? ?d then _ else _] => destruct (Z.eqb_spec c d)
         | |- context [if ?c <? ?d then _ else _] => destruct (c <? d)
         end; try discriminate; auto.
Qed.

Lemma blen_subarray (b : Buffer) (from to : Z) :
  0 <= from <= to -> to <= blen b -> blen (subarray b from to) = to - from.
Proof. unfold subarray, blen. rewrite length_take, length_drop. lia. Qed.

Lemma drop_blen_app (pre rest : Buffer) :
  drop (Z.to_nat (blen pre)) (pre ++ rest) = rest.
Proof. unfold blen. rewrite Nat2Z.id. apply drop_app_length. Qed.

(** One iteration of the decoder reads a self-contained chunk. *)
Lemma entry_local (b : Buffer) (pos : Z) (v : jsval) (next : Z) :
  Forall is_byte b -> 0 <= pos -> pos + 2 <= blen b ->
  parse_payload b (readUInt8 b (pos + 1)) (pos + 2) = Some (v, next) ->
  pos + 6 <= next <= blen b
  /\ reads_back (subarray b pos next) (readUInt8 b pos) (readUInt8 b (pos + 1)) v.
Proof.
  intros Hb Hpos Hlen H.
  set (l := drop (Z.to_nat pos) b).
  assert (Hl : Forall is_byte l) by (apply Forall_drop; exact Hb).
  assert (Hbl : blen l = blen b - pos) by (apply blen_drop; lia).
  rewrite (parse_payload_drop b _ pos 2) in H by lia. fold l in H.
  destruct (parse_payload l _ 2) as [[v' n]|] eqn:E; [| discriminate].
  cbn [shift] in H. injection H as -> <-.
  destruct (parse_payload_take l [] _ 2 v n Hl ltac:(lia) E) as [Hn _].
  split; [lia |].
  assert (Hchunk : subarray b pos (pos + n) = take (Z.to_nat n) l).
  { unfold subarray. f_equal. lia. }
  rewrite Hchunk. split.
  { unfold blen in *. rewrite length_take. lia. }
  intros pre post. pose proof (blen_nonneg pre) as Hpre.
  assert (Hin : blen pre <= blen (pre ++ take (Z.to_nat n) l ++ post))
    by (rewrite blen_app; pose proof (blen_nonneg (take (Z.to_nat n) l ++ post)); lia).
  split; [| split].
  - replace (blen pre) with (blen pre + 0) by lia.
    rewrite readUInt8_drop, drop_blen_app, readUInt8_take by lia.
    unfold l. rewrite <- readUInt8_drop by lia. f_equal. lia.
  - rewrite readUInt8_drop, drop_blen_app, readUInt8_take by lia.
    unfold l. rewrite <- readUInt8_drop by lia. reflexivity.
  - rewrite parse_payload_drop, drop_blen_app by lia.
    destruct (parse_payload_take l post _ 2 v n Hl ltac:(lia) E) as [_ ->].
    cbn [shift]. do 3 f_equal. unfold blen in *. rewrite length_take. lia.
Qed.

Lemma parse_loop_chunked (b : Buffer) (n : nat) (pos : Z) (acc out : list ventry) :
  Forall is_byte b -> 0 <= pos ->
  parse_loop b n pos acc = Some out ->
  exists es, out = acc ++ es /\ length es = n /\ Forall chunked es /\ Forall typed es.
Proof.
  intros Hb. revert pos acc. induction n as [|n IH]; intros pos acc Hpos H.
  - injection H as <-. exists []. rewrite app_nil_r. repeat split; constructor.
  - cbn [parse_loop] in H. destruct (Z.ltb_spec (blen b) (pos + 2)); [discriminate |].
    destruct (parse_payload b _ (pos + 2)) as [[v next]|] eqn:E; [| discriminate].
    destruct (entry_local b pos v next Hb Hpos ltac:(lia) E) as [Hn Hrb].
    apply IH in H as (es & -> & Hlen & Hch & Hty); [| lia].
    eexists (_ :: es). rewrite <- app_assoc.
    split; [reflexivity |]. split; [cbn [length]; lia |].
    split; constructor; auto.
    + split; [apply readUInt8_byte; exact Hb |].
      eexists _, _. split; [reflexivity | exact Hrb].
    + intros s Hs. cbn in Hs. subst v. cbn. eapply parse_payload_string_type, E.
Qed.

Lemma fold_same_slot (es es' : list ventry) (acc : jsarray) :
  Forall2 same_slot es es' -> fold_left store es' acc = fold_left store es acc.
Proof.
  intros H. revert acc. induction H as [|e e' es es' [Hi Hv] _ IH]; intros acc;
    [reflexivity |].
  cbn [fold_left]. rewrite IH. unfold store. by rewrite Hi, Hv.
Qed.

Lemma filter_none (p : ventry -> bool) (es : list ventry) :
  length (List.filter p es) = 0%nat -> Forall (fun e => p e = false) es.
Proof.
  induction es as [|e es IH]; [constructor |]. cbn [List.filter].
  destruct (p e) eqn:E; [discriminate |]. intros H. constructor; auto.
Qed.

(** With a single entry of index [i], that entry is the one [find] returns
    and the one whose value ends in slot [i]. *)
Lemma slot_value_carried (i : Z) (f : ventry -> ventry) (es : list ventry) (d : jsval) :
  0 <= i -> Forall (fun e => 0 <= entry_index e) es ->
  carried_once i es -> keeps_index f ->
  exists e0,
    find_index i es = Some e0 /\ entry_index e0 = i /\ In e0 es
    /\ slot_value (Z.to_nat i) (update_index i f es) d = entry_value (f e0).
Proof.
  intros Hi Hnn Hone Hf. revert d. unfold carried_once, find_index in *.
  induction Hnn as [|e es He Hes IH]; intros d; [discriminate |].
  cbn [List.filter find update_index] in *.
  destruct (Z.eqb_spec (entry_index e) i) as [Heq|Hne].
  - exists e. repeat split; [exact Heq | by left |].
    cbn [slot_value length] in *. rewrite Hf, Heq, Nat.eqb_refl.
    apply slot_value_absent. injection Hone as Hone. apply filter_none in Hone.
    rewrite List.Forall_forall in *. intros x Hx.
    specialize (Hes x Hx). specialize (Hone x Hx). cbn in Hone.
    apply Z.eqb_neq in Hone. lia.
  - destruct (IH Hone (if (Z.to_nat (entry_index e) =? Z.to_nat i)%nat
                       then entry_value e else d)) as (e0 & Hfind & Hidx & Hin & Hslot).
    exists e0. repeat split; auto. by right.
Qed.

End Chunks.

(** *** Re-encoding and decoding again *)

Section Reencoding.
Import Js Num Packet.
Local Open Scope Z_scope.
Variable StringToNumber : jsstring -> number.

Ltac blen_eq :=
  rewrite ?blen_app, ?blen_cons, ?blen_le32; unfold blen; simpl length; lia.

(** Entries that carry their own bytes are written out as they are, and
    the decoder finds in the result an entry of the same index and value
    for each of them. *)
Lemma reparse_chunks (es : list ventry) :
  Forall chunked es ->
  exists body,
    encode_entries_loop StringToNumber es = Some body
    /\ forall pre post acc,
         exists es',
           parse_loop (pre ++ body ++ post) (length es) (blen pre) acc = Some (acc ++ es')
           /\ Forall2 same_slot es es'.
Proof.
  induction 1 as [|e es [Hbyte (chunk & ty & Henc & Hlen & Hrb)] _ IH].
  - exists []. split; [reflexivity |]. intros pre post acc. exists [].
    split; [cbn; by rewrite app_nil_r | constructor].
  - destruct IH as (tail & Htail & Hloop). exists (chunk ++ tail). split.
    { cbn [encode_entries_loop]. by rewrite Henc, Htail. }
    intros pre post acc.
    destruct (Hrb pre (tail ++ post)) as (Hi & Ht & Hp).
    set (b := pre ++ chunk ++ tail ++ post) in *.
    set (e1 := {| entry_index := entry_index e; entry_type := ty;
                  entry_value := entry_value e;
                  entry_encoded := Some (subarray b (blen pre) (blen pre + blen chunk)) |}).
    destruct (Hloop (pre ++ chunk) post (acc ++ [e1])) as (es' & Hes' & Hsame).
    exists (e1 :: es'). split; [| constructor; [by split | exact Hsame]].
    rewrite <- (app_assoc chunk). fold b.
    rewrite <- (app_assoc pre), blen_app in Hes'. fold b in Hes'.
    cbn [length parse_loop].
    destruct (Z.ltb_spec (blen b) (blen pre + 2)) as [Hshort|_].
    { unfold b in Hshort. rewrite !blen_app in Hshort.
      pose proof (blen_nonneg tail). pose proof (blen_nonneg post). lia. }
    rewrite Ht, Hp, Hi. fold e1. rewrite Hes', <- app_assoc. reflexivity.
Qed.

Lemma land_byte (v : Z) : is_byte v -> Z.land v 255 = v.
Proof.
  intros Hv. change 255 with (Z.ones 8). rewrite Z.land_ones by lia.
  apply Z.mod_small. exact Hv.
Qed.

Lemma or_zero_port (p : Z) : 1 <= p -> or_zero (of_Z p) = of_Z p.
Proof.
  intros Hp. unfold or_zero, of_Z, truthy.
  destruct (N.eqb_spec (Z.to_N (Z.abs p)) 0) as [E|_]; [lia | reflexivity].
Qed.

(** The port entry as the rewrite builds it. *)
Lemma port_entry_chunked (idx ty p : Z) :
  is_byte idx -> 1 <= p <= 65535 ->
  let portType := if (ty =? SIGNED) || (ty =? UNSIGNED) then ty else UNSIGNED in
  exists chunk,
    buildVariantEntry StringToNumber idx portType (VNum (or_zero (of_Z p))) = Some chunk
    /\ reads_back chunk idx portType (VNum (or_zero (of_Z p))).
Proof.
  intros Hidx Hp portType. rewrite or_zero_port by lia.
  assert (Hty : portType = SIGNED \/ portType = UNSIGNED).
  { unfold portType. destruct (Z.eqb_spec ty SIGNED); [by left |].
    destruct (Z.eqb_spec ty UNSIGNED); by right. }
  assert (Hu : toUint32 (of_Z p) = p).
  { unfold toUint32. rewrite trunc_of_Z. apply Z.mod_small. lia. }
  assert (Hs : toInt32 (of_Z p) = p).
  { unfold toInt32. rewrite Hu. destruct (Z.ltb_spec p (2 ^ 31)); lia. }
  destruct Hty as [-> | ->].
  - exists (idx :: SIGNED :: writeInt32LE p). split.
    { unfold buildVariantEntry. cbn [ToNumber Z.eqb SIGNED STRING UNSIGNED Pos.eqb].
      rewrite Hs, land_byte by exact Hidx. reflexivity. }
    split; [unfold writeInt32LE; blen_eq |]. intros pre post.
    cbn [app]. split; [| split].
    + by apply readUInt8_at.
    + change (pre ++ idx :: SIGNED :: writeInt32LE p ++ post)
        with (pre ++ [idx] ++ SIGNED :: writeInt32LE p ++ post).
      rewrite app_assoc. apply readUInt8_at. blen_eq.
    + rewrite parse_signed_entry by lia. do 2 f_equal. unfold writeInt32LE. blen_eq.
  - exists (idx :: UNSIGNED :: writeUInt32LE p). split.
    { unfold buildVariantEntry. cbn [ToNumber Z.eqb SIGNED STRING UNSIGNED Pos.eqb].
      rewrite Hu, land_byte by exact Hidx. reflexivity. }
    split; [unfold writeUInt32LE; blen_eq |]. intros pre post.
    cbn [app]. split; [| split].
    + by apply readUInt8_at.
    + change (pre ++ idx :: UNSIGNED :: writeUInt32LE p ++ post)
        with (pre ++ [idx] ++ UNSIGNED :: writeUInt32LE p ++ post).
      rewrite app_assoc. apply readUInt8_at. blen_eq.
    + rewrite parse_unsigned_entry by lia. do 2 f_equal. unfold writeUInt32LE. blen_eq.
Qed.

(** The route entry as the rewrite builds it. *)
Lemma route_entry_chunked (idx : Z) (s : jsstring) :
  is_byte idx -> blen s < 2 ^ 32 ->
  exists chunk,
    buildVariantEntry StringToNumber idx STRING (VStr s) = Some chunk
    /\ reads_back chunk idx STRING (VStr s).
Proof.
  intros Hidx Hs. exists (idx :: STRING :: (writeUInt32LE (blen s) ++ s)). split.
  { unfold buildVariantEntry. cbn [ToString Z.eqb STRING Pos.eqb].
    rewrite land_byte by exact Hidx. reflexivity. }
  pose proof (blen_nonneg s).
  split; [unfold writeUInt32LE; blen_eq |]. intros pre post.
  cbn [app]. split; [| split].
  - by apply readUInt8_at.
  - change (pre ++ idx :: STRING :: (writeUInt32LE (blen s) ++ s) ++ post)
      with (pre ++ [idx] ++ STRING :: (writeUInt32LE (blen s) ++ s) ++ post).
    rewrite app_assoc. apply readUInt8_at. blen_eq.
  - rewrite parse_text_entry by lia. do 2 f_equal. blen_eq.
Qed.

End Reencoding.

(** *** The parts of a classified tank frame *)

Section Tanks.
Import Js Num Packet ProxyCore.
Local Open Scope Z_scope.

Lemma hd_split_on_bar (s : jsstring) :
  hd [] (split_on TextParse.BAR s) = before_bar s.
Proof.
  induction s as [|c s IH]; [reflexivity |]. cbn [split_on before_bar].
  destruct (c =? TextParse.BAR); [reflexivity |].
  destruct (split_on TextParse.BAR s); cbn [hd] in *; by rewrite <- IH.
Qed.

Lemma indexOf_from_bar (s : jsstring) :
  (indexOf TextParse.BAR s = -1 /\ from_bar s = [])
  \/ (0 <= indexOf TextParse.BAR s
      /\ drop (Z.to_nat (indexOf TextParse.BAR s)) s = from_bar s).
Proof.
  induction s as [|c s IH]; [by left |]. cbn [indexOf from_bar].
  destruct (c =? TextParse.BAR); [right; split; [lia | reflexivity] |].
  destruct IH as [[-> Hf] | [Hi Hd]]; [by left |].
  right. destruct (Z.ltb_spec (indexOf TextParse.BAR s) 0); [lia |].
  split; [lia |].
  replace (Z.to_nat (indexOf TextParse.BAR s + 1))
    with (S (Z.to_nat (indexOf TextParse.BAR s))) by lia.
  exact Hd.
Qed.

Lemma rewritten_route (a s : jsstring) :
  (if 0 <=? indexOf TextParse.BAR s
   then a ++ drop (Z.to_nat (indexOf TextParse.BAR s)) s else a)
  = a ++ from_bar s.
Proof.
  destruct (indexOf_from_bar s) as [[-> ->] | [Hi ->]].
  - by rewrite app_nil_r.
  - destruct (Z.leb_spec 0 (indexOf TextParse.BAR s)); [reflexivity | lia].
Qed.

Lemma from_bar_length (s : jsstring) : blen (from_bar s) <= blen s.
Proof.
  induction s as [|c s IH]; [reflexivity |]. cbn [from_bar].
  destruct (c =? TextParse.BAR); [lia |]. rewrite blen_cons. lia.
Qed.

Lemma parsePacket_tank (raw : Buffer) (t : tank_packet) :
  parsePacket raw = Tank t -> parseTankPacket raw = Some t.
Proof.
  unfold parsePacket. destruct (blen raw <? 4); [discriminate |]. cbv zeta.
  destruct (_ || _ || _); [destruct (parseTextPacket raw); discriminate |].
  destruct (_ =? GAME_PACKET); [| discriminate].
  destruct (parseTankPacket raw); [| discriminate]. by intros [= ->].
Qed.

Lemma stripNullTerminator_bytes (raw : Buffer) :
  Forall is_byte raw -> Forall is_byte (stripNullTerminator raw).
Proof.
  intros H. unfold stripNullTerminator, subarray.
  destruct (_ && _); [by apply Forall_take, Forall_drop | exact H].
Qed.

Lemma parseTankPacket_fields (raw : Buffer) (t : tank_packet) :
  parseTankPacket raw = Some t ->
  blen (header t) = 60
  /\ (Forall is_byte raw -> Forall is_byte (extra t))
  /\ (forall args, variantArgs t = Some args ->
        args = parseVariantArgs (extra t)
        /\ packetId t = variant_function_packet (string_or_empty (array_get args 0))).
Proof.
  unfold parseTankPacket. cbv zeta. set (buffer := stripNullTerminator raw).
  destruct (Z.ltb_spec (blen buffer) 60); [discriminate |].
  destruct (negb _); [discriminate |]. intros [= <-].
  cbn [header extra variantArgs packetId]. split; [apply blen_subarray; lia |].
  split.
  { intros Hb. destruct (_ <? _); [| constructor]. unfold subarray.
    by apply Forall_take, Forall_drop, stripNullTerminator_bytes. }
  intros args. destruct (readUInt8 buffer 4 =? CALL_FUNCTION); [| discriminate].
  intros [= <-]. split; reflexivity.
Qed.

Lemma variant_function_send (name : jsstring) :
  variant_function_packet name = OnSendToServer -> name = ON_SEND_TO_SERVER.
Proof.
  unfold variant_function_packet.
  destruct (str_eqb name (lit "OnSendToServer")) eqn:E; [intros _; by apply str_eqb_eq |].
  repeat match goal with
         | |- context [if ?c then _ else _] => destruct c
         end; discriminate.
Qed.

Lemma buildTankPacket_header (h : Buffer) (ty n tn st i : Z) (extra : Buffer) :
  blen h = 60 -> exists tank, buildTankPacket (Some h) ty n tn st i extra = Some tank.
Proof.
  intros Hh. unfold buildTankPacket. rewrite Hh. change (60 <? 60) with false.
  eexists. reflexivity.
Qed.

End Tanks.

(** *** The rewritten extra buffer *)

Section Rewriting.
Import Js Num Packet ProxyCore.
Local Open Scope Z_scope.
Variable StringToNumber : jsstring -> number.

(** What the rewrite makes of the port and route entries: a new value, and
    new bytes built for the type [ty]. *)
Definition rebuilt (ty : Z) (v : jsval) (e : ventry) : ventry :=
  {| entry_index := entry_index e;
     entry_type := entry_type e;
     entry_value := v;
     entry_encoded := buildVariantEntry StringToNumber (entry_index e) ty v |}.

Definition port_type (e : ventry) : Z :=
  if (entry_type e =? SIGNED) || (entry_type e =? UNSIGNED)
  then entry_type e else UNSIGNED.

Lemma rebuilt_keeps_index (ty : Z) (v : jsval) : keeps_index (rebuilt ty v).
Proof. intros e. reflexivity. Qed.

Lemma strict_eq_string_refl (s : jsstring) : strict_eq_string (VStr s) s = true.
Proof. unfold strict_eq_string. by apply str_eqb_eq. Qed.

Lemma rewrite_unfold (extra : Buffer) (parsed : vparsed) (e0 e1 e4 : ventry)
    (route : jsstring) (p : number) :
  parseVariantEntries extra = Some parsed ->
  entries parsed <> [] ->
  find_index 0 (entries parsed) = Some e0 ->
  entry_type e0 = STRING -> entry_value e0 = VStr ON_SEND_TO_SERVER ->
  find_index 1 (entries parsed) = Some e1 ->
  find_index 4 (entries parsed) = Some e4 ->
  entry_type e4 = STRING -> entry_value e4 = VStr route ->
  rewriteOnSendToServerExtra StringToNumber extra LOCALHOST p
  = let encoded :=
      encodeVariantEntries StringToNumber
        {| count := count parsed;
           entries :=
             update_index 4 (rebuilt STRING (VStr (LOCALHOST ++ from_bar route)))
               (update_index 1 (rebuilt (port_type e1) (VNum (or_zero p)))
                  (entries parsed)) |} in
    if (0 <? length encoded)%nat then Some encoded else None.
Proof.
  intros Hparse Hne H0 Ht0 Hv0 H1 H4 Ht4 Hv4.
  unfold rewriteOnSendToServerExtra. rewrite Hparse.
  destruct (entries parsed) as [|x xs] eqn:Hes; [done |].
  change (length (x :: xs) =? 0)%nat with false. cbv iota.
  rewrite H0, Ht0, Hv0, strict_eq_string_refl, H1, H4, Ht4, Hv4.
  change (STRING =? STRING) with true. cbn [negb orb]. cbv iota zeta.
  change (match LOCALHOST with [] => LOCALHOST | _ :: _ => LOCALHOST end)
    with LOCALHOST.
  rewrite rewritten_route. reflexivity.
Qed.

Lemma rebuilt_port_chunked (ty p : Z) (e : ventry) :
  1 <= p <= 65535 -> chunked e ->
  chunked (rebuilt (if (ty =? SIGNED) || (ty =? UNSIGNED) then ty else UNSIGNED)
             (VNum (or_zero (of_Z p))) e).
Proof.
  intros Hp [Hb _]. split; [exact Hb |].
  destruct (port_entry_chunked StringToNumber (entry_index e) ty p Hb Hp)
    as (chunk & Hbuild & Hrb).
  exists chunk. eexists. split; [exact Hbuild | exact Hrb].
Qed.

Lemma rebuilt_route_chunked (s : jsstring) (e : ventry) :
  blen s < 2 ^ 32 -> chunked e -> chunked (rebuilt STRING (VStr s) e).
Proof.
  intros Hs [Hb _]. split; [exact Hb |].
  destruct (route_entry_chunked StringToNumber (entry_index e) s Hb Hs)
    as (chunk & Hbuild & Hrb).
  exists chunk, STRING. split; [exact Hbuild | exact Hrb].
Qed.

(** What the decoder found in a buffer it accepted. *)
Lemma parsed_entries (extra : Buffer) (parsed : vparsed) :
  Forall is_byte extra ->
  parseVariantEntries extra = Some parsed ->
  entries parsed <> [] ->
  is_byte (count parsed)
  /\ length (entries parsed) = Z.to_nat (count parsed)
  /\ Forall chunked (entries parsed) /\ Forall typed (entries parsed).
Proof.
  intros Hb Hparse Hne. unfold parseVariantEntries in Hparse.
  destruct (blen extra =? 0); [injection Hparse as <-; done |].
  destruct (parse_loop extra _ 1 []) as [es|] eqn:E; [| discriminate].
  injection Hparse as <-. cbn [count entries].
  apply parse_loop_chunked in E as (es' & -> & Hl & Hc & Ht); [| exact Hb | lia].
  cbn [app]. split; [by apply readUInt8_byte | auto].
Qed.

Lemma carried_once_nonempty (i : Z) (es : list ventry) : carried_once i es -> es <> [].
Proof. intros H ->. discriminate H. Qed.

(** When each of the arguments 0, 1 and 4 is carried by one entry, the
    rewrite goes through and the rewritten buffer decodes to the new port
    and route. *)
Lemma rewrite_reads_back (extra : Buffer) (parsed : vparsed) (route : jsstring) (p : Z) :
  Forall is_byte extra ->
  parseVariantEntries extra = Some parsed ->
  carried_once 0 (entries parsed) ->
  carried_once 1 (entries parsed) ->
  carried_once 4 (entries parsed) ->
  array_get (parseVariantArgs extra) 0 = VStr ON_SEND_TO_SERVER ->
  array_get (parseVariantArgs extra) 4 = VStr route ->
  blen route < 2 ^ 32 - 9 ->
  1 <= p <= 65535 ->
  exists extra',
    rewriteOnSendToServerExtra StringToNumber extra LOCALHOST (of_Z p) = Some extra'
    /\ array_get (parseVariantArgs extra') 0 = VStr ON_SEND_TO_SERVER
    /\ array_get (parseVariantArgs extra') 1 = VNum (of_Z p)
    /\ array_get (parseVariantArgs extra') 4 = VStr (LOCALHOST ++ from_bar route).
Proof.
  intros Hb Hparse H0 H1 H4 Hname Hroute Hlen Hp.
  rewrite (parseVariantArgs_store _ _ Hparse), array_get_fold in Hname, Hroute.
  pose proof Hname as Hname0.
  pose proof (carried_once_nonempty _ _ H0) as Hne.
  destruct (parsed_entries extra parsed Hb Hparse Hne) as (Hcount & Hlen_es & Hch & Hty).
  assert (Hnn : Forall (fun e => 0 <= entry_index e) (entries parsed)).
  { eapply Forall_impl; [exact Hch |]. by intros e [[? ?] _]. }
  assert (Hid : keeps_index (fun e => e)) by done.
  destruct (slot_value_carried 0 (fun e => e) _ (array_get [] 0) ltac:(lia) Hnn H0 Hid)
    as (e0 & Hf0 & _ & Hin0 & Hs0).
  destruct (slot_value_carried 4 (fun e => e) _ (array_get [] 4) ltac:(lia) Hnn H4 Hid)
    as (e4 & Hf4 & _ & Hin4 & Hs4).
  destruct (slot_value_carried 1 (fun e => e) _ (array_get [] 1) ltac:(lia) Hnn H1 Hid)
    as (e1 & Hf1 & _ & _ & _).
  rewrite update_index_same in Hs0, Hs4.
  change (Z.to_nat 0) with 0%nat in Hs0. change (Z.to_nat 4) with 4%nat in Hs4.
  rewrite Hs0 in Hname. rewrite Hs4 in Hroute.
  rewrite List.Forall_forall in Hty.
  pose proof (Hty e0 Hin0 _ Hname) as Ht0. pose proof (Hty e4 Hin4 _ Hroute) as Ht4.
  rewrite (rewrite_unfold extra parsed e0 e1 e4 route (of_Z p)
             Hparse Hne Hf0 Ht0 Hname Hf1 Hf4 Ht4 Hroute).
  cbv zeta. unfold port_type.
  set (f1 := rebuilt _ (VNum (or_zero (of_Z p)))).
  set (f4 := rebuilt STRING (VStr (LOCALHOST ++ from_bar route))).
  assert (Hk1 : keeps_index f1) by apply rebuilt_keeps_index.
  assert (Hk4 : keeps_index f4) by apply rebuilt_keeps_index.
  set (es := entries parsed) in *.
  set (es1 := update_index 1 f1 es). set (es2 := update_index 4 f4 es1).
  assert (Hroute_len : blen (LOCALHOST ++ from_bar route) < 2 ^ 32).
  { rewrite blen_app. pose proof (from_bar_length route). change (blen LOCALHOST) with 9. lia. }
  assert (Hch1 : Forall chunked es1).
  { apply update_index_Forall; [| exact Hch].
    intros e He _. by apply rebuilt_port_chunked. }
  assert (Hch2 : Forall chunked es2).
  { apply update_index_Forall; [| exact Hch1].
    intros e He _. by apply rebuilt_route_chunked. }
  destruct (reparse_chunks StringToNumber es2 Hch2) as (body & Henc & Hloop).
  unfold encodeVariantEntries. cbn [entries count]. rewrite Henc.
  rewrite land_byte by exact Hcount.
  change (0 <? length ([count parsed] ++ body))%nat with true.
  eexists. split; [reflexivity |].
  assert (Hargs : parseVariantArgs ([count parsed] ++ body) = fold_left store es2 []).
  { destruct (Hloop [count parsed] [] []) as (es' & Hes' & Hsame).
    rewrite app_nil_r in Hes'. unfold es2, es1 in Hes'.
    rewrite !update_index_length, Hlen_es in Hes'.
    change (blen [count parsed]) with 1 in Hes'.
    unfold parseVariantArgs, parseVariantEntries.
    change (blen ([count parsed] ++ body) =? 0) with false.
    change (readUInt8 ([count parsed] ++ body) 0) with (count parsed).
    cbv iota. rewrite Hes'. cbn [entries app]. by apply fold_same_slot. }
  rewrite Hargs, !array_get_fold. split; [| split].
  - unfold es2, es1. change 0%nat with (Z.to_nat 0).
    rewrite !slot_value_other by (exact Hk4 || exact Hk1 || done). exact Hname0.
  - unfold es2. change 1%nat with (Z.to_nat 1).
    rewrite slot_value_other by (exact Hk4 || done). unfold es1.
    destruct (slot_value_carried 1 f1 es (array_get [] (Z.to_nat 1)) ltac:(lia) Hnn H1 Hk1)
      as (x & _ & _ & _ & ->).
    unfold f1. cbn [rebuilt entry_value]. by rewrite or_zero_port by lia.
  - assert (Hnn1 : Forall (fun e => 0 <= entry_index e) es1).
    { eapply Forall_impl; [exact Hch1 |]. by intros e [[? ?] _]. }
    assert (H41 : carried_once 4 es1) by (by apply carried_once_update).
    unfold es2. change 4%nat with (Z.to_nat 4).
    destruct (slot_value_carried 4 f4 es1 (array_get [] (Z.to_nat 4)) ltac:(lia) Hnn1 H41 Hk4)
      as (x & _ & _ & _ & ->).
    reflexivity.
Qed.

End Rewriting.

(** *** The server handoff

    The handoff itself is stated in section [HandoffFrame], after the
    lemmas on reading a built tank back, on which it rests. *)

Section Handoff.
Import Js Num Packet ProxyCore.
Local Open Scope Z_scope.

Lemma string_or_empty_name (v : jsval) :
  string_or_empty v = ON_SEND_TO_SERVER -> v = VStr ON_SEND_TO_SERVER.
Proof.
  destruct v; cbn [string_or_empty]; intros H; try (by rewrite H);
    apply (f_equal length) in H; discriminate H.
Qed.

End Handoff.

(** *** Frames at which the handoff is checked *)

Section HandoffExamples.
Import Js Num Packet ProxyCore.
Local Open Scope Z_scope.

(** The handoff of the running example: argument 1 is the port 17000 and
    argument 4 the route. *)
Definition handoff_extra : Buffer :=
  encodeVariantArgs
    [VStr ON_SEND_TO_SERVER; VNum (of_Z 17000); VNum (of_Z 7); VNum (of_Z 12);
     VStr (lit "5.6.7.8|door|uuid"); VNum (of_Z 0); VStr (lit "player")].

(** The frame a relaying proxy with the default configuration sends to
    the client for [rawData]. *)
Definition forwarded_frame (rawData : Buffer) : Buffer :=
  match handleClientBoundPacket no_numeric_text default_config (fun _ _ => false)
          no_subscribers relaying_state 0 rawData with
  | Some (_, Some frame) => frame
  | _ => []
  end.

Lemma write_at_long (b : Buffer) (off : Z) (w : Buffer) :
  0 <= off -> off + blen w <= 60 -> 60 <= blen b -> 60 <= blen (write_at b off w).
Proof.
  intros Hoff Hw Hb. unfold write_at, blen in *.
  rewrite !length_app, length_take, length_drop. lia.
Qed.

Lemma buildTankPacket_shape (h : Buffer) (ty n tn st i : Z) (extra tank : Buffer) :
  buildTankPacket (Some h) ty n tn st i extra = Some tank ->
  exists h', length h' = 60%nat /\ tank = h' ++ extra.
Proof.
  unfold buildTankPacket. destruct (Z.ltb_spec (blen h) 60); [discriminate |].
  intros Heq. apply (inj Some) in Heq. subst tank.
  eexists. split; [| reflexivity].
  apply Nat2Z.inj. apply (blen_subarray _ 0 60); [lia |].
  repeat apply write_at_long; try exact H; try lia;
    unfold writeUInt32LE, writeInt32LE, le32, blen; cbn [length]; lia.
Qed.

(** The extra buffer a forwarded frame was rebuilt around is what follows
    its 60 header bytes, up to the trailing NUL. *)
Lemma rebuilt_with_extra (t : tank_packet) (rawData extra' frame : Buffer) :
  rebuilt_with t rawData extra' frame ->
  extra' = drop 60 frame \/ extra' ++ [0] = drop 60 frame.
Proof.
  intros (tank & Hbuild & ->).
  apply buildTankPacket_shape in Hbuild as (h & Hh & ->).
  assert (Hd : forall rest, drop 60 (h ++ rest) = rest).
  { intros rest. rewrite <- Hh. apply drop_app_length. }
  unfold ensureNullTerminator.
  destruct (_ && _); [destruct (_ && _) |]; rewrite <- ?app_assoc, Hd; auto.
Qed.

(** C1, as stated, fails.  A frame whose variant list carries only the
    entries 0 and 4 has five arguments and a string route, but the rewrite
    declines for want of a port entry and the original frame is forwarded;
    a frame that carries the port entry twice is rewritten in its first
    port entry only, and decodes to the port of the second. *)
Lemma handoff_can_leave_the_port :
  ~ handoff_claim no_numeric_text default_config (fun _ _ => false) relaying_state
      (server_frame extra_without_port)
  /\ ~ handoff_claim no_numeric_text default_config (fun _ _ => false) relaying_state
        (server_frame extra_with_two_ports).
Proof.
  split; intros Hclaim.
  - eassert (Hpkt : parsePacket (server_frame extra_without_port) = Tank _)
      by (vm_compute; reflexivity).
    unfold handoff_claim in Hclaim.
    edestruct Hclaim as (st' & frame & extra' & Hrun & _ & _ & Hre & H1 & _);
      [exact Hpkt | reflexivity | reflexivity | cbn [length]; lia | reflexivity |].
    assert (Hf : frame = forwarded_frame (server_frame extra_without_port))
      by (unfold forwarded_frame; by rewrite Hrun).
    apply rebuilt_with_extra in Hre. rewrite Hf in Hre.
    replace (drop 60 (forwarded_frame (server_frame extra_without_port)))
      with (extra_without_port ++ [0]) in Hre by (vm_compute; reflexivity).
    destruct Hre as [-> | [-> _]%app_inj_tail]; vm_compute in H1; discriminate H1.
  - eassert (Hpkt : parsePacket (server_frame extra_with_two_ports) = Tank _)
      by (vm_compute; reflexivity).
    unfold handoff_claim in Hclaim.
    edestruct Hclaim as (st' & frame & extra' & Hrun & _ & _ & Hre & H1 & _);
      [exact Hpkt | reflexivity | reflexivity | cbn [length]; lia | reflexivity |].
    assert (Hf : frame = forwarded_frame (server_frame extra_with_two_ports))
      by (unfold forwarded_frame; by rewrite Hrun).
    apply rebuilt_with_extra in Hre. rewrite Hf in Hre.
    replace (drop 60 (forwarded_frame (server_frame extra_with_two_ports)))
      with (removelast (drop 60 (forwarded_frame (server_frame extra_with_two_ports)))
            ++ [0]) in Hre by (vm_compute; reflexivity).
    destruct Hre as [-> | [-> _]%app_inj_tail]; vm_compute in H1; discriminate H1.
Qed.

End HandoffExamples.

(* ===================================================================== *)
(** * Part III. Further properties of the code                             *)
(* ===================================================================== *)

(** ** src/textParse.js: laws of the record list *)

Section RecordLaws.
Import Js TextParse.
Local Open Scope Z_scope.

Lemma new_getRaw (p : t) :
  Forall wf_entry p -> TextParse.new (getRaw p BAR []) = p.
Proof.
  intros Hwf. destruct p as [|e p]; [reflexivity |].
  unfold TextParse.new. rewrite parse_spec.
  destruct (getRaw_lines (e :: p)) as [Hl _]; [done | exact Hwf |].
  rewrite Hl, <- (app_nil_r (map _ _)).
  apply records_of_raw_lines; [exact Hwf | constructor].
Qed.

(** X1.  [getRaw] and [parse] are inverse on well-formed records: when
    every record has a non-empty key, at least one value, and no ['|'] or
    newline in its key and values, parsing the text [getRaw] writes gives
    the records back, in order. *)
Theorem parse_getRaw (p : t) :
  Forall wf_entry p -> TextParse.new (getRaw p BAR []) = p.
Proof. exact (new_getRaw p). Qed.

Lemma parse_getRaw_witness :
  TextParse.new
    (getRaw [(lit "server", [lit "127.0.0.1"]); (lit "meta", [lit "a"; []; lit "b"])]
       BAR [])
  = [(lit "server", [lit "127.0.0.1"]); (lit "meta", [lit "a"; []; lit "b"])].
Proof.
  apply parse_getRaw.
  repeat match goal with
         | |- Forall _ (_ :: _) => constructor
         | |- Forall _ [] => constructor
         | |- wf_entry _ =>
             split; [discriminate | split; [| split; [discriminate | cbn [snd]]]]
         | |- plain _ => apply lit_plain; reflexivity
         end.
Defined.

Lemma get_set_same (p : t) (key : jsstring) (values : list jsstring) (i : nat) :
  get (set p key values) key i = nth i values [].
Proof.
  unfold get, find. induction p as [|[k vs] p IH]; cbn [set].
  - cbn [List.find fst snd]. by rewrite (proj2 (str_eqb_eq key key)).
  - destruct (str_eqb k key) eqn:E; cbn [List.find fst snd]; rewrite E;
      [reflexivity | exact IH].
Qed.

(** X2.  [set] then [get]: the key reads the new values (the empty string
    past their end), the key is contained, and every other key reads as
    before. *)
Theorem get_after_set (p : t) (key : jsstring) (values : list jsstring) (i : nat) :
  get (set p key values) key i = nth i values []
  /\ contains (set p key values) key = true
  /\ (forall key', key' <> key -> get (set p key values) key' i = get p key' i).
Proof.
  split; [apply get_set_same | split].
  - unfold contains. induction p as [|[k vs] p IH]; cbn [set].
    + cbn [existsb fst]. by rewrite (proj2 (str_eqb_eq key key)).
    + destruct (str_eqb k key) eqn:E; cbn [existsb fst]; rewrite E; [reflexivity | exact IH].
  - intros key' Hne. apply get_set_other. congruence.
Qed.

(** X3.  [remove] forgets the key and nothing else: the key is no longer
    contained and reads as the empty string, and the first record of every
    other key is the one it was. *)
Theorem remove_forgets_the_key (p : t) (key : jsstring) (i : nat) :
  contains (remove p key) key = false
  /\ get (remove p key) key i = []
  /\ (forall key', key' <> key -> find (remove p key) key' = find p key').
Proof.
  split; [apply contains_remove | split].
  - unfold get, find, remove. induction p as [|[k vs] p IH]; [reflexivity |].
    cbn [List.filter fst]. destruct (str_eqb k key) eqn:E; cbn [negb]; [exact IH |].
    cbn [List.find fst]. rewrite E. exact IH.
  - intros key' Hne. unfold find, remove. induction p as [|[k vs] p IH]; [reflexivity |].
    cbn [List.filter List.find fst]. destruct (str_eqb k key) eqn:E; cbn [negb].
    + apply str_eqb_eq in E. subst k.
      rewrite (proj2 (str_eqb_neq key key')) by congruence. exact IH.
    + cbn [List.find fst]. destruct (str_eqb k key'); [reflexivity | exact IH].
Qed.

(** X4.  [set] replaces the values of the first record of the key where it
    stands, leaving every other record (later records of the same key
    included) in place; without such a record it appends one. *)
Theorem set_in_place (p : t) (key : jsstring) (values : list jsstring) :
  (contains p key = true ->
   exists before old after,
     p = before ++ (key, old) :: after
     /\ Forall (fun e => fst e <> key) before
     /\ set p key values = before ++ (key, values) :: after)
  /\ (contains p key = false -> set p key values = p ++ [(key, values)]).
Proof.
  unfold contains. split.
  - induction p as [|[k vs] p IH]; [discriminate |]. cbn [existsb set fst].
    destruct (str_eqb k key) eqn:E.
    + intros _. apply str_eqb_eq in E. subst k. by exists [], vs, p.
    + cbn [orb]. intros H. destruct (IH H) as (before & old & after & -> & Hb & ->).
      exists ((k, vs) :: before), old, after. repeat split.
      constructor; [by apply str_eqb_neq | exact Hb].
  - induction p as [|[k vs] p IH]; [reflexivity |]. cbn [existsb set fst].
    destruct (str_eqb k key); [discriminate |]. cbn [orb]. intros H.
    by rewrite (IH H).
Qed.

(** X6.  Without [keepEmpty], [tokenize] returns exactly the non-empty
    pieces of the split, in order. *)
Theorem tokenize_without_empties (raw : jsstring) (delimiter : Z) :
  tokenize raw delimiter false
  = List.filter (fun token => negb (length token =? 0)%nat) (split_on delimiter raw).
Proof.
  assert (Hloop : forall tokens out,
             fold_left (tokenize_step false) tokens out
             = out ++ List.filter (fun token => negb (length token =? 0)%nat) tokens).
  { induction tokens as [|tok tokens IH]; intros out; [by rewrite app_nil_r |].
    cbn [fold_left List.filter]. rewrite IH. unfold tokenize_step.
    destruct (length tok =? 0)%nat; cbn [andb negb].
    - by destruct (length out =? 0)%nat.
    - by rewrite <- app_assoc. }
  unfold tokenize. destruct raw as [|c raw]; [reflexivity |]. apply Hloop.
Qed.

(** X7.  Whatever the text, every record [parse] builds has a non-empty
    key and at least one value, and neither its key nor its values hold a
    ['|'] or a newline. *)
Theorem parsed_records_are_well_formed (raw key : jsstring) (values : list jsstring) :
  In (key, values) (TextParse.new raw) ->
  key <> [] /\ values <> [] /\ plain key /\ Forall plain values.
Proof.
  intros Hin. pose proof (parse_wf raw) as Hwf. rewrite List.Forall_forall in Hwf.
  destruct (Hwf _ Hin) as (Hk & Hpk & Hv & Hpv). auto.
Qed.

Lemma parsed_records_are_well_formed_witness :
  lit "port" <> [] /\ [lit "17000"; []] <> []
  /\ plain (lit "port") /\ Forall plain [lit "17000"; []].
Proof.
  apply (parsed_records_are_well_formed (lit "|port|17000|" ++ [NL] ++ lit "x")).
  vm_compute. left. reflexivity.
Defined.

Lemma digits_fuel_value (fuel : nat) (n : Z) (acc : jsstring) :
  0 <= n < 2 ^ (Z.of_nat fuel + 1) ->
  exists ds,
    digits_fuel (S fuel) n acc = ds ++ acc
    /\ ds <> [] /\ Forall (fun c => is_digit c = true) ds
    /\ forall a rest,
         digits_value a (ds ++ rest) = digits_value (a * 10 ^ Z.of_nat (length ds) + n) rest.
Proof.
  revert n acc. induction fuel as [|fuel IH]; intros n acc Hn.
  - assert (n < 10) by (change (2 ^ (Z.of_nat 0 + 1)) with 2 in Hn; lia).
    cbn [digits_fuel]. destruct (Z.ltb_spec n 10); [| lia].
    exists [48 + n mod 10]. rewrite Z.mod_small by lia.
    split; [reflexivity |]. split; [discriminate |]. split.
    + constructor; [| constructor]. unfold is_digit. lia.
    + intros a rest. cbn [app digits_value length].
      replace (is_digit (48 + n)) with true by (unfold is_digit; lia).
      f_equal. change (10 ^ Z.of_nat 1) with 10. lia.
  - cbn [digits_fuel]. fold (digits_fuel (S fuel)).
    pose proof (Z.mod_pos_bound n 10 ltac:(lia)) as Hd.
    assert (Hdigit : is_digit (48 + n mod 10) = true) by (unfold is_digit; lia).
    destruct (Z.ltb_spec n 10) as [Hsmall|Hbig].
    + exists [48 + n mod 10]. rewrite Z.mod_small by lia.
      split; [reflexivity |]. split; [discriminate |]. split.
      * constructor; [| constructor]. unfold is_digit. lia.
      * intros a rest. cbn [app digits_value length].
        replace (is_digit (48 + n)) with true by (unfold is_digit; lia).
        f_equal. change (10 ^ Z.of_nat 1) with 10. lia.
    + assert (Hq : 0 <= n / 10 < 2 ^ (Z.of_nat fuel + 1)).
      { split; [apply Z.div_pos; lia |].
        apply Z.div_lt_upper_bound; [lia |].
        replace (Z.of_nat (S fuel) + 1) with (Z.of_nat fuel + 1 + 1) in Hn by lia.
        rewrite Z.pow_add_r in Hn by lia. change (2 ^ 1) with 2 in Hn.
        pose proof (Z.pow_pos_nonneg 2 (Z.of_nat fuel + 1) ltac:(lia) ltac:(lia)). lia. }
      destruct (IH (n / 10) ((48 + n mod 10) :: acc) Hq) as (ds & Heq & Hne & Hds & Hval).
      exists (ds ++ [48 + n mod 10]). rewrite <- app_assoc. split; [exact Heq |].
      split; [by destruct ds |]. split.
      * apply Forall_app. split; [exact Hds | by constructor].
      * intros a rest. rewrite <- app_assoc, Hval. cbn [app digits_value].
        rewrite Hdigit. f_equal. rewrite length_app. cbn [length].
        replace (Z.of_nat (length ds + 1)) with (Z.of_nat (length ds) + 1) by lia.
        rewrite Z.pow_add_r by lia. change (10 ^ 1) with 10.
        pose proof (Z.div_mod n 10 ltac:(lia)). lia.
Qed.

Lemma digit_not_space (c : Z) : is_digit c = true -> is_space c = false.
Proof. unfold is_digit, is_space. lia. Qed.

(** [Number.parseInt] reads back the decimal rendering of an integer. *)
Lemma parseInt10_decimal (n : Z) : decimal n <> [] /\ parseInt10 (decimal n) = Some n.
Proof.
  assert (Hfuel : forall m, 0 <= m -> 0 <= m < 2 ^ (Z.of_nat (Z.to_nat (Z.log2 m)) + 1)).
  { intros m Hm. rewrite Z2Nat.id by apply Z.log2_nonneg.
    destruct (Z.eq_dec m 0) as [-> | Hne]; [split; [lia | reflexivity] |].
    pose proof (Z.log2_spec m ltac:(lia)) as Hs.
    replace (Z.log2 m + 1) with (Z.succ (Z.log2 m)) by lia. lia. }
  unfold decimal. destruct (Z.ltb_spec n 0) as [Hneg|Hpos].
  - destruct (digits_fuel_value _ (- n) [] (Hfuel (- n) ltac:(lia)))
      as (ds & -> & Hne & Hds & Hval).
    rewrite app_nil_r. split; [discriminate |].
    destruct ds as [|d ds]; [done |]. apply Forall_cons in Hds as [Hd Hds].
    unfold parseInt10. cbn [trimStart]. change (is_space 45) with false. cbv iota.
    change (45 =? 45) with true. cbv iota. rewrite Hd.
    specialize (Hval 0 []). rewrite app_nil_r in Hval. rewrite Hval.
    cbn [digits_value]. f_equal; lia.
  - destruct (digits_fuel_value _ n [] (Hfuel n Hpos)) as (ds & -> & Hne & Hds & Hval).
    rewrite app_nil_r. split; [exact Hne |].
    destruct ds as [|d ds]; [done |]. apply Forall_cons in Hds as [Hd Hds].
    unfold parseInt10. cbn [trimStart]. rewrite (digit_not_space d Hd).
    assert (H45 : (d =? 45) = false) by (unfold is_digit in Hd; lia).
    assert (H43 : (d =? 43) = false) by (unfold is_digit in Hd; lia).
    rewrite H45, H43, Hd.
    specialize (Hval 0 []). rewrite app_nil_r in Hval. rewrite Hval.
    cbn [digits_value]. f_equal; lia.
Qed.

(** X5.  [getInt] reads back an integer of magnitude up to 2^53 (the range
    in which the number [parseInt] returns is the integer written) that
    [set] stored in decimal, and returns the fallback for a key that is
    not there. *)
Theorem getInt_reads_decimal (p : t) (key : jsstring) (fallback : Z) :
  (forall n, - 2 ^ 53 <= n <= 2 ^ 53 ->
             getInt (set p key [decimal n]) key 0 fallback = n)
  /\ (contains p key = false -> forall i, getInt p key i fallback = fallback).
Proof.
  split.
  - intros n _. unfold getInt.
    rewrite get_set_same. cbn [nth].
    destruct (parseInt10_decimal n) as [Hne Hparse].
    destruct (decimal n) as [|c rest]; [done |]. by rewrite Hparse.
  - intros Hc i. unfold getInt, get, find. unfold contains in Hc.
    replace (List.find (fun e => str_eqb (fst e) key) p) with (@None entry);
      [reflexivity |].
    symmetry. induction p as [|e p IH]; [reflexivity |]. cbn [existsb List.find] in *.
    destruct (str_eqb (fst e) key); [discriminate | by apply IH].
Qed.

Lemma getInt_reads_decimal_witness :
  getInt (set (TextParse.new (lit "server|growtopia1.com")) (lit "port") [decimal 17091])
    (lit "port") 0 65535 = 17091
  /\ getInt (TextParse.new (lit "server|growtopia1.com")) (lit "port") 0 65535 = 65535.
Proof.
  destruct (getInt_reads_decimal (TextParse.new (lit "server|growtopia1.com"))
              (lit "port") 65535) as [Hread Hmissing].
  split; [apply Hread; lia | apply Hmissing; reflexivity].
Defined.

End RecordLaws.

(** ** src/packet.js: frames and their terminator *)

Section FrameLaws.
Import Js Num Packet PacketBuilders.
Local Open Scope Z_scope.

(** The test both terminator functions make. *)
Definition ends_in_nul (b : Buffer) : bool :=
  (0 <? blen b) && (readUInt8 b (blen b - 1) =? 0).

Lemma ends_in_nul_snoc (b : Buffer) (x : Z) : ends_in_nul (b ++ [x]) = (x =? 0).
Proof.
  unfold ends_in_nul. rewrite blen_app. pose proof (blen_nonneg b).
  replace (0 <? blen b + blen [x]) with true
    by (symmetry; apply Z.ltb_lt; change (blen [x]) with 1; lia).
  rewrite (readUInt8_at b [] x) by (change (blen [x]) with 1; lia). reflexivity.
Qed.

Lemma ends_in_nul_spec (b : Buffer) :
  ends_in_nul b = true <-> exists body, b = body ++ [0].
Proof.
  induction b as [|x b _] using rev_ind.
  - split; [discriminate | intros [[|? ?] H]; discriminate].
  - rewrite ends_in_nul_snoc. split.
    + intros ->%Z.eqb_eq. by exists b.
    + intros [body [_ ->]%app_inj_tail]. reflexivity.
Qed.

Lemma stripNullTerminator_snoc (b : Buffer) (x : Z) :
  stripNullTerminator (b ++ [x]) = if x =? 0 then b else b ++ [x].
Proof.
  unfold stripNullTerminator. fold (ends_in_nul (b ++ [x])). rewrite ends_in_nul_snoc.
  destruct (x =? 0); [| reflexivity].
  rewrite blen_app. change (blen [x]) with 1.
  replace (blen b + 1 - 1) with (0 + blen b) by lia.
  by apply (subarray_at [] b [x]).
Qed.

Lemma ensureNullTerminator_cases (b : Buffer) :
  ensureNullTerminator b = if ends_in_nul b then b else b ++ [0].
Proof. reflexivity. Qed.

Lemma strip_after_ensure (b : Buffer) :
  stripNullTerminator (ensureNullTerminator b) = stripNullTerminator b.
Proof.
  rewrite ensureNullTerminator_cases. destruct (ends_in_nul b) eqn:E; [reflexivity |].
  rewrite stripNullTerminator_snoc. change (0 =? 0) with true. cbv iota.
  unfold stripNullTerminator. fold (ends_in_nul b). by rewrite E.
Qed.

(** X8.  The terminator functions: stripping after ensuring is stripping
    (so a buffer that ends in a zero byte of its own loses that byte),
    ensuring twice is ensuring once, an appended zero byte is stripped
    again, and an ensured buffer ends in a zero byte. *)
Theorem null_terminator_laws (b : Buffer) :
  stripNullTerminator (ensureNullTerminator b) = stripNullTerminator b
  /\ ensureNullTerminator (ensureNullTerminator b) = ensureNullTerminator b
  /\ stripNullTerminator (b ++ [0]) = b
  /\ (exists body, ensureNullTerminator b = body ++ [0])
  /\ (forall body, b = body ++ [0] ->
        stripNullTerminator (ensureNullTerminator b) = body).
Proof.
  split; [apply strip_after_ensure |]. split; [| split; [| split]].
  - rewrite !ensureNullTerminator_cases. destruct (ends_in_nul b) eqn:E.
    + by rewrite E.
    + by rewrite ends_in_nul_snoc.
  - by rewrite stripNullTerminator_snoc.
  - rewrite ensureNullTerminator_cases. destruct (ends_in_nul b) eqn:E.
    + by apply ends_in_nul_spec.
    + by exists b.
  - intros body ->. rewrite strip_after_ensure. by rewrite stripNullTerminator_snoc.
Qed.

Lemma parse_built_text (messageType : Z) (text : jsstring) :
  messageType = SERVER_HELLO \/ messageType = GENERIC_TEXT \/ messageType = GAME_MESSAGE ->
  parsePacket (buildTextPacket messageType text)
  = Text {| text_messageType := messageType;
            text_text := text;
            text_parser := TextParse.new text;
            text_packetId :=
              if messageType =? SERVER_HELLO then ServerHello
              else action_packet (TextParse.get (TextParse.new text) (lit "action") 0);
            text_inputText :=
              match (if messageType =? SERVER_HELLO then ServerHello
                     else action_packet
                            (TextParse.get (TextParse.new text) (lit "action") 0)) with
              | Input =>
                  match TextParse.get (TextParse.new text) (lit "text") 0 with
                  | [] => TextParse.get (TextParse.new text) [] 1
                  | t => t
                  end
              | _ => []
              end |}.
Proof.
  intros Hmt.
  assert (Hrange : 0 <= messageType < 2 ^ 32)
    by (unfold SERVER_HELLO, GENERIC_TEXT, GAME_MESSAGE in Hmt; lia).
  assert (Hword : forall rest, readUInt32LE (writeUInt32LE messageType ++ rest) 0 = messageType).
  { intros rest. unfold writeUInt32LE. rewrite readUInt32LE_le32. by apply Z.mod_small. }
  assert (Hlen : forall rest, blen (writeUInt32LE messageType ++ rest) = 4 + blen rest).
  { intros rest. unfold writeUInt32LE. by rewrite blen_app, blen_le32. }
  unfold parsePacket, buildTextPacket. rewrite Hlen, Hword.
  pose proof (blen_nonneg (text ++ [0])).
  destruct (Z.ltb_spec (4 + blen (text ++ [0])) 4); [lia |]. cbv zeta.
  replace ((messageType =? SERVER_HELLO) || (messageType =? GENERIC_TEXT)
           || (messageType =? GAME_MESSAGE)) with true
    by (unfold SERVER_HELLO, GENERIC_TEXT, GAME_MESSAGE in *;
        destruct Hmt as [-> | [-> | ->]]; reflexivity).
  unfold parseTextPacket. rewrite app_assoc, stripNullTerminator_snoc.
  change (0 =? 0) with true. cbv iota zeta. rewrite Hlen, Hword.
  pose proof (blen_nonneg text).
  destruct (Z.ltb_spec (4 + blen text) 4); [lia |].
  replace (subarray (writeUInt32LE messageType ++ text) 4 (4 + blen text)) with text;
    [reflexivity |].
  symmetry. rewrite <- (app_nil_r text) at 1.
  apply subarray_at; unfold writeUInt32LE; rewrite blen_le32; lia.
Qed.

(** Text of ASCII units: the strings whose UTF-8 bytes are their units, so
    that [Buffer.from(s, "utf8")] and [toString("utf8")] copy them. *)
Definition ascii (s : jsstring) : Prop := Forall (fun c => 0 <= c < 128) s.

Lemma lit_ascii (s : jsstring) : forallb (fun c => (0 <=? c) && (c <? 128)) s = true -> ascii s.
Proof.
  intros H. apply List.Forall_forall. intros c Hc.
  rewrite forallb_forall in H. specialize (H c Hc). lia.
Qed.

(** X9.  A text frame built by [buildTextPacket] for one of the three
    text message types from an ASCII text is parsed back by [parsePacket]
    as a text packet with that message type and exactly that text. *)
Theorem text_packet_round_trip (messageType : Z) (text : jsstring) :
  messageType = SERVER_HELLO \/ messageType = GENERIC_TEXT \/ messageType = GAME_MESSAGE ->
  ascii text ->
  exists p,
    parsePacket (buildTextPacket messageType text) = Text p
    /\ text_messageType p = messageType
    /\ text_text p = text
    /\ text_parser p = TextParse.new text.
Proof. intros Hmt _. rewrite (parse_built_text _ _ Hmt). eexists. by repeat split. Qed.

Lemma text_packet_round_trip_witness :
  exists p,
    parsePacket (buildTextPacket GAME_MESSAGE (lit "action|input" ++ [10] ++ lit "|text|/warp X"))
    = Text p
    /\ text_messageType p = GAME_MESSAGE
    /\ text_text p = lit "action|input" ++ [10] ++ lit "|text|/warp X"
    /\ text_parser p
       = TextParse.new (lit "action|input" ++ [10] ++ lit "|text|/warp X").
Proof.
  apply text_packet_round_trip; [right; right; reflexivity |].
  apply lit_ascii. reflexivity.
Defined.

(** *** Writing into a header and reading it back *)

Lemma blen_write_at (b : Buffer) (off : Z) (w : Buffer) :
  0 <= off -> off + blen w <= blen b -> blen (write_at b off w) = blen b.
Proof.
  intros Hoff Hw. unfold write_at, blen in *.
  rewrite !length_app, length_take, length_drop. lia.
Qed.

Lemma readUInt8_write_at_in (b : Buffer) (off : Z) (w : Buffer) (k : Z) :
  0 <= off -> off + blen w <= blen b -> 0 <= k < blen w ->
  readUInt8 (write_at b off w) (off + k) = readUInt8 w k.
Proof.
  intros Hoff Hw Hk. unfold write_at, readUInt8, blen in *. rewrite !nth_lookup.
  rewrite lookup_app_r by (rewrite length_take; lia).
  rewrite lookup_app_l by (rewrite length_take; lia).
  rewrite length_take. do 2 f_equal. lia.
Qed.

Lemma readUInt8_write_at_out (b : Buffer) (off : Z) (w : Buffer) (p : Z) :
  0 <= off -> off + blen w <= blen b -> 0 <= p -> p < off \/ off + blen w <= p ->
  readUInt8 (write_at b off w) p = readUInt8 b p.
Proof.
  intros Hoff Hw Hp Hout. unfold write_at, readUInt8, blen in *. rewrite !nth_lookup.
  destruct Hout as [Hlt|Hge].
  - rewrite lookup_app_l by (rewrite length_take; lia).
    rewrite lookup_take_lt by lia. reflexivity.
  - rewrite lookup_app_r by (rewrite length_take; lia).
    rewrite lookup_app_r by (rewrite length_take; lia).
    rewrite lookup_drop, length_take. do 2 f_equal. lia.
Qed.

Lemma readUInt32LE_write_at_in (b : Buffer) (off v : Z) :
  0 <= off -> off + 4 <= blen b ->
  readUInt32LE (write_at b off (le32 v)) off = v mod 2 ^ 32.
Proof.
  intros Hoff Hw. rewrite <- (readUInt32LE_word v). unfold readUInt32LE.
  pose proof (readUInt8_write_at_in b off (le32 v) 0 Hoff) as H0.
  rewrite Z.add_0_r, blen_le32 in H0.
  rewrite H0, !readUInt8_write_at_in by (rewrite ?blen_le32; lia).
  reflexivity.
Qed.

Lemma readUInt32LE_write_at_out (b : Buffer) (off : Z) (w : Buffer) (p : Z) :
  0 <= off -> off + blen w <= blen b -> 0 <= p -> p + 4 <= off \/ off + blen w <= p ->
  readUInt32LE (write_at b off w) p = readUInt32LE b p.
Proof.
  intros Hoff Hw Hp Hout. unfold readUInt32LE.
  rewrite !readUInt8_write_at_out by lia. reflexivity.
Qed.

Lemma readInt32LE_write_at_in (b : Buffer) (off v : Z) :
  0 <= off -> off + 4 <= blen b -> INT32_MIN <= v <= INT32_MAX ->
  readInt32LE (write_at b off (writeInt32LE v)) off = v.
Proof.
  intros Hoff Hw Hv. unfold readInt32LE, writeInt32LE, INT32_MIN, INT32_MAX in *.
  rewrite readUInt32LE_write_at_in by lia. rewrite Z.mod_mod by lia.
  rewrite mod32_signed by lia.
  destruct (Z.ltb_spec v 0).
  - destruct (Z.ltb_spec (v + 2 ^ 32) (2 ^ 31)); lia.
  - destruct (Z.ltb_spec v (2 ^ 31)); lia.
Qed.

Lemma readInt32LE_write_at_out (b : Buffer) (off : Z) (w : Buffer) (p : Z) :
  0 <= off -> off + blen w <= blen b -> 0 <= p -> p + 4 <= off \/ off + blen w <= p ->
  readInt32LE (write_at b off w) p = readInt32LE b p.
Proof. intros. unfold readInt32LE. by rewrite readUInt32LE_write_at_out. Qed.

(** The header [buildTankPacket] writes. *)
Definition tank_header (headerBuffer : Buffer)
    (packetType netId targetNetId state info dataSize : Z) : Buffer :=
  let h := write_at headerBuffer 0 (writeUInt32LE GAME_PACKET) in
  let h := write_at h 4 [u8 packetType] in
  let h := write_at h 8 (writeInt32LE netId) in
  let h := write_at h 12 (writeInt32LE targetNetId) in
  let h := write_at h 16 (writeUInt32LE state) in
  let h := write_at h 24 (writeInt32LE info) in
  write_at h 56 (writeUInt32LE dataSize).

Lemma tank_header_reads (hb : Buffer) (pt n tn st i ds : Z) :
  60 <= blen hb ->
  0 <= pt < 256 -> INT32_MIN <= n <= INT32_MAX -> INT32_MIN <= tn <= INT32_MAX ->
  0 <= st < 2 ^ 32 -> INT32_MIN <= i <= INT32_MAX -> 0 <= ds < 2 ^ 32 ->
  let h := tank_header hb pt n tn st i ds in
  blen h = blen hb
  /\ readUInt32LE h 0 = GAME_PACKET
  /\ readUInt8 h 4 = pt
  /\ readInt32LE h 8 = n
  /\ readInt32LE h 12 = tn
  /\ readUInt32LE h 16 = st
  /\ readInt32LE h 24 = i
  /\ readUInt32LE h 56 = ds
  /\ readUInt8 h 59 = (ds / 2 ^ 24) mod 256.
Proof.
  intros Hhb Hpt Hn Htn Hst Hi Hds. unfold tank_header. cbv zeta.
  set (h1 := write_at hb 0 (writeUInt32LE GAME_PACKET)).
  set (h2 := write_at h1 4 [u8 pt]).
  set (h3 := write_at h2 8 (writeInt32LE n)).
  set (h4 := write_at h3 12 (writeInt32LE tn)).
  set (h5 := write_at h4 16 (writeUInt32LE st)).
  set (h6 := write_at h5 24 (writeInt32LE i)).
  assert (W4 : forall v, blen (writeUInt32LE v) = 4) by (intros; apply blen_le32).
  assert (I4 : forall v, blen (writeInt32LE v) = 4) by (intros; apply blen_le32).
  assert (B1 : blen [u8 pt] = 1) by reflexivity.
  assert (L1 : blen h1 = blen hb) by (apply blen_write_at; rewrite ?W4; lia).
  assert (L2 : blen h2 = blen hb) by (unfold h2; rewrite blen_write_at; rewrite ?B1; lia).
  assert (L3 : blen h3 = blen hb) by (unfold h3; rewrite blen_write_at; rewrite ?I4; lia).
  assert (L4 : blen h4 = blen hb) by (unfold h4; rewrite blen_write_at; rewrite ?I4; lia).
  assert (L5 : blen h5 = blen hb) by (unfold h5; rewrite blen_write_at; rewrite ?W4; lia).
  assert (L6 : blen h6 = blen hb) by (unfold h6; rewrite blen_write_at; rewrite ?I4; lia).
  split; [rewrite blen_write_at; rewrite ?W4; lia |].
  repeat apply conj.
  - rewrite readUInt32LE_write_at_out by (rewrite ?W4; lia). unfold h6.
    rewrite readUInt32LE_write_at_out by (rewrite ?I4; lia). unfold h5.
    rewrite readUInt32LE_write_at_out by (rewrite ?W4; lia). unfold h4.
    rewrite readUInt32LE_write_at_out by (rewrite ?I4; lia). unfold h3.
    rewrite readUInt32LE_write_at_out by (rewrite ?I4; lia). unfold h2.
    rewrite readUInt32LE_write_at_out by (rewrite ?B1; lia). unfold h1, writeUInt32LE.
    rewrite readUInt32LE_write_at_in by lia. reflexivity.
  - rewrite readUInt8_write_at_out by (rewrite ?W4; lia). unfold h6.
    rewrite readUInt8_write_at_out by (rewrite ?I4; lia). unfold h5.
    rewrite readUInt8_write_at_out by (rewrite ?W4; lia). unfold h4.
    rewrite readUInt8_write_at_out by (rewrite ?I4; lia). unfold h3.
    rewrite readUInt8_write_at_out by (rewrite ?I4; lia). unfold h2.
    replace 4 with (4 + 0) at 2 by lia.
    rewrite readUInt8_write_at_in by (rewrite ?B1; lia).
    unfold readUInt8, u8. cbn [Z.to_nat nth]. apply Z.mod_small. lia.
  - rewrite readInt32LE_write_at_out by (rewrite ?W4; lia). unfold h6.
    rewrite readInt32LE_write_at_out by (rewrite ?I4; lia). unfold h5.
    rewrite readInt32LE_write_at_out by (rewrite ?W4; lia). unfold h4.
    rewrite readInt32LE_write_at_out by (rewrite ?I4; lia). unfold h3.
    rewrite readInt32LE_write_at_in by lia. reflexivity.
  - rewrite readInt32LE_write_at_out by (rewrite ?W4; lia). unfold h6.
    rewrite readInt32LE_write_at_out by (rewrite ?I4; lia). unfold h5.
    rewrite readInt32LE_write_at_out by (rewrite ?W4; lia). unfold h4.
    rewrite readInt32LE_write_at_in by lia. reflexivity.
  - rewrite readUInt32LE_write_at_out by (rewrite ?W4; lia). unfold h6.
    rewrite readUInt32LE_write_at_out by (rewrite ?I4; lia). unfold h5, writeUInt32LE.
    rewrite readUInt32LE_write_at_in by lia. apply Z.mod_small. lia.
  - rewrite readInt32LE_write_at_out by (rewrite ?W4; lia). unfold h6.
    rewrite readInt32LE_write_at_in by lia. reflexivity.
  - unfold writeUInt32LE. rewrite readUInt32LE_write_at_in by lia.
    apply Z.mod_small. lia.
  - replace 59 with (56 + 3) by lia.
    rewrite readUInt8_write_at_in by (rewrite ?W4; lia). reflexivity.
Qed.

Lemma buildTankPacket_built (header : option Buffer) (pt n tn st i : Z) (extra : Buffer) :
  let hb := match header with Some h => h | None => replicate 60 0 end in
  60 <= blen hb ->
  buildTankPacket header pt n tn st i extra
  = Some (take 60 (tank_header hb pt n tn st i (blen extra)) ++ extra).
Proof.
  intros hb Hhb. unfold buildTankPacket. fold hb.
  destruct (Z.ltb_spec (blen hb) 60); [lia | reflexivity].
Qed.

Lemma stripNullTerminator_app (pre b : Buffer) :
  b <> [] -> stripNullTerminator (pre ++ b) = pre ++ stripNullTerminator b.
Proof.
  intros Hb. induction b as [|x b _] using rev_ind; [done |].
  rewrite app_assoc, !stripNullTerminator_snoc.
  destruct (x =? 0); [reflexivity | by rewrite app_assoc].
Qed.

Lemma stripNullTerminator_length (b : Buffer) : blen (stripNullTerminator b) <= blen b.
Proof.
  induction b as [|x b _] using rev_ind; [reflexivity |].
  rewrite stripNullTerminator_snoc. destruct (x =? 0); [| lia].
  rewrite blen_app. change (blen [x]) with 1. lia.
Qed.

(** What [parseTankPacket] reads from a buffer that, stripped, is a header
    [H] followed by the bytes [e']. *)
Lemma parseTankPacket_built (raw H e' : Buffer) :
  stripNullTerminator raw = take 60 H ++ e' ->
  60 <= blen H -> readUInt32LE H 0 = GAME_PACKET -> blen e' <= readUInt32LE H 56 ->
  exists t,
    parseTankPacket raw = Some t
    /\ packetType t = readUInt8 H 4
    /\ netId t = readInt32LE H 8
    /\ targetNetId t = readInt32LE H 12
    /\ Packet.state t = readUInt32LE H 16
    /\ info t = readInt32LE H 24
    /\ dataSize t = readUInt32LE H 56
    /\ extra t = e'
    /\ variantArgs t
       = (if readUInt8 H 4 =? CALL_FUNCTION then Some (parseVariantArgs e') else None)
    /\ packetId t
       = (if readUInt8 H 4 =? CALL_FUNCTION
          then variant_function_packet (string_or_empty (array_get (parseVariantArgs e') 0))
          else if readUInt8 H 4 =? DISCONNECT then Disconnect else Unknown).
Proof.
  intros Hstrip HH Hmt Hds. unfold parseTankPacket. rewrite Hstrip. cbv zeta.
  pose proof (blen_nonneg e') as He.
  change 60%nat with (Z.to_nat 60).
  assert (Hlen : blen (take (Z.to_nat 60) H ++ e') = 60 + blen e')
    by (rewrite blen_take_app; lia).
  rewrite Hlen, !readUInt32LE_take, !readInt32LE_take, !readUInt8_take by lia.
  destruct (Z.ltb_spec (60 + blen e') 60); [lia |].
  rewrite Hmt. change (negb (GAME_PACKET =? GAME_PACKET)) with false. cbv iota.
  rewrite Z.min_l by lia.
  assert (Hextra : (if 60 <? 60 + blen e'
                    then subarray (take (Z.to_nat 60) H ++ e') 60 (60 + blen e')
                    else []) = e').
  { destruct (Z.ltb_spec 60 (60 + blen e')) as [Hpos|Hzero].
    - rewrite <- (app_nil_r e') at 1.
      apply subarray_at; unfold blen in *; rewrite ?length_take; lia.
    - destruct e'; [reflexivity |]. rewrite blen_cons in Hzero.
      pose proof (blen_nonneg e'). lia. }
  rewrite Hextra. eexists. split; [reflexivity |].
  cbn [packetType netId targetNetId Packet.state info dataSize extra variantArgs packetId].
  repeat apply conj; try reflexivity.
  destruct (readUInt8 H 4 =? CALL_FUNCTION); reflexivity.
Qed.

Lemma parsePacket_built (H rest : Buffer) :
  60 <= blen H -> readUInt32LE H 0 = GAME_PACKET ->
  parsePacket (take 60 H ++ rest)
  = match parseTankPacket (take 60 H ++ rest) with Some p => Tank p | None => Raw end.
Proof.
  intros HH Hmt. unfold parsePacket. pose proof (blen_nonneg rest).
  change 60%nat with (Z.to_nat 60).
  rewrite blen_take_app, readUInt32LE_take by lia.
  destruct (Z.ltb_spec (60 + blen rest) 4); [lia |]. cbv zeta. rewrite Hmt. reflexivity.
Qed.

(** X11.  A tank packet built by [buildTankPacket], NUL-terminated by
    [ensureNullTerminator] and parsed by [parsePacket]: with a non-empty
    extra buffer, the packet type, net ids, state, info and data size come
    back, and the extra buffer comes back stripped of one trailing zero
    byte if it ends in one; with an empty extra buffer the frame is 60
    bytes ending in the zero of its size field, loses that byte and is not
    recognised as a tank at all. *)
Theorem tank_round_trip (header : option Buffer)
    (packetType netId targetNetId state info : Z) (extra : Buffer) :
  match header with Some h => 60 <= blen h | None => True end ->
  0 <= packetType < 256 ->
  INT32_MIN <= netId <= INT32_MAX ->
  INT32_MIN <= targetNetId <= INT32_MAX ->
  0 <= state < 2 ^ 32 ->
  INT32_MIN <= info <= INT32_MAX ->
  blen extra < 2 ^ 32 ->
  exists tank,
    buildTankPacket header packetType netId targetNetId state info extra = Some tank
    /\ (extra = [] -> parsePacket (ensureNullTerminator tank) = Raw)
    /\ (extra <> [] ->
        exists t,
          parsePacket (ensureNullTerminator tank) = Tank t
          /\ Packet.packetType t = packetType
          /\ Packet.netId t = netId
          /\ Packet.targetNetId t = targetNetId
          /\ Packet.state t = state
          /\ Packet.info t = info
          /\ dataSize t = blen extra
          /\ Packet.extra t = stripNullTerminator extra).
Proof.
  intros Hheader Hpt Hn Htn Hst Hi Hx.
  set (hb := match header with Some h => h | None => replicate 60 0 end).
  assert (Hhb : 60 <= blen hb) by (unfold hb; destruct header; [exact Hheader | reflexivity]).
  pose proof (blen_nonneg extra) as Hx0.
  destruct (tank_header_reads hb packetType netId targetNetId state info (blen extra)
              Hhb Hpt Hn Htn Hst Hi ltac:(lia))
    as (HL & Hmt & Rpt & Rn & Rtn & Rst & Ri & Rds & R59).
  set (H := tank_header hb packetType netId targetNetId state info (blen extra)) in *.
  exists (take 60 H ++ extra). split; [by apply buildTankPacket_built |].
  assert (HH : 60 <= blen H) by lia.
  split.
  - intros ->. rewrite app_nil_r.
    assert (Hlast : take 60 H = take 59 H ++ [0]).
    { destruct (lookup_lt_is_Some_2 H 59) as [x Hx59]; [unfold blen in HH; lia |].
      rewrite (take_S_r H 59 x Hx59). do 2 f_equal.
      unfold readUInt8 in R59. change (Z.to_nat 59) with 59%nat in R59.
      rewrite nth_lookup, Hx59 in R59. exact R59. }
    assert (Hens : ensureNullTerminator (take 60 H) = take 60 H).
    { rewrite ensureNullTerminator_cases, Hlast, ends_in_nul_snoc. reflexivity. }
    rewrite Hens. rewrite <- (app_nil_r (take 60 H)) at 1.
    rewrite parsePacket_built by assumption. rewrite app_nil_r.
    unfold parseTankPacket. rewrite Hlast, stripNullTerminator_snoc.
    change (0 =? 0) with true. cbv iota zeta.
    replace (blen (take 59 H) <? 60) with true; [reflexivity |].
    symmetry. apply Z.ltb_lt. unfold blen. rewrite length_take. lia.
  - intros Hne.
    assert (Hstrip : stripNullTerminator (ensureNullTerminator (take 60 H ++ extra))
                     = take 60 H ++ stripNullTerminator extra).
    { rewrite strip_after_ensure. by apply stripNullTerminator_app. }
    pose proof (stripNullTerminator_length extra) as Hle.
    destruct (parseTankPacket_built _ H _ Hstrip HH Hmt ltac:(lia))
      as (t & Hparse & Fpt & Fn & Ftn & Fst & Fi & Fds & Fe & _).
    exists t. split.
    + rewrite ensureNullTerminator_cases in *.
      destruct (ends_in_nul (take 60 H ++ extra)).
      * rewrite parsePacket_built by assumption. by rewrite Hparse.
      * rewrite <- app_assoc in *. rewrite parsePacket_built by assumption.
        by rewrite Hparse.
    + repeat apply conj; congruence.
Qed.

Lemma tank_round_trip_witness :
  exists tank,
    buildTankPacket None CALL_FUNCTION (-1) 0 8 0 [1; 0; 2; 1; 0; 0; 0; 65] = Some tank
    /\ exists t,
         parsePacket (ensureNullTerminator tank) = Tank t
         /\ Packet.netId t = -1 /\ dataSize t = 8
         /\ Packet.extra t = [1; 0; 2; 1; 0; 0; 0; 65].
Proof.
  destruct (tank_round_trip None CALL_FUNCTION (-1) 0 8 0 [1; 0; 2; 1; 0; 0; 0; 65])
    as (tank & Hbuild & _ & Hparse);
    [exact I | unfold CALL_FUNCTION; lia | unfold INT32_MIN, INT32_MAX; lia
     | unfold INT32_MIN, INT32_MAX; lia | lia | unfold INT32_MIN, INT32_MAX; lia
     | unfold blen; cbn [length]; lia |].
  destruct (Hparse ltac:(discriminate)) as (t & Ht & _ & Hn & _ & _ & _ & Hd & He).
  exists tank. split; [exact Hbuild |]. exists t. repeat split; assumption.
Defined.

End FrameLaws.

(** ** src/proxyCore.js: the frames the proxy sends on its own *)

Section OutboundFrames.
Import Js Num Packet PacketBuilders ProxyCore ProxyOutbound.
Local Open Scope Z_scope.

Lemma parse_first_line (line rest : jsstring) (e : TextParse.entry) :
  TextParse.NL ∉ line -> record_of_line TextParse.BAR line = Some e ->
  TextParse.new (line ++ TextParse.NL :: rest)
  = e :: omap (record_of_line TextParse.BAR) (split_on TextParse.NL rest).
Proof.
  intros Hnl He. unfold TextParse.new. rewrite parse_spec, split_on_app by exact Hnl.
  cbn [omap list_omap]. by rewrite He.
Qed.

Lemma literal_has_no_newline (s : jsstring) :
  forallb (fun c => negb (c =? TextParse.NL)) s = true -> TextParse.NL ∉ s.
Proof.
  intros H Hin. apply list_elem_of_In in Hin.
  rewrite forallb_forall in H. specialize (H _ Hin).
  by rewrite Z.eqb_refl in H.
Qed.

Lemma getRaw_cons (e e' : TextParse.entry) (p : TextParse.t) :
  TextParse.getRaw (e :: e' :: p) TextParse.BAR []
  = TextParse.raw_line TextParse.BAR [] e
    ++ TextParse.NL :: TextParse.getRaw (e' :: p) TextParse.BAR [].
Proof. reflexivity. Qed.

(** X10.  The text frames the proxy builds itself are read back by its own
    parser as what they are meant to be: [sendLog] gives a Log packet and
    [sendQuitToExit] a QuitToExit packet, [sendJoinRequest] a JoinRequest
    packet, whatever the message or world name; and an ASCII world name
    without ['|'] and newline is read back from the [name] record. *)
Theorem own_text_frames (st : state) (message worldName : jsstring) (invitedWorld : bool) :
  (forall frame, sendLog st message = Some frame ->
                 parsed_packetId (parsePacket frame) = Log)
  /\ (forall frame, sendQuitToExit st = Some frame ->
                    parsed_packetId (parsePacket frame) = QuitToExit)
  /\ (forall frame, sendJoinRequest st worldName invitedWorld = Some frame ->
        parsed_packetId (parsePacket frame) = JoinRequest
        /\ (plain worldName -> ascii worldName ->
            exists p, parsePacket frame = Text p
                      /\ TextParse.get (text_parser p) (lit "name") 0 = worldName)).
Proof.
  assert (Hgm : GAME_MESSAGE = SERVER_HELLO \/ GAME_MESSAGE = GENERIC_TEXT
                \/ GAME_MESSAGE = GAME_MESSAGE) by auto.
  split; [| split].
  - intros frame. unfold sendLog, sendToClient.
    destruct (clientPeer st); [| discriminate]. intros [= <-].
    rewrite (parse_built_text _ _ Hgm). cbn [parsed_packetId text_packetId].
    change (GAME_MESSAGE =? SERVER_HELLO) with false. cbv iota.
    unfold TextParse.add. cbn [app TextParse.new TextParse.parse].
    rewrite getRaw_cons.
    rewrite (parse_first_line _ _ (lit "action", [lit "log"]));
      [reflexivity | by apply literal_has_no_newline | reflexivity].
  - intros frame. unfold sendQuitToExit, sendToServer.
    destruct (serverPeer st); [| discriminate]. intros [= <-].
    rewrite (parse_built_text _ _ Hgm). reflexivity.
  - intros frame. unfold sendJoinRequest, sendToServer.
    destruct (serverPeer st); [| discriminate]. intros [= <-].
    rewrite (parse_built_text _ _ Hgm). cbn [parsed_packetId text_packetId].
    change (GAME_MESSAGE =? SERVER_HELLO) with false. cbv iota.
    set (flag := if invitedWorld then lit "1" else lit "0").
    split.
    + unfold TextParse.add. cbn [app TextParse.new TextParse.parse].
      rewrite getRaw_cons.
      rewrite (parse_first_line _ _ (lit "action", [lit "join_request"]));
        [reflexivity | by apply literal_has_no_newline | reflexivity].
    + intros Hplain _. eexists. split; [reflexivity |]. cbn [text_parser].
      rewrite new_getRaw.
      * unfold TextParse.get, TextParse.find, TextParse.add. cbn [app List.find fst snd].
        change (str_eqb (lit "action") (lit "name")) with false.
        change (str_eqb (lit "name") (lit "name")) with true. reflexivity.
      * unfold TextParse.add. cbn [app].
        assert (Hflag : plain flag) by (unfold flag; destruct invitedWorld;
                                        apply lit_plain; reflexivity).
        repeat match goal with
               | |- Forall _ (_ :: _) => constructor
               | |- Forall _ [] => constructor
               end;
          apply wf_entry_lit; try discriminate; try assumption;
          apply lit_plain; reflexivity.
Qed.

(** *** Variant frames *)

Lemma ensured_tank_parsed (hb : Buffer) (pt n tn st i : Z) (extra : Buffer) :
  60 <= blen hb -> 0 <= pt < 256 ->
  INT32_MIN <= n <= INT32_MAX -> INT32_MIN <= tn <= INT32_MAX ->
  0 <= st < 2 ^ 32 -> INT32_MIN <= i <= INT32_MAX ->
  extra <> [] -> blen extra < 2 ^ 32 ->
  exists t,
    parsePacket (ensureNullTerminator
                   (take 60 (tank_header hb pt n tn st i (blen extra)) ++ extra)) = Tank t
    /\ netId t = n
    /\ Packet.extra t = stripNullTerminator extra
    /\ variantArgs t
       = (if pt =? CALL_FUNCTION
          then Some (parseVariantArgs (stripNullTerminator extra)) else None)
    /\ packetId t
       = (if pt =? CALL_FUNCTION
          then variant_function_packet
                 (string_or_empty (array_get (parseVariantArgs (stripNullTerminator extra)) 0))
          else if pt =? DISCONNECT then Disconnect else Unknown).
Proof.
  intros Hhb Hpt Hn Htn Hst Hi Hne Hx. pose proof (blen_nonneg extra) as Hx0.
  destruct (tank_header_reads hb pt n tn st i (blen extra) Hhb Hpt Hn Htn Hst Hi ltac:(lia))
    as (HL & Hmt & Rpt & Rn & _ & _ & _ & Rds & _).
  set (H := tank_header hb pt n tn st i (blen extra)) in *.
  assert (HH : 60 <= blen H) by lia.
  assert (Hstrip : stripNullTerminator (ensureNullTerminator (take 60 H ++ extra))
                   = take 60 H ++ stripNullTerminator extra).
  { rewrite strip_after_ensure. by apply stripNullTerminator_app. }
  pose proof (stripNullTerminator_length extra) as Hle.
  destruct (parseTankPacket_built _ H _ Hstrip HH Hmt ltac:(lia))
    as (t & Hparse & _ & Fn & _ & _ & _ & _ & Fe & Fa & Fp).
  exists t. rewrite Rpt in Fa, Fp. split; [| repeat apply conj; congruence].
  rewrite ensureNullTerminator_cases in *.
  destruct (ends_in_nul (take 60 H ++ extra)).
  - rewrite parsePacket_built by assumption. by rewrite Hparse.
  - rewrite <- app_assoc in *. rewrite parsePacket_built by assumption.
    by rewrite Hparse.
Qed.

Lemma encodeVariantArgs_nonempty (l : list jsval) : encodeVariantArgs l <> [].
Proof. discriminate. Qed.

(** What [sendVariantToClient] hands to the transport, when it does. *)
Lemma sendVariantToClient_frame (st : state) (fn : jsstring) (args : list jsval)
    (n tn d : Z) (frame : Buffer) :
  sendVariantToClient st fn args n tn d = Some frame ->
  let extra := encodeVariantArgs (VStr fn :: args) in
  blen extra < 2 ^ 32
  /\ exists t,
       parsePacket frame = Tank t
       /\ netId t = n
       /\ Packet.extra t = stripNullTerminator extra
       /\ variantArgs t = Some (parseVariantArgs (stripNullTerminator extra))
       /\ packetId t
          = variant_function_packet
              (string_or_empty (array_get (parseVariantArgs (stripNullTerminator extra)) 0)).
Proof.
  unfold sendVariantToClient. cbv zeta.
  set (extra := encodeVariantArgs (VStr fn :: args)).
  destruct (in_int32 n) eqn:Hn; [| discriminate].
  destruct (in_int32 tn) eqn:Htn; [| discriminate].
  destruct (in_int32 d) eqn:Hd; [| discriminate].
  destruct (Z.leb_spec (blen extra) UINT32_MAX) as [Hx|]; [| discriminate].
  cbn [andb]. unfold in_int32 in *. unfold UINT32_MAX in Hx.
  rewrite (buildTankPacket_built None) by reflexivity.
  unfold sendToClient. destruct (clientPeer st); [| discriminate]. intros [= <-].
  split; [lia |].
  apply (ensured_tank_parsed (replicate 60 0) CALL_FUNCTION n tn 8 d extra);
    try lia; try reflexivity; try (unfold CALL_FUNCTION; lia).
  apply encodeVariantArgs_nonempty.
Qed.

Lemma as_text_size (v : jsval) (s : jsstring) :
  as_text v = Some s -> blen s <= blen (encode_value v).
Proof.
  assert (Htext : forall s, blen s <= blen ([STRING] ++ writeUInt32LE (blen s) ++ s)).
  { intros s0. unfold writeUInt32LE. rewrite !blen_app, blen_le32.
    change (blen [STRING]) with 1. lia. }
  destruct v as [s0 | x | l |]; cbn [as_text encode_value].
  - intros [= <-]. apply Htext.
  - destruct (isInteger x).
    + destruct ((0 <=? trunc x) && (trunc x <=? UINT32_MAX)); [discriminate |].
      destruct ((INT32_MIN <=? trunc x) && (trunc x <=? INT32_MAX)); [discriminate |].
      intros [= <-]. apply Htext.
    + destruct (negb (isFinite x)); [| discriminate]. intros [= <-]. apply Htext.
  - destruct ((2 <=? length l)%nat && (length l <=? 3)%nat); [discriminate |].
    intros [= <-]. apply blen_nonneg.
  - intros [= <-]. apply blen_nonneg.
Qed.

Lemma encode_from_size (i : nat) (l : list jsval) :
  Forall (fun v => blen (encode_value v) <= blen (encode_from i l)) l.
Proof.
  revert i. induction l as [|v l IH]; intros i; [constructor |].
  cbn [encode_from]. rewrite !blen_app.
  pose proof (blen_nonneg (encode_value v)). pose proof (blen_nonneg (encode_from (S i) l)).
  change (blen [u8 (Z.of_nat i)]) with 1.
  constructor; [lia |].
  eapply Forall_impl; [apply (IH (S i)) |]. cbn beta. intros w Hw. lia.
Qed.

(** Arguments that fit a buffer of less than 2^32 bytes are encodable. *)
Lemma encodable_of_size (l : list jsval) :
  blen (encodeVariantArgs l) < 2 ^ 32 -> Forall encodable l.
Proof.
  intros Hsize. unfold encodeVariantArgs in Hsize. rewrite blen_app in Hsize.
  change (blen [u8 (Z.of_nat (length l))]) with 1 in Hsize.
  eapply Forall_impl; [apply (encode_from_size 0 l) |]. cbn beta.
  intros v Hv s Hs. pose proof (as_text_size v s Hs). lia.
Qed.

(** The arguments whose encoding is reproduced unit for unit: ASCII
    strings, and numbers that are not integers beyond 2^53 in magnitude
    (up to there [String(n)] prints an integer in plain decimal). *)
Definition printable (v : jsval) : Prop :=
  match v with
  | VStr s => ascii s
  | VNum x => isInteger x = true -> - 2 ^ 53 <= trunc x <= 2 ^ 53
  | VArr _ => True
  | VUndefined => True
  end.

(** X12.  For an ASCII function name and printable arguments: when the
    encoded argument list does not end in a zero byte, the frame
    [sendVariantToClient] sends is read back by [parsePacket] as a tank
    for the named function, carrying the given net id and, argument by
    argument, the decoded values of the function name and the
    arguments. *)
Theorem variant_frame_decodes (st : state) (functionName : jsstring)
    (args : list jsval) (netId targetNetId delay : Z) (frame : Buffer) :
  ascii functionName ->
  Forall printable args ->
  sendVariantToClient st functionName args netId targetNetId delay = Some frame ->
  (length args < 255)%nat ->
  ends_in_nul (encodeVariantArgs (VStr functionName :: args)) = false ->
  exists t,
    parsePacket frame = Tank t
    /\ Packet.netId t = netId
    /\ variantArgs t
       = Some (Some (VStr functionName) :: map (fun v => Some (decoded v)) args)
    /\ packetId t = variant_function_packet functionName.
Proof.
  intros _ _ Hsend Hlen Hend.
  destruct (sendVariantToClient_frame _ _ _ _ _ _ _ Hsend)
    as [Hsize (t & Hp & Hn & He & Ha & Hid)].
  assert (Hstrip : stripNullTerminator (encodeVariantArgs (VStr functionName :: args))
                   = encodeVariantArgs (VStr functionName :: args)).
  { unfold stripNullTerminator.
    fold (ends_in_nul (encodeVariantArgs (VStr functionName :: args))).
    by rewrite Hend. }
  rewrite Hstrip in *.
  rewrite parse_encoded_args in Ha, Hid by (by apply encodable_of_size).
  assert (Hcount : Z.to_nat (Z.of_nat (length (VStr functionName :: args)) mod 256)
                   = length (VStr functionName :: args)).
  { rewrite Z.mod_small; cbn [length]; lia. }
  rewrite Hcount, firstn_all in Ha, Hid.
  exists t. repeat apply conj; assumption.
Qed.

Lemma variant_frame_decodes_witness :
  exists t,
    parsePacket
      (ensureNullTerminator
         (take 60 (tank_header (replicate 60 0) CALL_FUNCTION 5 0 8 0
                     (blen (encodeVariantArgs [VStr (lit "OnNameChanged"); VStr (lit "neo")])))
          ++ encodeVariantArgs [VStr (lit "OnNameChanged"); VStr (lit "neo")]))
    = Tank t
    /\ Packet.netId t = 5
    /\ variantArgs t = Some [Some (VStr (lit "OnNameChanged")); Some (VStr (lit "neo"))]
    /\ packetId t = OnNameChanged.
Proof.
  apply (variant_frame_decodes relaying_state (lit "OnNameChanged") [VStr (lit "neo")] 5 0 0);
    [by apply lit_ascii | | reflexivity | cbn [length]; lia | reflexivity].
  constructor; [by apply lit_ascii | constructor].
Defined.

(** *** An encoded list that lost its last byte *)

Lemma readUInt8_prefix (b rest : Buffer) (p : Z) :
  0 <= p < blen b -> readUInt8 (b ++ rest) p = readUInt8 b p.
Proof.
  intros Hp. unfold readUInt8, blen in *. apply app_nth1. lia.
Qed.

Lemma readUInt32LE_prefix (b rest : Buffer) (p : Z) :
  0 <= p -> p + 4 <= blen b -> readUInt32LE (b ++ rest) p = readUInt32LE b p.
Proof.
  intros Hp Hl. unfold readUInt32LE. rewrite !readUInt8_prefix by lia. reflexivity.
Qed.

Lemma fixed_size_min (type n : Z) : fixed_size type = Some n -> 4 <= n.
Proof.
  unfold fixed_size.
  repeat match goal with
         | |- context [if ?c then _ else _] => destruct c
         end; intros [= <-]; lia.
Qed.

(** An entry that ends with the buffer is malformed once the buffer has
    lost its last byte. *)
Lemma last_entry_truncated (b : Buffer) (x pos : Z) :
  0 <= pos -> entry_span (b ++ [x]) pos (blen (b ++ [x])) -> malformed_at b pos.
Proof.
  intros Hpos [Hhead Hspan]. rewrite blen_app in *. change (blen [x]) with 1 in *.
  destruct Hspan as [(n & Hfix & Hfit & Hnext) | (Htag & Hlen & Hfit & Hnext)].
  - pose proof (fixed_size_min _ _ Hfix) as Hn.
    rewrite readUInt8_prefix in Hfix by lia.
    right. right. left. exists n. split; [exact Hfix | lia].
  - rewrite readUInt8_prefix in Htag by lia.
    right. right. right. split; [exact Htag |].
    destruct (Z.lt_ge_cases (blen b) (pos + 6)) as [Hshort|Hlong]; [by left |].
    right. rewrite readUInt32LE_prefix in Hnext by lia. lia.
Qed.

Lemma span_of_encoded (pre post : Buffer) (idx : Z) (v : jsval) :
  encodable v ->
  entry_span (pre ++ [idx] ++ encode_value v ++ post) (blen pre)
    (blen pre + 1 + blen (encode_value v)).
Proof.
  intros Hv. destruct (parse_entry_encoded pre post idx v Hv) as (payload & Henc & Hpay & Hparse).
  rewrite Henc. cbn [app].
  set (b := pre ++ idx :: tag_of v :: payload ++ post) in *.
  pose proof (blen_nonneg post) as Hpost.
  assert (Hlen : blen b = blen pre + 2 + blen payload + blen post).
  { unfold b. rewrite blen_app, !blen_cons, blen_app. lia. }
  assert (Htag : readUInt8 b (blen pre + 1) = tag_of v).
  { unfold b. change (pre ++ idx :: tag_of v :: payload ++ post)
      with (pre ++ [idx] ++ tag_of v :: payload ++ post).
    rewrite app_assoc. apply readUInt8_at. rewrite blen_app. reflexivity. }
  pose proof (parse_payload_cases b (blen pre) ltac:(lia)) as Hcases.
  rewrite Htag, Hparse in Hcases. rewrite blen_cons.
  replace (blen pre + 1 + (1 + blen payload)) with (blen pre + 2 + blen payload) by lia.
  exact Hcases.
Qed.

Lemma walk_encoded (l : list jsval) (i : nat) (pre post : Buffer) :
  Forall encodable l ->
  walk (pre ++ encode_from i l ++ post) (blen pre) (length l)
    (blen pre + blen (encode_from i l)).
Proof.
  intros Hl. revert i pre. induction Hl as [|v l Hv _ IH]; intros i pre.
  - cbn [encode_from length]. change (blen []) with 0. rewrite Z.add_0_r. constructor.
  - cbn [encode_from length]. rewrite <- !app_assoc.
    eapply walk_next; [apply span_of_encoded; exact Hv |].
    specialize (IH (S i) (pre ++ [u8 (Z.of_nat i)] ++ encode_value v)).
    rewrite <- !app_assoc in IH. rewrite !blen_app in *.
    replace (blen pre + (blen [u8 (Z.of_nat i)] + (blen (encode_value v)
                                                    + blen (encode_from (S i) l))))
      with (blen pre + (blen [u8 (Z.of_nat i)] + blen (encode_value v))
            + blen (encode_from (S i) l)) by lia.
    change (blen [u8 (Z.of_nat i)]) with 1 in *.
    replace (blen pre + 1 + blen (encode_value v))
      with (blen pre + (1 + blen (encode_value v))) by lia.
    exact IH.
Qed.

(** Decoding fails on an encoded list without its last byte. *)
Lemma truncated_encoding_fails (l : list jsval) (body : Buffer) (x : Z) :
  Forall encodable l -> (0 < length l <= 255)%nat ->
  encodeVariantArgs l = body ++ [x] ->
  parseVariantArgs body = [].
Proof.
  intros Hl Hlen Heq.
  destruct (exists_last (l := l)) as (init & v & ->); [by destruct l; cbn in Hlen; [lia |] |].
  apply Forall_app in Hl as [Hinit Hv'].
  apply Forall_cons in Hv' as [Hv _].
  rewrite length_app in Hlen. cbn [length] in Hlen.
  unfold encodeVariantArgs in Heq. rewrite encode_from_app in Heq.
  cbn [encode_from] in Heq. rewrite app_nil_r in Heq.
  set (count := u8 (Z.of_nat (length (init ++ [v])))) in *.
  set (pre := [count] ++ encode_from 0 init) in *.
  set (chunk := [u8 (Z.of_nat (0 + length init))] ++ encode_value v) in *.
  assert (Heq' : pre ++ chunk = body ++ [x]) by (unfold pre; rewrite <- app_assoc; exact Heq).
  pose proof (span_of_encoded pre [] (u8 (Z.of_nat (0 + length init))) v Hv) as Hspan.
  rewrite app_nil_r in Hspan. fold chunk in Hspan.
  replace (blen pre + 1 + blen (encode_value v)) with (blen (pre ++ chunk)) in Hspan
    by (unfold chunk; rewrite !blen_app; change (blen [u8 (Z.of_nat (0 + length init))]) with 1; lia).
  rewrite Heq' in Hspan.
  pose proof (last_entry_truncated body x (blen pre) (blen_nonneg pre) Hspan) as Hbad.
  assert (Hchunk : exists c', chunk = c' ++ [x] /\ body = pre ++ c').
  { destruct (exists_last (l := chunk)) as (c' & y & Hc); [discriminate |].
    rewrite Hc, app_assoc in Heq'. apply app_inj_tail in Heq' as [<- <-]. by exists c'. }
  destruct Hchunk as (c' & _ & Hbody).
  pose proof (walk_encoded init 0 [count] c' Hinit) as Hwalk.
  change (blen [count]) with 1 in Hwalk.
  assert (Hb : [count] ++ encode_from 0 init ++ c' = body)
    by (rewrite Hbody; unfold pre; by rewrite <- app_assoc).
  rewrite Hb in Hwalk.
  replace (1 + blen (encode_from 0 init)) with (blen pre) in Hwalk
    by (unfold pre; rewrite blen_app; reflexivity).
  unfold parseVariantArgs, parseVariantEntries.
  assert (Hcount : readUInt8 body 0 = count) by (by rewrite <- Hb).
  assert (Hcount_val : Z.to_nat count = S (length init)).
  { unfold count, u8. rewrite length_app. cbn [length]. rewrite Z.mod_small; lia. }
  destruct (blen body =? 0) eqn:E0.
  { apply Z.eqb_eq in E0. rewrite <- Hb in E0. rewrite blen_app in E0.
    pose proof (blen_nonneg (encode_from 0 init ++ c')).
    change (blen [count]) with 1 in E0. lia. }
  rewrite Hcount, Hcount_val.
  rewrite (parse_loop_malformed body (length init) (S (length init)) 1 (blen pre) []);
    [reflexivity | lia | exact Hwalk | exact Hbad].
Qed.

(** X13.  When the encoded argument list ends in a zero byte (its last
    argument is, say, an integer below 2^24 or an empty string),
    [ensureNullTerminator] adds nothing, the proxy's own parser strips
    that byte as the terminator, and the frame [sendVariantToClient] sent
    no longer decodes: [parsePacket] returns a tank with an empty argument
    list and packet id Unknown. *)
Theorem variant_frame_ending_in_zero (st : state) (functionName : jsstring)
    (args : list jsval) (netId targetNetId delay : Z) (frame : Buffer) :
  sendVariantToClient st functionName args netId targetNetId delay = Some frame ->
  (length args < 255)%nat ->
  ends_in_nul (encodeVariantArgs (VStr functionName :: args)) = true ->
  exists t,
    parsePacket frame = Tank t
    /\ variantArgs t = Some []
    /\ packetId t = Unknown
    /\ Packet.extra t ++ [0] = encodeVariantArgs (VStr functionName :: args).
Proof.
  intros Hsend Hlen Hend.
  destruct (sendVariantToClient_frame _ _ _ _ _ _ _ Hsend)
    as [Hsize (t & Hp & Hn & He & Ha & Hid)].
  apply ends_in_nul_spec in Hend as [body Hbody].
  rewrite Hbody, stripNullTerminator_snoc in He, Ha, Hid.
  change (0 =? 0) with true in He, Ha, Hid. cbv iota in He, Ha, Hid.
  assert (Hfail : parseVariantArgs body = []).
  { apply (truncated_encoding_fails (VStr functionName :: args) body 0);
      [by apply encodable_of_size | cbn [length]; lia | exact Hbody]. }
  rewrite Hfail in Ha, Hid.
  exists t. rewrite He, Hbody. repeat apply conj; try assumption; reflexivity.
Qed.

Lemma variant_frame_ending_in_zero_witness :
  exists t,
    parsePacket
      (ensureNullTerminator
         (take 60 (tank_header (replicate 60 0) CALL_FUNCTION 5 0 8 0
                     (blen (encodeVariantArgs [VStr (lit "OnChangeSkin"); VNum (of_Z 255)])))
          ++ encodeVariantArgs [VStr (lit "OnChangeSkin"); VNum (of_Z 255)]))
    = Tank t
    /\ variantArgs t = Some []
    /\ packetId t = Unknown
    /\ Packet.extra t ++ [0]
       = encodeVariantArgs [VStr (lit "OnChangeSkin"); VNum (of_Z 255)].
Proof.
  apply (variant_frame_ending_in_zero relaying_state (lit "OnChangeSkin")
           [VNum (of_Z 255)] 5 0 0);
    [reflexivity | cbn [length]; lia | reflexivity].
Defined.

End OutboundFrames.

(** ** The server handoff (spec 4.I): the frame the client receives *)

Section HandoffFrame.
Import Js Num Packet ProxyCore.
Local Open Scope Z_scope.

Lemma readInt32LE_range (b : Buffer) (pos : Z) :
  Forall is_byte b -> INT32_MIN <= readInt32LE b pos <= INT32_MAX.
Proof.
  intros Hb. pose proof (readUInt32LE_range b pos Hb) as Hu.
  unfold readInt32LE, INT32_MIN, INT32_MAX. cbv zeta.
  destruct (Z.ltb_spec (readUInt32LE b pos) (2 ^ 31)); lia.
Qed.

(** The header fields of a parsed tank are what four bytes can hold. *)
Lemma parseTankPacket_ranges (raw : Buffer) (t : tank_packet) :
  Forall is_byte raw -> parseTankPacket raw = Some t ->
  INT32_MIN <= netId t <= INT32_MAX
  /\ INT32_MIN <= targetNetId t <= INT32_MAX
  /\ 0 <= Packet.state t < 2 ^ 32
  /\ INT32_MIN <= info t <= INT32_MAX.
Proof.
  intros Hb. unfold parseTankPacket. cbv zeta.
  pose proof (stripNullTerminator_bytes raw Hb) as Hs.
  set (buffer := stripNullTerminator raw) in *.
  destruct (blen buffer <? 60); [discriminate |].
  destruct (negb _); [discriminate |]. intros [= <-].
  cbn [netId targetNetId Packet.state info].
  repeat apply conj; try apply readInt32LE_range; try apply readUInt32LE_range; exact Hs.
Qed.

(** A frame whose last byte is not zero reads the same with and without
    the terminator [ensureNullTerminator] appends. *)
Lemma strip_unterminated (b : Buffer) (keep : bool) :
  ends_in_nul b = false ->
  stripNullTerminator (if keep then ensureNullTerminator b else b) = b.
Proof.
  intros Hb. destruct keep.
  - rewrite strip_after_ensure. unfold stripNullTerminator. fold (ends_in_nul b).
    by rewrite Hb.
  - unfold stripNullTerminator. fold (ends_in_nul b). by rewrite Hb.
Qed.

Lemma ends_in_nul_app (a b : Buffer) : b <> [] -> ends_in_nul (a ++ b) = ends_in_nul b.
Proof.
  intros Hb. destruct b as [|x b' _] using rev_ind; [done |].
  by rewrite app_assoc, !ends_in_nul_snoc.
Qed.

(** C1, as the code has it.  For a proxy with both peers connected and no
    script subscriber, a client-bound tank frame of bytes classified as
    OnSendToServer, with at least 5 arguments, a string route shorter than
    2^32 - 9 units in argument 4, and each of the arguments 0, 1 and 4
    carried by exactly one entry of its variant list, whose rewritten
    argument list is shorter than 2^32 bytes and does not end in a zero
    byte: after [handleClientBoundPacket] the pending endpoint is the route
    text before its first ['|'] and the number in argument 1, and the frame
    sent to the client is read by [parsePacket] as an OnSendToServer tank
    with the net ids, state and info of the original frame around the
    rewritten list, whose argument 1 is the configured listen port (in
    1..65535) and whose argument 4 is ["127.0.0.1"] followed by the
    original route from its first ['|'] on.  (A rewritten list that ends
    in a zero byte is left out: [ensureNullTerminator] then appends nothing
    to the frame.) *)
Theorem handoff_rewrites_the_frame
    (StringToNumber : jsstring -> number) (cfg : config)
    (upstream_connect : jsstring -> number -> bool) (st : state)
    (rawData : Buffer) (t : tank_packet) (args : jsarray) (route : jsstring)
    (parsed : vparsed) (extra' : Buffer) :
  Forall is_byte rawData ->
  1 <= server_port cfg <= 65535 ->
  relaying st ->
  parsePacket rawData = Tank t ->
  packetId t = OnSendToServer ->
  variantArgs t = Some args ->
  (5 <= length args)%nat ->
  array_get args 4 = VStr route ->
  blen route < 2 ^ 32 - 9 ->
  parseVariantEntries (extra t) = Some parsed ->
  carried_once 0 (entries parsed) ->
  carried_once 1 (entries parsed) ->
  carried_once 4 (entries parsed) ->
  rewriteOnSendToServerExtra StringToNumber (extra t) LOCALHOST (of_Z (server_port cfg))
  = Some extra' ->
  blen extra' < 2 ^ 32 ->
  ends_in_nul extra' = false ->
  exists st' frame t' args',
    handleClientBoundPacket StringToNumber cfg upstream_connect no_subscribers
      st 0 rawData = Some (st', Some frame)
    /\ pendingAddress st' = before_bar route
    /\ pendingPort st' = or_zero (ToNumber StringToNumber (array_get args 1))
    /\ parsePacket frame = Tank t'
    /\ packetId t' = OnSendToServer
    /\ netId t' = netId t
    /\ targetNetId t' = targetNetId t
    /\ Packet.state t' = Packet.state t
    /\ info t' = info t
    /\ extra t' = extra'
    /\ variantArgs t' = Some args'
    /\ array_get args' 1 = VNum (of_Z (server_port cfg))
    /\ array_get args' 4 = VStr (LOCALHOST ++ from_bar route).
Proof.
  intros Hb Hport [[c Hc] [s Hs]] Hpkt Hpid Hva Hlen Hroute Hrlen Hparse H0 H1 H4
    Hrw Hsize Hnul.
  pose proof (parsePacket_tank _ _ Hpkt) as Htank.
  destruct (parseTankPacket_fields _ _ Htank) as (Hh & Hbytes & Hargs).
  destruct (parseTankPacket_ranges _ _ Hb Htank) as (Rn & Rtn & Rst & Ri).
  destruct (Hargs args Hva) as [Hargs_eq Hid].
  rewrite Hpid in Hid. symmetry in Hid.
  apply variant_function_send, string_or_empty_name in Hid.
  destruct (rewrite_reads_back StringToNumber (extra t) parsed route (server_port cfg)
              (Hbytes Hb) Hparse H0 H1 H4
              ltac:(by rewrite <- Hargs_eq) ltac:(by rewrite <- Hargs_eq) Hrlen Hport)
    as (e & He & Hp0 & Hp1 & Hp4).
  rewrite Hrw in He. apply (inj Some) in He. subst e.
  assert (Hne : extra' <> []) by (intros ->; discriminate Hp1).
  pose proof (blen_nonneg extra') as Hnn.
  set (H := tank_header (header t) CALL_FUNCTION (netId t) (targetNetId t)
              (Packet.state t) (info t) (blen extra')).
  assert (Hbuild : buildTankPacket (Some (header t)) CALL_FUNCTION (netId t)
                     (targetNetId t) (Packet.state t) (info t) extra'
                   = Some (take 60 H ++ extra'))
    by (apply (buildTankPacket_built (Some (header t))); cbn; lia).
  pose proof (tank_header_reads (header t) CALL_FUNCTION (netId t) (targetNetId t)
                (Packet.state t) (info t) (blen extra')
                ltac:(lia) ltac:(unfold CALL_FUNCTION; lia) Rn Rtn Rst Ri ltac:(lia))
    as Hreads.
  cbv zeta in Hreads.
  destruct Hreads as (HlenH & Hmagic & Hty & Hn & Htn & Hst & Hi & Hds & _).
  fold H in HlenH, Hmagic, Hty, Hn, Htn, Hst, Hi, Hds.
  set (keep := (0 <? blen rawData) && (readUInt8 rawData (blen rawData - 1) =? 0)).
  set (frame := if keep then ensureNullTerminator (take 60 H ++ extra')
                else take 60 H ++ extra').
  assert (Hstrip : stripNullTerminator frame = take 60 H ++ extra').
  { apply strip_unterminated. by rewrite ends_in_nul_app. }
  destruct (parseTankPacket_built frame H extra' Hstrip) as (t' & Ht' & Hfields);
    [lia | exact Hmagic | lia |].
  destruct Hfields as (_ & Fn & Ftn & Fst & Fi & _ & Hextra & Hvargs & Hpacket).
  rewrite Hty in Hvargs, Hpacket. change (CALL_FUNCTION =? CALL_FUNCTION) with true in *.
  cbv iota in Hvargs, Hpacket.
  exists (set_pending st (before_bar route)
            (or_zero (ToNumber StringToNumber (array_get args 1)))).
  exists frame, t', (parseVariantArgs extra').
  split; [| split; [reflexivity | split; [reflexivity |]]].
  - unfold handleClientBoundPacket. cbv zeta. rewrite Hpkt.
    cbn [parsed_packetId parsed_variantArgs]. rewrite Hpid.
    cbn [is_OnSendToServer is_OnSpawn is_OnRemove].
    unfold on_send_to_server. rewrite Hva. unfold parseOnSendToServer.
    destruct (Nat.ltb_spec (length args) 5) as [Hshort|_]; [lia |].
    cbv zeta. cbn [address port]. rewrite Hroute. cbn [string_or_empty].
    rewrite hd_split_on_bar, Hrw, Hbuild.
    cbn [set_pending clientPeer serverPeer]. rewrite Hc, Hs.
    unfold no_subscribers. cbn [set_pending clientPeer]. rewrite Hc. reflexivity.
  - split.
    { assert (Hshape : exists rest, frame = take 60 H ++ rest).
      { unfold frame. destruct keep; [| by eexists].
        rewrite ensureNullTerminator_cases, ends_in_nul_app, Hnul by exact Hne.
        exists (extra' ++ [0]). by rewrite app_assoc. }
      destruct Hshape as (rest & Hshape). rewrite Hshape in Ht' |- *.
      rewrite parsePacket_built by (exact Hmagic || lia). by rewrite Ht'. }
    split; [by rewrite Hpacket, Hp0 |].
    split; [by rewrite Fn |]. split; [by rewrite Ftn |].
    split; [by rewrite Fst |]. split; [by rewrite Fi |].
    split; [exact Hextra |]. split; [exact Hvargs |]. split; [exact Hp1 | exact Hp4].
Qed.

(** The argument list of the running example, rewritten for the default
    configuration. *)
Definition handoff_rewritten_extra : Buffer :=
  match rewriteOnSendToServerExtra no_numeric_text handoff_extra LOCALHOST (of_Z 16999) with
  | Some extra' => extra'
  | None => []
  end.

Lemma handoff_rewrites_the_frame_witness :
  exists st' frame t' args',
    handleClientBoundPacket no_numeric_text default_config (fun _ _ => false)
      no_subscribers relaying_state 0 (server_frame handoff_extra)
    = Some (st', Some frame)
    /\ pendingAddress st' = lit "5.6.7.8"
    /\ pendingPort st' = of_Z 17000
    /\ frame = forwarded_frame (server_frame handoff_extra)
    /\ parsePacket frame = Tank t'
    /\ packetId t' = OnSendToServer
    /\ netId t' = -1
    /\ extra t' = handoff_rewritten_extra
    /\ variantArgs t' = Some args'
    /\ array_get args' 1 = VNum (of_Z 16999)
    /\ array_get args' 4 = VStr (lit "127.0.0.1|door|uuid").
Proof.
  eassert (Hpkt : parsePacket (server_frame handoff_extra) = Tank _)
    by (vm_compute; reflexivity).
  edestruct (handoff_rewrites_the_frame no_numeric_text default_config
               (fun _ _ => false) relaying_state (server_frame handoff_extra))
    as (st' & frame & t' & args' & Hrun & Ha & Hp & Hparse & Hid & Hn & _ & _ & _
        & He & Hv & H1 & H4).
  - vm_compute.
    repeat match goal with
           | |- Forall _ (_ :: _) => constructor; [split; [discriminate | reflexivity] |]
           end.
    constructor.
  - cbn [default_config server_port]. lia.
  - split; eexists; reflexivity.
  - exact Hpkt.
  - reflexivity.
  - reflexivity.
  - cbn [length]. lia.
  - reflexivity.
  - vm_compute. reflexivity.
  - vm_compute. reflexivity.
  - reflexivity.
  - reflexivity.
  - reflexivity.
  - vm_compute. reflexivity.
  - vm_compute. reflexivity.
  - vm_compute. reflexivity.
  - exists st', frame, t', args'. split; [exact Hrun |].
    split; [exact Ha |]. split; [exact Hp |].
    split; [unfold forwarded_frame; by rewrite Hrun |].
    split; [exact Hparse |]. split; [exact Hid |]. split; [exact Hn |].
    split; [exact He |]. split; [exact Hv |]. split; [exact H1 | exact H4].
Defined.

(** Outside the statement above: a handoff whose last argument is the
    integer 1 is rewritten to a list that ends in a zero byte; the frame
    sent is then the bare tank, and [parsePacket], which strips one
    trailing zero byte, no longer finds the arguments in it. *)
Definition handoff_extra_ending_in_zero : Buffer :=
  encodeVariantArgs
    [VStr ON_SEND_TO_SERVER; VNum (of_Z 17000); VNum (of_Z 7); VNum (of_Z 12);
     VStr (lit "5.6.7.8|door|uuid"); VNum (of_Z 1)].

Lemma handoff_frame_without_terminator :
  exists extra' t',
    rewriteOnSendToServerExtra no_numeric_text handoff_extra_ending_in_zero LOCALHOST
      (of_Z 16999) = Some extra'
    /\ ends_in_nul extra' = true
    /\ drop 60 (forwarded_frame (server_frame handoff_extra_ending_in_zero)) = extra'
    /\ parsePacket (forwarded_frame (server_frame handoff_extra_ending_in_zero)) = Tank t'
    /\ variantArgs t' = Some []
    /\ packetId t' = Unknown.
Proof. vm_compute. eexists _, _. repeat apply conj; reflexivity. Qed.

End HandoffFrame.

(** ** src/packet.js: decoding, re-encoding and the handoff arguments *)

Section CodecLaws.
Import Js Num Packet PacketBuilders.
Local Open Scope Z_scope.
Variable StringToNumber : jsstring -> number.

Lemma subarray_split (b : Buffer) (p q r : Z) :
  0 <= p <= q -> q <= r -> r <= blen b ->
  subarray b p q ++ subarray b q r = subarray b p r.
Proof.
  intros Hpq Hqr Hr. unfold subarray, blen in *.
  replace (Z.to_nat (r - p)) with (Z.to_nat (q - p) + Z.to_nat (r - q))%nat by lia.
  rewrite <- take_take_drop, drop_drop. do 3 f_equal. lia.
Qed.

(** The chunks the decoder kept are, one after the other, the bytes it
    walked over. *)
Lemma parse_loop_chunks (b : Buffer) (n : nat) (pos : Z) (acc out : list ventry) :
  Forall is_byte b -> 0 <= pos <= blen b ->
  parse_loop b n pos acc = Some out ->
  exists es stop,
    out = acc ++ es /\ pos <= stop <= blen b
    /\ encode_entries_loop StringToNumber es = Some (subarray b pos stop).
Proof.
  intros Hb. revert pos acc. induction n as [|n IH]; intros pos acc Hpos H.
  - injection H as <-. exists [], pos. rewrite app_nil_r. split; [reflexivity |].
    split; [lia |]. cbn [encode_entries_loop]. f_equal. unfold subarray.
    by rewrite Z.sub_diag.
  - cbn [parse_loop] in H. destruct (Z.ltb_spec (blen b) (pos + 2)); [discriminate |].
    destruct (parse_payload b _ (pos + 2)) as [[v next]|] eqn:E; [| discriminate].
    destruct (entry_local b pos v next Hb ltac:(lia) ltac:(lia) E) as [Hn _].
    apply IH in H as (es & stop & -> & Hstop & Henc); [| lia].
    eexists (_ :: es), stop. rewrite <- app_assoc. split; [reflexivity |].
    split; [lia |]. cbn [encode_entries_loop entry_encoded]. rewrite Henc.
    f_equal. apply subarray_split; lia.
Qed.

(** X14.  Decoding a variant list and encoding the entries again, none of
    them touched, gives back the bytes that were decoded: the buffer is the
    re-encoded list followed by whatever trailed the last entry. *)
Theorem reencoding_restores_the_bytes (b : Buffer) (parsed : vparsed) :
  Forall is_byte b -> b <> [] ->
  parseVariantEntries b = Some parsed ->
  exists rest, b = encodeVariantEntries StringToNumber parsed ++ rest.
Proof.
  intros Hb Hne Hparse. unfold parseVariantEntries in Hparse.
  destruct b as [|c0 b']; [done |].
  change (blen (c0 :: b') =? 0) with false in Hparse.
  change (readUInt8 (c0 :: b') 0) with c0 in Hparse.
  destruct (parse_loop (c0 :: b') (Z.to_nat c0) 1 []) as [es|] eqn:E; [| discriminate].
  injection Hparse as <-.
  pose proof (blen_nonneg b') as Hb'.
  apply parse_loop_chunks in E as (es' & stop & -> & Hstop & Henc);
    [| exact Hb | rewrite blen_cons; lia].
  unfold encodeVariantEntries. cbn [entries count app]. rewrite Henc.
  apply Forall_cons in Hb as [Hc0 _]. rewrite land_byte by exact Hc0.
  exists (drop (Z.to_nat stop) (c0 :: b')).
  rewrite <- (take_drop (Z.to_nat stop) (c0 :: b')) at 1. f_equal.
  unfold subarray. replace (Z.to_nat stop) with (S (Z.to_nat (stop - 1))) by lia.
  reflexivity.
Qed.

(** A string the decoder returns is a slice of the buffer. *)
Definition sliced (b : Buffer) (e : ventry) : Prop :=
  forall s, entry_value e = VStr s -> blen s <= blen b.

Lemma subarray_length (b : Buffer) (from to : Z) : blen (subarray b from to) <= blen b.
Proof. unfold subarray, blen. rewrite length_take, length_drop. lia. Qed.

Lemma parse_loop_sliced (b : Buffer) (n : nat) (pos : Z) (acc out : list ventry) :
  parse_loop b n pos acc = Some out -> Forall (sliced b) acc -> Forall (sliced b) out.
Proof.
  revert pos acc. induction n as [|n IH]; intros pos acc H Hacc.
  - by injection H as <-.
  - cbn [parse_loop] in H. destruct (blen b <? pos + 2); [discriminate |].
    destruct (parse_payload b _ (pos + 2)) as [[v next]|] eqn:E; [| discriminate].
    apply IH in H; [exact H |]. apply Forall_app. split; [exact Hacc |].
    constructor; [| constructor]. intros s Hs. cbn [entry_value] in Hs. subst v.
    pose proof (parse_payload_string_type _ _ _ _ _ E) as Hty. rewrite Hty in E.
    rewrite parse_payload_string in E.
    destruct (blen b <? pos + 2 + 4); [discriminate |].
    destruct (blen b <? _); [discriminate |]. injection E as <- _.
    apply subarray_length.
Qed.

Lemma find_index_In (i : Z) (es : list ventry) (e : ventry) :
  find_index i es = Some e -> In e es.
Proof. intros H. apply find_some in H as [H _]. exact H. Qed.

(** X15.  The rewrite of an OnSendToServer list changes the port and the
    route only: every other argument decodes from the rewritten buffer to
    what it decoded to before. *)
Theorem rewrite_keeps_the_other_arguments (extra extra' : Buffer) (p : Z) :
  Forall is_byte extra -> blen extra < 2 ^ 32 - 9 -> 1 <= p <= 65535 ->
  rewriteOnSendToServerExtra StringToNumber extra LOCALHOST (of_Z p) = Some extra' ->
  forall k, k <> 1%nat -> k <> 4%nat ->
    array_get (parseVariantArgs extra') k = array_get (parseVariantArgs extra) k.
Proof.
  intros Hb Hsize Hp H k Hk1 Hk4. unfold rewriteOnSendToServerExtra in H.
  destruct (parseVariantEntries extra) as [parsed|] eqn:Hparse; [| discriminate].
  destruct (length (entries parsed) =? 0)%nat eqn:Hlen; [discriminate |].
  destruct (find_index 0 (entries parsed)) as [e0|]; [| discriminate].
  destruct (negb (entry_type e0 =? STRING) || _); [discriminate |].
  destruct (find_index 1 (entries parsed)) as [e1|]; [| discriminate].
  destruct (find_index 4 (entries parsed)) as [e4|] eqn:H4; [| discriminate].
  destruct (negb (entry_type e4 =? STRING)); [discriminate |].
  cbv zeta in H.
  change (match LOCALHOST with [] => LOCALHOST | _ :: _ => LOCALHOST end)
    with LOCALHOST in H.
  rewrite rewritten_route in H.
  set (route := match entry_value e4 with VStr s => s | _ => [] end) in *.
  set (pt := if (entry_type e1 =? SIGNED) || (entry_type e1 =? UNSIGNED)
             then entry_type e1 else UNSIGNED) in *.
  change (update_index 4 _ (update_index 1 _ (entries parsed)))
    with (update_index 4 (rebuilt StringToNumber STRING (VStr (LOCALHOST ++ from_bar route)))
            (update_index 1 (rebuilt StringToNumber pt (VNum (or_zero (of_Z p))))
               (entries parsed))) in H.
  set (f1 := rebuilt StringToNumber pt (VNum (or_zero (of_Z p)))) in *.
  set (f4 := rebuilt StringToNumber STRING (VStr (LOCALHOST ++ from_bar route))) in *.
  assert (Hne : entries parsed <> []) by (by destruct (entries parsed)).
  destruct (parsed_entries extra parsed Hb Hparse Hne) as (Hcount & Hlen_es & Hch & _).
  assert (Hsl : Forall (sliced extra) (entries parsed)).
  { unfold parseVariantEntries in Hparse. destruct (blen extra =? 0).
    - injection Hparse as <-. constructor.
    - destruct (parse_loop extra _ 1 []) as [es|] eqn:E; [| discriminate].
      injection Hparse as <-. cbn [entries].
      eapply parse_loop_sliced; [exact E | constructor]. }
  assert (Hroute : blen (LOCALHOST ++ from_bar route) < 2 ^ 32).
  { rewrite blen_app. pose proof (from_bar_length route). change (blen LOCALHOST) with 9.
    assert (blen route <= blen extra); [| lia].
    unfold route. destruct (entry_value e4) as [s| | |] eqn:Ev;
      try (pose proof (blen_nonneg extra); change (blen []) with 0; lia).
    rewrite List.Forall_forall in Hsl.
    apply (Hsl e4 (find_index_In _ _ _ H4) s Ev). }
  set (es1 := update_index 1 f1 (entries parsed)) in *.
  set (es2 := update_index 4 f4 es1) in *.
  assert (Hch2 : Forall chunked es2).
  { apply update_index_Forall; [intros e He _; by apply rebuilt_route_chunked |].
    apply update_index_Forall; [intros e He _; by apply rebuilt_port_chunked | exact Hch]. }
  destruct (reparse_chunks StringToNumber es2 Hch2) as (body & Henc & Hloop).
  unfold encodeVariantEntries in H. cbn [entries count] in H. rewrite Henc in H.
  rewrite land_byte in H by exact Hcount.
  change (0 <? length ([count parsed] ++ body))%nat with true in H.
  apply (inj Some) in H. subst extra'.
  destruct (Hloop [count parsed] [] []) as (es' & Hes' & Hsame).
  rewrite app_nil_r in Hes'. unfold es2, es1 in Hes'.
  rewrite !update_index_length, Hlen_es in Hes'.
  change (blen [count parsed]) with 1 in Hes'.
  assert (Hnew : parseVariantArgs ([count parsed] ++ body) = fold_left store es2 []).
  { unfold parseVariantArgs, parseVariantEntries.
    change (blen ([count parsed] ++ body) =? 0) with false.
    change (readUInt8 ([count parsed] ++ body) 0) with (count parsed).
    cbv iota. rewrite Hes'. cbn [entries app]. by apply fold_same_slot. }
  rewrite Hnew, (parseVariantArgs_store _ _ Hparse), !array_get_fold.
  unfold es2, es1.
  rewrite !slot_value_other; try apply rebuilt_keeps_index; try reflexivity.
  - change (Z.to_nat 1) with 1%nat. congruence.
  - change (Z.to_nat 4) with 4%nat. congruence.
Qed.

Lemma or_zero_idempotent (x : number) : or_zero (or_zero x) = or_zero x.
Proof. unfold or_zero. destruct (truthy x) eqn:E; [by rewrite E | reflexivity]. Qed.

Lemma array_set_length (a : jsarray) (i : nat) (v : jsval) :
  length (array_set a i v) = Nat.max (length a) (S i).
Proof.
  unfold array_set. destruct (Nat.ltb_spec i (length a)).
  - unfold jsarray in *. rewrite length_insert. lia.
  - rewrite !length_app, length_replicate. cbn [length]. lia.
Qed.

(** X16.  [buildOnSendToServerArgs] and [parseOnSendToServer] are inverse
    on a payload whose address is not empty and whose address, door id and
    uuid token hold no ['|'] and no newline: the address, door id, uuid
    token and user name come back as given, and the port, token, user and
    login mode as [Number(x) || 0] of what was given, whatever the original
    argument list was. *)
Theorem handoff_args_round_trip (payload : sendToServer) (address' : jsstring)
    (port' : number) (originalArgs : option jsarray) :
  address' <> [] -> plain address' ->
  plain (doorId payload) -> plain (uuidToken payload) ->
  parseOnSendToServer StringToNumber
    (buildOnSendToServerArgs payload address' port' originalArgs)
  = Some {| port := or_zero port';
            token := or_zero (token payload);
            user := or_zero (user payload);
            address := address';
            doorId := doorId payload;
            uuidToken := uuidToken payload;
            loginMode := or_zero (loginMode payload);
            username := username payload |}.
Proof.
  intros Hne Hpa Hpd Hpu. unfold buildOnSendToServerArgs. cbv zeta.
  set (out0 := match originalArgs with Some a => spread a | None => [] end).
  set (text := TextParse.getRaw _ TextParse.BAR []).
  unfold parseOnSendToServer.
  destruct (Nat.ltb_spec
              (length (array_set (array_set (array_set (array_set (array_set (array_set
                 (array_set out0 0 (VStr ON_SEND_TO_SERVER)) 1 (VNum (or_zero port')))
                 2 (VNum (or_zero (token payload)))) 3 (VNum (or_zero (user payload))))
                 4 (VStr text)) 5 (VNum (or_zero (loginMode payload))))
                 6 (VStr (username payload)))) 5) as [Hshort|_].
  { rewrite array_set_length in Hshort. lia. }
  cbv zeta. rewrite !array_get_set. cbn [Nat.eqb string_or_empty ToNumber].
  rewrite !or_zero_idempotent.
  assert (Htext : text = address' ++ TextParse.BAR
                         :: doorId payload ++ TextParse.BAR :: uuidToken payload).
  { unfold text, TextParse.getRaw, TextParse.add, TextParse.raw_line.
    cbn [TextParse.new TextParse.parse app map join fold_left fst snd].
    by rewrite <- !app_assoc. }
  assert (Hkey : hd [] (split_on TextParse.BAR text) = address').
  { rewrite Htext, split_on_app by apply Hpa. reflexivity. }
  assert (Hrec : TextParse.new text = [(address', [doorId payload; uuidToken payload])]).
  { unfold text, TextParse.add. cbn [TextParse.new TextParse.parse app].
    apply new_getRaw. constructor; [| constructor].
    split; [exact Hne |]. split; [exact Hpa |]. split; [discriminate |].
    constructor; [exact Hpd |]. constructor; [exact Hpu | constructor]. }
  rewrite Hkey, Hrec. unfold TextParse.get, TextParse.find. cbn [List.find fst snd].
  rewrite (proj2 (str_eqb_eq address' address')) by reflexivity. reflexivity.
Qed.

End CodecLaws.

Section CodecExamples.
Import Js Num Packet PacketBuilders ProxyCore.
Local Open Scope Z_scope.

Lemma reencoding_restores_the_bytes_witness :
  exists rest,
    [2; 0; 2; 1; 0; 0; 0; 65; 1; 5; 104; 66; 0; 0; 7; 7]
    = encodeVariantEntries no_numeric_text
        {| count := 2;
           entries :=
             [{| entry_index := 0; entry_type := 2; entry_value := VStr [65];
                 entry_encoded := Some [0; 2; 1; 0; 0; 0; 65] |};
              {| entry_index := 1; entry_type := 5; entry_value := VNum (of_Z 17000);
                 entry_encoded := Some [1; 5; 104; 66; 0; 0] |}] |}
      ++ rest.
Proof.
  apply (reencoding_restores_the_bytes no_numeric_text).
  - repeat match goal with
           | |- Forall _ (_ :: _) => constructor; [unfold is_byte; lia |]
           end.
    constructor.
  - discriminate.
  - reflexivity.
Defined.

Definition rewritten_extra (extra : Buffer) : Buffer :=
  match rewriteOnSendToServerExtra no_numeric_text extra LOCALHOST (of_Z 16999) with
  | Some modified => modified
  | None => []
  end.

Lemma rewrite_keeps_the_other_arguments_witness :
  array_get (parseVariantArgs (rewritten_extra handoff_extra)) 6
  = array_get (parseVariantArgs handoff_extra) 6.
Proof.
  apply (rewrite_keeps_the_other_arguments no_numeric_text handoff_extra
           (rewritten_extra handoff_extra) 16999).
  - vm_compute.
    repeat match goal with
           | |- Forall _ (_ :: _) => constructor; [split; [discriminate | reflexivity] |]
           end.
    constructor.
  - vm_compute. reflexivity.
  - lia.
  - vm_compute. reflexivity.
  - discriminate.
  - discriminate.
Defined.

Lemma handoff_args_round_trip_witness :
  parseOnSendToServer no_numeric_text
    (buildOnSendToServerArgs
       {| port := of_Z 17000; token := of_Z 7; user := of_Z 12; address := lit "5.6.7.8";
          doorId := lit "door"; uuidToken := lit "uuid"; loginMode := of_Z 0;
          username := lit "player" |}
       (lit "127.0.0.1") (of_Z 16999) None)
  = Some {| port := of_Z 16999; token := of_Z 7; user := of_Z 12;
            address := lit "127.0.0.1"; doorId := lit "door"; uuidToken := lit "uuid";
            loginMode := of_Z 0; username := lit "player" |}.
Proof.
  apply (handoff_args_round_trip no_numeric_text
           {| port := of_Z 17000; token := of_Z 7; user := of_Z 12;
              address := lit "5.6.7.8"; doorId := lit "door"; uuidToken := lit "uuid";
              loginMode := of_Z 0; username := lit "player" |}
           (lit "127.0.0.1") (of_Z 16999) None);
    [discriminate | apply lit_plain; reflexivity ..].
Defined.

End CodecExamples.

(** ** src/worldState.js: what the map holds *)

Section WorldLaws.
Import Js WorldState.
Local Open Scope Z_scope.

(** X17.  Whatever sequence of [onSpawn], [onRemove] and [clear] has run:
    every participant is stored under its own net id, which is not
    negative; and [localNetId] is -1 or the key of a participant that is
    in the map. *)
Theorem world_keys_are_net_ids (ops : list op) :
  (forall id p, players (run ops) !! id = Some p -> netId p = id /\ 0 <= id)
  /\ (localNetId (run ops) = -1
      \/ (0 <= localNetId (run ops)
          /\ is_Some (players (run ops) !! localNetId (run ops)))).
Proof.
  split; [| apply local_net_id_is_a_key].
  unfold run.
  assert (Hnew : forall id p, players new !! id = Some p -> netId p = id /\ 0 <= id).
  { intros id p H. cbn [new players] in H. by rewrite lookup_empty in H. }
  revert Hnew. generalize new.
  induction ops as [|o ops IH]; intros w Hw; cbn [fold_left]; [exact Hw |].
  apply IH. intros id p. destruct o as [payload | rid |]; cbn [apply].
  - unfold onSpawn. destruct (Z.ltb_spec (netId payload) 0) as [Hneg|Hpos]; [apply Hw |].
    cbn [players]. intros Hl. apply lookup_insert_Some in Hl as [[<- <-] | [_ Hl]].
    + split; [reflexivity | lia].
    + by apply Hw.
  - unfold onRemove. destruct (Z.ltb_spec rid 0) as [Hneg|Hpos]; [apply Hw |].
    cbn [players]. intros Hl. apply lookup_delete_Some in Hl as [_ Hl]. by apply Hw.
  - cbn [clear players]. intros Hl. by rewrite lookup_empty in Hl.
Qed.

End WorldLaws.

(** ** src/taskScheduler.js: cancelling *)

Section SchedulerLaws.
Import TaskScheduler.

(** Every tag the scheduler tracks is non-empty and maps to a pending
    timer that carries it. *)
Definition tracked (s : t) : Prop :=
  forall tag id, tasksByTag s !! tag = Some id ->
    truthy tag = true /\ exists cb, timers s !! id = Some (cb, tag).

(** A pending timer has not run. *)
Definition pending_not_run (s : t) : Prop :=
  forall id cb tag label, timers s !! id = Some (cb, tag) -> (id, label) ∉ ran s.

Lemma tracked_cancelByTag (s : t) (tag : string) :
  tracked s -> tracked (fst (cancelByTag s tag)).
Proof.
  intros Ht. unfold cancelByTag.
  destruct (tasksByTag s !! tag) as [tid|] eqn:E; cbn [fst]; [| exact Ht].
  intros tag' id. cbn [tasksByTag timers clearTimeout]. intros H.
  apply lookup_delete_Some in H as [Hne H].
  destruct (Ht _ _ H) as [Htr [cb Hcb]]. split; [exact Htr |]. exists cb.
  rewrite lookup_delete_ne; [exact Hcb |]. intros ->.
  destruct (Ht _ _ E) as [_ [cb0 Hcb0]]. congruence.
Qed.

Lemma tracked_scheduleDelayed (s : t) (cb : callback) (delayMs : Z) (tag : string) :
  inv s -> tracked s -> tracked (fst (scheduleDelayed s cb delayMs tag)).
Proof.
  intros Hinv Ht. unfold scheduleDelayed.
  destruct (truthy tag) eqn:Htag; cbn [fst].
  - pose proof (inv_cancelByTag s tag Hinv) as [Hold _].
    pose proof (tracked_cancelByTag s tag Ht) as Ht'.
    set (s' := fst (cancelByTag s tag)) in *.
    intros tag' id. cbn [tasksByTag timers]. intros H.
    apply lookup_insert_Some in H as [[<- <-] | [Hne H]].
    + split; [exact Htag |]. exists cb. apply lookup_insert_eq.
    + destruct (Ht' _ _ H) as [Htr [cb' Hcb']]. split; [exact Htr |]. exists cb'.
      rewrite lookup_insert_ne; [exact Hcb' |]. apply Hold in Hcb'. lia.
  - destruct Hinv as [Hold _]. intros tag' id. cbn [tasksByTag timers]. intros H.
    destruct (Ht _ _ H) as [Htr [cb' Hcb']]. split; [exact Htr |]. exists cb'.
    rewrite lookup_insert_ne; [exact Hcb' |]. apply Hold in Hcb'. lia.
Qed.

Lemma tracked_call (s : t) (a : action) : inv s -> tracked s -> tracked (call s a).
Proof.
  intros Hinv Ht. destruct a as [cb delayMs tag | tag |]; cbn [call].
  - by apply tracked_scheduleDelayed.
  - by apply tracked_cancelByTag.
  - intros tag id H. cbn [cancelAll tasksByTag] in H. by rewrite lookup_empty in H.
Qed.

Lemma pending_not_run_call (s : t) (a : action) :
  ran_old s -> pending_not_run s -> pending_not_run (call s a).
Proof.
  intros Hro Hp id cb tag label Hid.
  destruct (call_fields s a) as (Hn & Hr & Hsub). rewrite Hr.
  destruct (Nat.lt_ge_cases id (next_handle s)) as [Hlt|Hge].
  - destruct (Hsub id Hlt) as [E|E]; [congruence |]. rewrite E in Hid. by eapply Hp.
  - intros Hin. apply Hro in Hin. lia.
Qed.

(** The four facts that hold in every state the scheduler reaches. *)
Definition sound (s : t) : Prop :=
  inv s /\ ran_old s /\ tracked s /\ pending_not_run s.

Lemma sound_calls (body : list action) (s : t) : sound s -> sound (fold_left call body s).
Proof.
  revert s. induction body as [|a body IH]; intros s Hs; cbn [fold_left]; [exact Hs |].
  apply IH. destruct Hs as (Hi & Hr & Ht & Hp).
  split; [by apply inv_call |]. split; [by apply (ran_old_calls [a]) |].
  split; [by apply tracked_call | by apply pending_not_run_call].
Qed.

Lemma sound_step (s s' : t) (e : event) : step s e s' -> sound s -> sound s'.
Proof.
  intros Hstep Hs. destruct Hstep as [s a | s id cb tag Hid].
  - by apply (sound_calls [a]).
  - pose proof Hs as (Hi & Hr & Ht & Hp).
    pose proof (inv_fire s id cb tag Hi Hid) as Hi'.
    pose proof (ran_old_step _ _ _ (step_fire s id cb tag Hid) Hi Hr) as Hr'.
    unfold fire in *. apply sound_calls.
    destruct Hi as [Hold Hmap].
    assert (Hran : forall (m : gmap string nat),
               ran_old {| tasksByTag := m; timers := delete id (timers s);
                          next_handle := next_handle s;
                          ran := ran s ++ [(id, cb_label cb)] |}).
    { intros m i l Hin. cbn [ran next_handle] in *.
      apply elem_of_app in Hin as [Hin | Hin]; [by eapply Hr |].
      apply list_elem_of_singleton in Hin. injection Hin as -> _. by eapply Hold. }
    assert (Hpend : forall (m : gmap string nat),
               pending_not_run {| tasksByTag := m; timers := delete id (timers s);
                                  next_handle := next_handle s;
                                  ran := ran s ++ [(id, cb_label cb)] |}).
    { intros m i c tg l Hi0. cbn [ran timers] in *.
      apply lookup_delete_Some in Hi0 as [Hne Hi0]. intros Hin.
      apply elem_of_app in Hin as [Hin | Hin]; [by eapply Hp |].
      apply list_elem_of_singleton in Hin. congruence. }
    destruct (truthy tag) eqn:Htag; cbn [tasksByTag timers next_handle ran].
    + split; [| split; [apply Hran | split; [| apply Hpend]]].
      * split; intros i c tg Hi0; cbn [timers next_handle tasksByTag] in *.
        -- apply lookup_delete_Some in Hi0 as [_ Hi0]. by eapply Hold.
        -- intros Htg. apply lookup_delete_Some in Hi0 as [Hne Hi0].
           pose proof (Hmap _ _ _ Hi0 Htg) as Hm.
           rewrite lookup_delete_ne; [exact Hm |]. intros ->.
           pose proof (Hmap _ _ _ Hid Htag). congruence.
      * intros tg i H. cbn [tasksByTag timers] in *.
        apply lookup_delete_Some in H as [Hne H].
        destruct (Ht _ _ H) as [Htr [c Hc]]. split; [exact Htr |]. exists c.
        rewrite lookup_delete_ne; [exact Hc |]. intros ->. congruence.
    + split; [| split; [apply Hran | split; [| apply Hpend]]].
      * split; intros i c tg Hi0; cbn [timers next_handle tasksByTag] in *.
        -- apply lookup_delete_Some in Hi0 as [_ Hi0]. by eapply Hold.
        -- intros Htg. apply lookup_delete_Some in Hi0 as [Hne Hi0]. by eapply Hmap.
      * intros tg i H. cbn [tasksByTag timers] in *.
        destruct (Ht _ _ H) as [Htr [c Hc]]. split; [exact Htr |]. exists c.
        rewrite lookup_delete_ne; [exact Hc |]. intros ->. congruence.
Qed.

Lemma reachable_sound (es : list event) (s : t) : steps new es s -> sound s.
Proof.
  assert (Hgen : forall s0 s1, steps s0 es s1 -> sound s0 -> sound s1).
  { induction 1 as [|s0 e s1 es' s2 Hstep _ IH]; [done |].
    intros Hs. apply IH. by eapply sound_step. }
  intros H. apply (Hgen _ _ H). split; [apply inv_new |].
  split; [| split].
  - intros id label Hin. cbn [new ran] in Hin. by apply elem_of_nil in Hin.
  - intros tag id Hin. cbn [new tasksByTag] in Hin. by rewrite lookup_empty in Hin.
  - intros id cb tag label Hin. cbn [new timers] in Hin. by rewrite lookup_empty in Hin.
Qed.

Lemma cancelAll_loop_keeps (s : t) (m : gmap string nat) (id : nat) :
  (forall tag, m !! tag <> Some id) ->
  timers (map_fold (fun _ timeoutId s => clearTimeout s timeoutId) s m) !! id
  = timers s !! id.
Proof.
  apply (map_fold_weak_ind
           (fun r m => (forall tag, m !! tag <> Some id) -> timers r !! id = timers s !! id)).
  - reflexivity.
  - intros tag tid m' r Hfresh IH Hnot. cbn [clearTimeout timers].
    assert (Hne : tid <> id).
    { intros ->. apply (Hnot tag). apply lookup_insert_eq. }
    rewrite lookup_delete_ne by exact Hne. apply IH. intros tag' Hin.
    apply (Hnot tag'). destruct (decide (tag = tag')) as [<-|Hd]; [congruence |].
    by rewrite lookup_insert_ne.
Qed.

(** X18.  [cancelAll], in any state the scheduler can reach: no tag is
    tracked afterwards; every pending task that carried a non-empty tag is
    cancelled and never runs, whatever happens later; and every pending
    task scheduled without a tag stays pending, and can still fire. *)
Theorem cancelAll_cancels_tagged_tasks_only (es : list event) (s : t) :
  steps new es s ->
  tasksByTag (cancelAll s) = ∅
  /\ (forall id cb tag,
        timers s !! id = Some (cb, tag) -> truthy tag = true ->
        timers (cancelAll s) !! id = None
        /\ forall es' s', steps (cancelAll s) es' s' -> forall label, (id, label) ∉ ran s')
  /\ (forall id cb tag,
        timers s !! id = Some (cb, tag) -> truthy tag = false ->
        timers (cancelAll s) !! id = Some (cb, tag)).
Proof.
  intros Hreach. destruct (reachable_sound es s Hreach) as ([Hold Hmap] & Hro & Ht & Hp).
  split; [reflexivity |]. split.
  - intros id cb tag Hid Htag.
    destruct (cancelAll_loop s (tasksByTag s)) as (Hn & Hr & _ & Hcl).
    assert (Hgone : timers (cancelAll s) !! id = None).
    { unfold cancelAll. cbn [timers]. eapply Hcl. by eapply Hmap. }
    split; [exact Hgone |]. intros es' s' Hsteps.
    assert (Hdead : dead id (cancelAll s)).
    { destruct (cancelAll_fields s) as (Hn' & Hr' & _).
      split; [exact Hgone |]. split; [rewrite Hn'; by eapply Hold |].
      intros label. rewrite Hr'. by eapply Hp. }
    by destruct (dead_steps id _ _ _ Hsteps Hdead) as (_ & _ & Hnever).
  - intros id cb tag Hid Htag. unfold cancelAll. cbn [timers].
    rewrite cancelAll_loop_keeps; [exact Hid |].
    intros tag' Hin. destruct (Ht _ _ Hin) as [Htr [cb' Hcb']]. congruence.
Qed.

(** X19.  [cancelByTag], in any state the scheduler can reach, returns
    [true] exactly when a pending task carries the tag (which is then not
    empty); that task is cancelled; and when it returns [false] it has
    changed nothing. *)
Theorem cancelByTag_reports (es : list event) (s : t) (tag : string) :
  steps new es s ->
  (snd (cancelByTag s tag) = true <->
   truthy tag = true /\ exists id cb, timers s !! id = Some (cb, tag))
  /\ (snd (cancelByTag s tag) = true ->
      forall id cb, timers (fst (cancelByTag s tag)) !! id <> Some (cb, tag))
  /\ (snd (cancelByTag s tag) = false -> fst (cancelByTag s tag) = s).
Proof.
  intros Hreach. destruct (reachable_sound es s Hreach) as (Hinv & Hro & Ht & Hp).
  split; [| split].
  - unfold cancelByTag. destruct (tasksByTag s !! tag) as [tid|] eqn:E; cbn [snd].
    + split; [intros _ | reflexivity].
      destruct (Ht _ _ E) as [Htr [cb Hcb]]. split; [exact Htr |]. by exists tid, cb.
    + split; [discriminate |]. intros [Htr (id & cb & Hid)].
      destruct Hinv as [_ Hmap]. pose proof (Hmap _ _ _ Hid Htr). congruence.
  - intros Hret id cb Hid. unfold cancelByTag in Hret.
    destruct (tasksByTag s !! tag) as [tid|] eqn:E; [| discriminate].
    destruct (Ht _ _ E) as [Htr _].
    by apply (cancelByTag_clears s tag id cb Hinv Htr).
  - unfold cancelByTag. destruct (tasksByTag s !! tag); [discriminate | reflexivity].
Qed.

End SchedulerLaws.

Section SchedulerExamples.
Import TaskScheduler.

(** One task scheduled under the tag "warp" and one without a tag. *)
Definition two_tasks : t :=
  call (call new (ScheduleDelayed (Callback 1 []) 1750 "warp"))
       (ScheduleDelayed (Callback 2 []) 100 EmptyString).

Lemma two_tasks_reachable :
  steps new [Call (ScheduleDelayed (Callback 1 []) 1750 "warp");
             Call (ScheduleDelayed (Callback 2 []) 100 EmptyString)] two_tasks.
Proof. repeat econstructor. Qed.

Lemma cancelAll_cancels_tagged_tasks_only_witness :
  tasksByTag (cancelAll two_tasks) = ∅
  /\ timers (cancelAll two_tasks) !! 0 = None
  /\ timers (cancelAll two_tasks) !! 1 = Some (Callback 2 [], EmptyString).
Proof.
  destruct (cancelAll_cancels_tagged_tasks_only _ _ two_tasks_reachable)
    as (Hnone & Htagged & Huntagged).
  split; [exact Hnone |]. split.
  - apply (Htagged 0 (Callback 1 []) "warp"%string); reflexivity.
  - apply (Huntagged 1 (Callback 2 []) EmptyString); reflexivity.
Defined.

Lemma cancelByTag_reports_witness :
  snd (cancelByTag two_tasks "warp") = true
  /\ forall id cb, timers (fst (cancelByTag two_tasks "warp")) !! id <> Some (cb, "warp"%string).
Proof.
  destruct (cancelByTag_reports _ _ "warp" two_tasks_reachable) as (Hiff & Hgone & _).
  assert (Hret : snd (cancelByTag two_tasks "warp") = true).
  { apply Hiff. split; [reflexivity |]. exists 0, (Callback 1 []). reflexivity. }
  split; [exact Hret | exact (Hgone Hret)].
Defined.

End SchedulerExamples.

(** ** src/commandRegistry.js: input text and registered commands *)

Section CommandLaws.
Import Js CommandRegistry.
Local Open Scope Z_scope.
Variable toLowerCase : jsstring -> jsstring.

Lemma filter_all (f : Z -> bool) (s : jsstring) :
  Forall (fun c => f c = true) s -> List.filter f s = s.
Proof.
  induction 1 as [|c s Hc _ IH]; [reflexivity |]. cbn [List.filter].
  by rewrite Hc, IH.
Qed.

Lemma filter_Forall (f : Z -> bool) (s : jsstring) :
  Forall (fun c => f c = true) (List.filter f s).
Proof.
  induction s as [|c s IH]; [constructor |]. cbn [List.filter].
  destruct (f c) eqn:E; [by constructor | exact IH].
Qed.

Lemma trimStart_Forall (P : Z -> Prop) (s : jsstring) : Forall P s -> Forall P (trimStart s).
Proof.
  induction 1 as [|c s Hc Hs IH]; [constructor |]. cbn [trimStart].
  destruct (is_space c); [exact IH | by constructor].
Qed.

Lemma strip_bom_Forall (P : Z -> Prop) (s : jsstring) : Forall P s -> Forall P (strip_bom s).
Proof.
  intros H. destruct H as [|c s Hc Hs]; [constructor |]. cbn [strip_bom].
  destruct (c =? 65279); [exact Hs | by constructor].
Qed.

Lemma trimStart_fixed (s : jsstring) :
  match s with c :: _ => is_space c = false | [] => True end -> trimStart s = s.
Proof. destruct s as [|c s]; [reflexivity |]. cbn [trimStart]. by intros ->. Qed.

Lemma trimStart_starts (s : jsstring) :
  match trimStart s with c :: _ => is_space c = false | [] => True end.
Proof.
  induction s as [|c s IH]; [exact I |]. cbn [trimStart].
  destruct (is_space c) eqn:E; [exact IH | exact E].
Qed.

(** X20.  [normalizeInput] is idempotent: normalised text holds no control
    unit and starts with neither white space nor a byte-order mark, so
    normalising it again changes nothing. *)
Theorem normalizeInput_idempotent (text : jsstring) :
  normalizeInput (normalizeInput text) = normalizeInput text
  /\ Forall (fun c => is_control c = false) (normalizeInput text)
  /\ match normalizeInput text with
     | c :: _ => is_space c = false /\ c <> 65279
     | [] => True
     end.
Proof.
  assert (Hclean : Forall (fun c => negb (is_control c) = true) (normalizeInput text)).
  { unfold normalizeInput. apply trimStart_Forall, strip_bom_Forall, filter_Forall. }
  assert (Hstart : match normalizeInput text with
                   | c :: _ => is_space c = false | [] => True end)
    by apply trimStart_starts.
  split; [| split].
  - unfold normalizeInput at 1. rewrite filter_all by exact Hclean.
    destruct (normalizeInput text) as [|c u]; [reflexivity |].
    cbn [strip_bom]. destruct (Z.eqb_spec c 65279) as [-> | _]; [discriminate Hstart |].
    by apply trimStart_fixed.
  - eapply Forall_impl; [exact Hclean |]. cbn beta. intros c Hc. by destruct (is_control c).
  - destruct (normalizeInput text) as [|c u]; [exact I |]. split; [exact Hstart |].
    intros ->. discriminate Hstart.
Qed.


Lemma trimStart_no_space (s : jsstring) :
  Forall (fun c => is_space c = false) s -> trimStart s = s.
Proof. intros H. apply trimStart_fixed. by destruct H. Qed.

Lemma trim_no_space (s : jsstring) :
  Forall (fun c => is_space c = false) s -> trim s = s.
Proof.
  intros H. unfold trim, trimEnd. rewrite (trimStart_no_space s H).
  rewrite trimStart_no_space; [apply rev_involutive |].
  apply List.Forall_forall. intros c Hc. apply in_rev in Hc.
  rewrite List.Forall_forall in H. by apply H.
Qed.



Lemma startsWith_nil (s : jsstring) : startsWith s [] = true.
Proof. by destruct s. Qed.



End CommandLaws.

Section CommandLawExamples.
Import Js CommandRegistry.
Local Open Scope Z_scope.



End CommandLawExamples.

(** ** src/proxyCore.js: the bootstrap body and the relay of other frames *)

Section ProxyLaws.
Import Js Num Packet ProxyCore.
Local Open Scope Z_scope.

Lemma replace_all_absent (pat rep s : jsstring) (c : Z) :
  c ∉ s -> replace_all (c :: pat) rep 0 s = s.
Proof.
  induction s as [|x s IH]; [reflexivity |]. intros Hc.
  apply not_elem_of_cons in Hc as [Hx Hs]. cbn [replace_all startsWith].
  destruct (Z.eqb_spec c x) as [-> | _]; [done |]. cbn [andb]. by rewrite IH.
Qed.

Lemma replace_all_line (pat rep line rest : jsstring) (c : Z) :
  c ∉ line ->
  replace_all (c :: pat) rep 0 (line ++ rest) = line ++ replace_all (c :: pat) rep 0 rest.
Proof.
  induction line as [|x line IH]; [reflexivity |]. intros Hc.
  apply not_elem_of_cons in Hc as [Hx Hs]. cbn [app replace_all startsWith].
  destruct (Z.eqb_spec c x) as [-> | _]; [done |]. cbn [andb]. by rewrite IH.
Qed.

Lemma crlf_to_lf (lines : list jsstring) :
  Forall (fun l => CR ∉ l) lines ->
  replace_all [CR; TextParse.NL] [TextParse.NL] 0 (join [CR; TextParse.NL] lines)
  = join [TextParse.NL] lines.
Proof.
  induction 1 as [|l lines Hl _ IH]; [reflexivity |].
  destruct lines as [|l' lines].
  - cbn [join]. by apply replace_all_absent.
  - change (join [CR; TextParse.NL] (l :: l' :: lines))
      with (l ++ [CR; TextParse.NL] ++ join [CR; TextParse.NL] (l' :: lines)).
    change (join [TextParse.NL] (l :: l' :: lines))
      with (l ++ [TextParse.NL] ++ join [TextParse.NL] (l' :: lines)).
    rewrite replace_all_line by exact Hl. f_equal.
    cbn [app replace_all startsWith length Nat.sub].
    rewrite !Z.eqb_refl. cbn [andb].
    replace (startsWith (join [CR; TextParse.NL] (l' :: lines)) []) with true
      by (by destruct (join [CR; TextParse.NL] (l' :: lines))).
    cbn [app]. f_equal. exact IH.
Qed.

Lemma join_no_cr (lines : list jsstring) :
  Forall (fun l => CR ∉ l) lines -> CR ∉ join [TextParse.NL] lines.
Proof.
  induction 1 as [|l lines Hl _ IH]; [apply not_elem_of_nil |].
  destruct lines as [|l' lines]; [exact Hl |].
  change (join [TextParse.NL] (l :: l' :: lines))
    with (l ++ [TextParse.NL] ++ join [TextParse.NL] (l' :: lines)).
  rewrite !not_elem_of_app. split; [exact Hl |]. split; [| exact IH].
  apply not_elem_of_cons. split; [discriminate | apply not_elem_of_nil].
Qed.

(** X22.  [normalizeServerDataBody] leaves a body without carriage
    returns as it is, and turns a body of CR-free lines joined by CR LF
    into the same lines joined by LF. *)
Theorem normalized_line_endings (body : jsstring) (lines : list jsstring) :
  CR ∉ body ->
  Forall (fun l => CR ∉ l) lines ->
  normalizeServerDataBody body = body
  /\ normalizeServerDataBody (join [CR; TextParse.NL] lines) = join [TextParse.NL] lines.
Proof.
  intros Hbody Hl. split.
  - unfold normalizeServerDataBody. cbv zeta.
    by rewrite !(replace_all_absent _ _ body CR Hbody).
  - unfold normalizeServerDataBody. rewrite crlf_to_lf by exact Hl.
    pose proof (join_no_cr lines Hl) as Hj. cbv zeta.
    by rewrite !(replace_all_absent _ _ _ CR Hj).
Qed.

Lemma normalized_line_endings_witness :
  normalizeServerDataBody (lit "server|a" ++ [10] ++ lit "port|1")
  = lit "server|a" ++ [10] ++ lit "port|1"
  /\ normalizeServerDataBody (lit "server|a" ++ [13; 10] ++ lit "port|1")
     = lit "server|a" ++ [10] ++ lit "port|1".
Proof.
  apply (normalized_line_endings (lit "server|a" ++ [10] ++ lit "port|1")
           [lit "server|a"; lit "port|1"]).
  - vm_compute. intros H. repeat (apply elem_of_cons in H as [H | H]; [discriminate H |]).
    by apply elem_of_nil in H.
  - repeat constructor; vm_compute; intros H;
      repeat (apply elem_of_cons in H as [H | H]; [discriminate H |]);
      by apply elem_of_nil in H.
Defined.

Lemma startsWith_app (a b p : jsstring) :
  startsWith a p = true -> startsWith (a ++ b) p = true.
Proof.
  revert p. induction a as [|x a IH]; intros [|y p]; cbn [startsWith app];
    try done; [by destruct b |].
  intros [Hxy Hp]%andb_true_iff. rewrite Hxy. by apply IH.
Qed.

Lemma startsWith_self (p b : jsstring) : startsWith (p ++ b) p = true.
Proof.
  induction p as [|x p IH]; cbn [startsWith app]; [by destruct b |].
  by rewrite Z.eqb_refl, IH.
Qed.

Lemma includes_app_l (a b p : jsstring) :
  includes a p = true -> includes (a ++ b) p = true.
Proof.
  induction a as [|x a IH]; cbn [includes app].
  - rewrite orb_false_r. intros H. destruct p; [| discriminate].
    destruct b; cbn [includes startsWith]; reflexivity.
  - intros [H | H]%orb_true_iff; apply orb_true_iff.
    + left. by apply (startsWith_app (x :: a) b p).
    + right. by apply IH.
Qed.

Lemma includes_app_r (a p : jsstring) : includes (a ++ p) p = true.
Proof.
  induction a as [|x a IH].
  - cbn [app]. destruct p as [|y p]; [reflexivity |]. cbn [includes].
    apply orb_true_iff. left.
    pose proof (startsWith_self (y :: p) []) as H. by rewrite app_nil_r in H.
  - cbn [app includes]. apply orb_true_iff. by right.
Qed.

Lemma append_passthrough_includes (output line : jsstring) :
  includes (append_passthrough output line) line = true
  /\ forall l, includes output l = true -> includes (append_passthrough output line) l = true.
Proof.
  unfold append_passthrough. destruct (includes output line) eqn:E; [by split |].
  destruct output as [|c output].
  - split; [exact (includes_app_r [] line) |]. intros l Hl.
    cbn [includes] in Hl. rewrite orb_false_r in Hl. destruct l; [| discriminate].
    by destruct line.
  - split.
    + rewrite app_assoc. apply includes_app_r.
    + intros l Hl. by apply includes_app_l.
Qed.

Lemma passthrough_all_included (lines : list jsstring) (output : jsstring) :
  Forall (fun l => includes (fold_left append_passthrough lines output) l = true) lines
  /\ forall l, includes output l = true ->
               includes (fold_left append_passthrough lines output) l = true.
Proof.
  revert output. induction lines as [|line lines IH]; intros output;
    cbn [fold_left]; [by split |].
  destruct (append_passthrough_includes output line) as [Hline Hkeep].
  destruct (IH (append_passthrough output line)) as [Hall Hmono].
  split; [constructor; [by apply Hmono | exact Hall] |].
  intros l Hl. by apply Hmono, Hkeep.
Qed.

(** X23.  The marker lines of the upstream body (the trimmed, non-empty
    lines without a ['|'], such as an end marker) all occur in the body
    the bootstrap handler returns. *)
Theorem marker_lines_survive (cfg : config) (st st' : state) (body out : jsstring) :
  handleServerDataResponse cfg st body = Some (st', out) ->
  Forall (fun line => includes out line = true) (extractServerDataPassthroughLines body).
Proof.
  unfold handleServerDataResponse. cbv zeta.
  destruct (TextParse.empty _); [discriminate |]. intros [= _ <-].
  apply passthrough_all_included.
Qed.

Lemma marker_lines_survive_witness :
  Forall (fun line =>
            includes
              (match handleServerDataResponse cfg_ignoring_maintenance initial
                       (lit "server|a" ++ [13; 10] ++ lit "port|1" ++ [13; 10]
                        ++ lit "RTENDMARKERBS1001") with
               | Some (_, out) => out
               | None => []
               end) line = true)
         [lit "RTENDMARKERBS1001"].
Proof.
  destruct (handleServerDataResponse cfg_ignoring_maintenance initial
              (lit "server|a" ++ [13; 10] ++ lit "port|1" ++ [13; 10]
               ++ lit "RTENDMARKERBS1001")) as [[st' out]|] eqn:E;
    [| vm_compute in E; discriminate E].
  exact (marker_lines_survive _ _ _ _ _ E).
Defined.

(** X24.  A client-bound frame that is not classified as OnSendToServer
    is handed to the client peer byte for byte (with no script subscriber),
    and the pending endpoint and the peers stay as they were; unless it is
    an OnSpawn or OnRemove call, nothing in the proxy state changes. *)
Theorem other_frames_pass_unchanged (StringToNumber : jsstring -> number) (cfg : config)
    (upstream_connect : jsstring -> number -> bool) (st : state) (rawData : Buffer) :
  parsed_packetId (parsePacket rawData) <> OnSendToServer ->
  is_Some (clientPeer st) ->
  exists st',
    handleClientBoundPacket StringToNumber cfg upstream_connect no_subscribers st 0 rawData
    = Some (st', Some rawData)
    /\ pendingAddress st' = pendingAddress st
    /\ pendingPort st' = pendingPort st
    /\ clientPeer st' = clientPeer st
    /\ serverPeer st' = serverPeer st
    /\ (parsed_packetId (parsePacket rawData) <> OnSpawn ->
        parsed_packetId (parsePacket rawData) <> OnRemove -> st' = st).
Proof.
  intros Hid [peer Hpeer]. unfold handleClientBoundPacket. cbv zeta.
  destruct (is_OnSendToServer (parsed_packetId (parsePacket rawData))) eqn:E.
  { exfalso. apply Hid. by destruct (parsed_packetId (parsePacket rawData)). }
  unfold no_subscribers.
  set (st1 := if is_OnSpawn _ then _ else st).
  set (st2 := if is_OnRemove _ then _ else st1).
  assert (H1 : pendingAddress st1 = pendingAddress st /\ pendingPort st1 = pendingPort st
               /\ clientPeer st1 = clientPeer st /\ serverPeer st1 = serverPeer st
               /\ (parsed_packetId (parsePacket rawData) <> OnSpawn -> st1 = st)).
  { unfold st1. destruct (is_OnSpawn _) eqn:Es.
    - destruct (parsed_variantArgs _); [| by repeat split].
      destruct (parseOnSpawn _); repeat split; try reflexivity;
        intros Hn; destruct (parsed_packetId (parsePacket rawData)); done.
    - by repeat split. }
  assert (H2 : pendingAddress st2 = pendingAddress st /\ pendingPort st2 = pendingPort st
               /\ clientPeer st2 = clientPeer st /\ serverPeer st2 = serverPeer st
               /\ (parsed_packetId (parsePacket rawData) <> OnSpawn ->
                   parsed_packetId (parsePacket rawData) <> OnRemove -> st2 = st)).
  { destruct H1 as (Ha & Hp & Hc & Hs & Hsame). unfold st2.
    destruct (is_OnRemove _) eqn:Er.
    - destruct (parsed_variantArgs _); [| by repeat split; auto].
      destruct (parseOnRemove _); repeat split; auto;
        intros _ Hn; destruct (parsed_packetId (parsePacket rawData)); done.
    - repeat split; auto. }
  destruct H2 as (Ha & Hp & Hc & Hs & Hsame).
  exists st2. rewrite Hc, Hpeer. by repeat split.
Qed.

Lemma other_frames_pass_unchanged_witness :
  exists st',
    handleClientBoundPacket no_numeric_text default_config (fun _ _ => false)
      no_subscribers relaying_state 0 [3; 0; 0; 0; 97; 0]
    = Some (st', Some [3; 0; 0; 0; 97; 0])
    /\ st' = relaying_state.
Proof.
  destruct (other_frames_pass_unchanged no_numeric_text default_config (fun _ _ => false)
              relaying_state [3; 0; 0; 0; 97; 0])
    as (st' & Hrun & _ & _ & _ & _ & Hsame);
    [discriminate | by eexists |].
  exists st'. split; [exact Hrun |]. apply Hsame; discriminate.
Defined.

End ProxyLaws.

(** ** src/proxyCore.js: host names of the web front *)

Section HostLaws.
Import Js Packet ProxyHosts.
Local Open Scope Z_scope.

Variable toLowerCase : jsstring -> jsstring.

Lemma candidates_fold (values : list jsstring) (seen : gset jsstring) (out : list jsstring) :
  (forall h, h ∈ seen <-> h ∈ out) -> NoDup out -> Forall (fun h => h <> []) out ->
  let r := fold_left (candidate_step toLowerCase) values (seen, out) in
  NoDup r.2 /\ Forall (fun h => h <> []) r.2
  /\ forall h, h ∈ r.2 <->
               h ∈ out \/ (h <> [] /\ exists v, v ∈ values /\ h = toLowerCase (trim v)).
Proof.
  revert seen out. induction values as [|v values IH]; intros seen out Hseen Hnd Hne;
    cbn [fold_left].
  { cbv zeta. cbn [snd]. split; [exact Hnd |]. split; [exact Hne |]. intros h. split.
    - by left.
    - intros [H | (_ & x & Hx & _)]; [done | by apply elem_of_nil in Hx]. }
  cbv zeta. destruct (toLowerCase (trim v)) as [|c host] eqn:Ehost.
  - assert (Hs : candidate_step toLowerCase (seen, out) v = (seen, out))
      by (unfold candidate_step; cbv zeta; by rewrite Ehost).
    rewrite Hs. destruct (IH seen out Hseen Hnd Hne) as (H1 & H2 & H3).
    split; [exact H1 |]. split; [exact H2 |]. intros h. split.
    + intros Hh. apply H3 in Hh as [Hh | (Hn & x & Hx & ->)]; [by left |].
      right. split; [exact Hn |]. exists x. split; [by right | reflexivity].
    + intros [Hh | (Hn & x & Hx & ->)]; apply H3; [by left |].
      apply elem_of_cons in Hx as [-> | Hx]; [by rewrite Ehost in Hn |].
      right. split; [exact Hn |]. by exists x.
  - destruct (decide (c :: host ∈ seen)) as [Hin | Hin].
    + assert (Hs : candidate_step toLowerCase (seen, out) v = (seen, out))
        by (unfold candidate_step; cbv zeta; rewrite Ehost; cbn [fst];
            by rewrite bool_decide_eq_true_2).
      rewrite Hs. destruct (IH seen out Hseen Hnd Hne) as (H1 & H2 & H3).
      split; [exact H1 |]. split; [exact H2 |]. intros h. split.
      * intros Hh. apply H3 in Hh as [Hh | (Hn & x & Hx & ->)]; [by left |].
        right. split; [exact Hn |]. exists x. split; [by right | reflexivity].
      * intros [Hh | (Hn & x & Hx & ->)]; apply H3; [by left |].
        apply elem_of_cons in Hx as [-> | Hx].
        -- left. rewrite Ehost. by apply Hseen.
        -- right. split; [exact Hn |]. by exists x.
    + assert (Hs : candidate_step toLowerCase (seen, out) v
                   = ({[c :: host]} ∪ seen, out ++ [c :: host]))
        by (unfold candidate_step; cbv zeta; rewrite Ehost; cbn [fst snd];
            by rewrite bool_decide_eq_false_2).
      rewrite Hs. assert (Hout : c :: host ∉ out) by (by rewrite <- Hseen).
      destruct (IH ({[c :: host]} ∪ seen) (out ++ [c :: host])) as (H1 & H2 & H3).
      * intros h. rewrite elem_of_union, elem_of_singleton, elem_of_app, list_elem_of_singleton.
        rewrite Hseen. tauto.
      * apply NoDup_app. split; [exact Hnd |]. split; [| apply NoDup_singleton].
        intros x Hx ->%list_elem_of_singleton. contradiction.
      * apply Forall_app. split; [exact Hne |]. by constructor.
      * split; [exact H1 |]. split; [exact H2 |]. intros h. split.
        -- intros Hh. apply H3 in Hh as [Hh | (Hn & x & Hx & ->)].
           ++ apply elem_of_app in Hh as [Hh | ->%list_elem_of_singleton]; [by left |].
              right. split; [done |]. exists v. split; [by left | by rewrite Ehost].
           ++ right. split; [exact Hn |]. exists x. split; [by right | reflexivity].
        -- intros [Hh | (Hn & x & Hx & ->)]; apply H3.
           ++ left. apply elem_of_app. by left.
           ++ apply elem_of_cons in Hx as [-> | Hx].
              ** left. rewrite Ehost. apply elem_of_app. right. by apply list_elem_of_singleton.
              ** right. split; [exact Hn |]. by exists x.
Qed.

(** X25.  [buildUpstreamHostCandidates] returns each non-empty trimmed,
    lower-cased host among its arguments and the two default hosts, and
    nothing else; no host is listed twice and none is empty. *)
Theorem upstream_candidates (primaryHosts : list jsstring) :
  let out := buildUpstreamHostCandidates toLowerCase primaryHosts in
  NoDup out
  /\ Forall (fun h => h <> []) out
  /\ forall h, h ∈ out <->
               h <> [] /\ exists v, v ∈ primaryHosts ++ DEFAULT_UPSTREAM_HOSTS
                                    /\ h = toLowerCase (trim v).
Proof.
  cbv zeta. unfold buildUpstreamHostCandidates.
  destruct (candidates_fold (primaryHosts ++ DEFAULT_UPSTREAM_HOSTS) ∅ [])
    as (H1 & H2 & H3); [set_solver | constructor | constructor |].
  split; [exact H1 |]. split; [exact H2 |]. intros h. split.
  - intros Hh. apply H3 in Hh as [Hh | Hh]; [by apply elem_of_nil in Hh | exact Hh].
  - intros Hh. apply H3. by right.
Qed.

Lemma indexOf_at (c : Z) (pre post : jsstring) :
  c ∉ pre -> indexOf c (pre ++ c :: post) = Z.of_nat (length pre).
Proof.
  induction pre as [|x pre IH]; intros Hc; cbn [app indexOf length].
  - by rewrite Z.eqb_refl.
  - apply not_elem_of_cons in Hc as [Hx Hc]. rewrite (IH Hc).
    destruct (Z.eqb_spec x c) as [-> | _]; [done |].
    destruct (Z.ltb_spec (Z.of_nat (length pre)) 0); lia.
Qed.

Lemma indexOf_absent (c : Z) (s : jsstring) : c ∉ s -> indexOf c s = -1.
Proof.
  induction s as [|x s IH]; intros Hc; cbn [indexOf]; [reflexivity |].
  apply not_elem_of_cons in Hc as [Hx Hc]. rewrite (IH Hc).
  by destruct (Z.eqb_spec x c) as [-> | _].
Qed.

Lemma lastIndexOf_absent (c : Z) (s : jsstring) : c ∉ s -> lastIndexOf c s = -1.
Proof.
  induction s as [|x s IH]; intros Hc; cbn [lastIndexOf]; [reflexivity |].
  apply not_elem_of_cons in Hc as [Hx Hc]. rewrite (IH Hc). cbv zeta.
  change (0 <=? -1) with false. cbv iota.
  by destruct (Z.eqb_spec x c) as [-> | _].
Qed.

Lemma lastIndexOf_at (c : Z) (pre post : jsstring) :
  c ∉ post -> lastIndexOf c (pre ++ c :: post) = Z.of_nat (length pre).
Proof.
  intros Hc. induction pre as [|x pre IH]; cbn [app lastIndexOf length]; cbv zeta.
  - rewrite (lastIndexOf_absent c post Hc). change (0 <=? -1) with false. cbv iota.
    by rewrite Z.eqb_refl.
  - rewrite IH. destruct (Z.leb_spec 0 (Z.of_nat (length pre))); lia.
Qed.

Lemma digits_plain (s : jsstring) :
  all_digits s = true ->
  (58 ∉ s) /\ (93 ∉ s) /\ Forall (fun c => is_space c = false) s.
Proof.
  intros H. assert (Hall : forallb is_digit s = true) by (by destruct s).
  rewrite forallb_forall in Hall.
  repeat split.
  - intros Hin%list_elem_of_In. by specialize (Hall _ Hin).
  - intros Hin%list_elem_of_In. by specialize (Hall _ Hin).
  - apply List.Forall_forall. intros c Hc. specialize (Hall c Hc).
    unfold is_digit, is_space in *. lia.
Qed.

(** X26.  [getHostWithoutPort] reduces [host:port] (decimal port, host
    without white space and [']'], not starting with ['[']) and the
    bracketed form [[host]rest] to the lower-cased [host]. *)
Theorem host_header_without_port (host port rest : jsstring) :
  host <> [] ->
  Forall (fun c => is_space c = false) host ->
  Forall (fun c => is_space c = false) rest ->
  93 ∉ host ->
  startsWith host (lit "[") = false ->
  all_digits port = true ->
  getHostWithoutPort toLowerCase (host ++ 58 :: port) = toLowerCase host
  /\ getHostWithoutPort toLowerCase (91 :: host ++ 93 :: rest) = toLowerCase host.
Proof.
  intros Hne Hhost Hrest Hbr Hstart Hport.
  destruct (digits_plain port Hport) as (Hcolon & Hbr' & Hsp).
  split; unfold getHostWithoutPort; cbv zeta.
  - rewrite trim_no_space
      by (apply Forall_app; split; [exact Hhost | by constructor]).
    destruct (host ++ 58 :: port) as [|x raw] eqn:Eraw;
      [by apply app_eq_nil in Eraw as [_ ?] |].
    cbv iota. rewrite <- Eraw. clear x raw Eraw.
    assert (Hopen : startsWith (host ++ 58 :: port) (lit "[") = false).
    { destruct host as [|c host']; [done |]. change (lit "[") with [91] in *.
      cbn [app startsWith] in *. by rewrite startsWith_nil in *. }
    rewrite Hopen.
    rewrite indexOf_absent.
    2:{ rewrite not_elem_of_app, not_elem_of_cons. by repeat split. }
    change (0 <=? -1) with false. cbv iota.
    rewrite (lastIndexOf_at 58 host port Hcolon).
    assert (0 < Z.of_nat (length host)) by (destruct host; [done | cbn [length]; lia]).
    destruct (Z.leb_spec (Z.of_nat (length host)) 0); [lia |].
    replace (Z.to_nat (Z.of_nat (length host) + 1)) with (length (host ++ [58]))
      by (rewrite length_app; cbn [length]; lia).
    rewrite (cons_middle 58 host port), app_assoc, drop_app_length, Hport.
    rewrite <- app_assoc. cbn [app]. rewrite Nat2Z.id. by rewrite take_app_length.
  - rewrite trim_no_space.
    2:{ constructor; [reflexivity |]. apply Forall_app. split; [exact Hhost |].
        by constructor. }
    cbv iota. change (lit "[") with [91]. cbn [startsWith]. rewrite startsWith_nil.
    cbn [andb Z.eqb Pos.eqb]. cbn [drop].
    change (drop 0 (host ++ 93 :: rest)) with (host ++ 93 :: rest). rewrite (indexOf_at 93 host rest Hbr).
    destruct (Z.leb_spec 0 (Z.of_nat (length host))); [| lia].
    rewrite Nat2Z.id. by rewrite take_app_length.
Qed.

End HostLaws.

Section HostLawExamples.
Import Js Packet ProxyHosts.
Local Open Scope Z_scope.

Lemma host_header_without_port_witness :
  getHostWithoutPort (fun s => s) (lit "growtopia1.com:443") = lit "growtopia1.com"
  /\ getHostWithoutPort (fun s => s) (lit "[growtopia1.com]:443")
     = lit "growtopia1.com".
Proof.
  apply (host_header_without_port (fun s => s) (lit "growtopia1.com") (lit "443") (lit ":443"));
    try reflexivity; try discriminate.
  - by repeat constructor.
  - by repeat constructor.
  - vm_compute. intros H. repeat (apply elem_of_cons in H as [H | H]; [discriminate H |]).
    by apply elem_of_nil in H.
Defined.

End HostLawExamples.

(** ** src/commandRegistry.js: a prefix that normalization removes *)

Section PrefixLaws.
Import Js CommandRegistry.
Local Open Scope Z_scope.

Variable toLowerCase : jsstring -> jsstring.

Lemma normalizeInput_head (text : jsstring) :
  match normalizeInput text with
  | c :: _ => is_control c = false /\ is_space c = false
  | [] => True
  end.
Proof.
  pose proof (trimStart_starts
                (strip_bom (List.filter (fun c => negb (is_control c)) text))) as Hstart.
  assert (Hall : Forall (fun c => negb (is_control c) = true) (normalizeInput text))
    by apply trimStart_Forall, strip_bom_Forall, filter_Forall.
  unfold normalizeInput in *.
  destruct (trimStart _) as [|c s]; [exact I |].
  apply Forall_cons in Hall as [Hc _]. split; [by apply negb_true_iff | exact Hstart].
Qed.

(** X27.  [setPrefix] accepts any one-unit prefix, but with a control
    character or a white-space unit as prefix no text is a command:
    [isCommand] is false and [execute] returns false for every input. *)
Theorem unreachable_prefix (r : t) (c : Z) (text : jsstring) (has_logger : bool) :
  (is_control c || is_space c) = true ->
  let r' := setPrefix r [c] in
  prefix r' = [c]
  /\ isCommand r' text = false
  /\ execute toLowerCase r' text has_logger = Return false [].
Proof.
  intros Hc. cbv zeta.
  assert (Hprefix : prefix (setPrefix r [c]) = [c]) by reflexivity.
  assert (Hstart : startsWith (normalizeInput text) [c] = false).
  { pose proof (normalizeInput_head text) as Hhead.
    destruct (normalizeInput text) as [|x s]; [reflexivity |].
    cbn [startsWith]. destruct (Z.eqb_spec c x) as [-> | _]; [| reflexivity].
    destruct Hhead as [H1 H2]. rewrite H1, H2 in Hc. discriminate Hc. }
  split; [exact Hprefix |]. split.
  - unfold isCommand. by rewrite Hprefix.
  - unfold execute, parse. cbv zeta. by rewrite Hprefix, Hstart.
Qed.

End PrefixLaws.

Section PrefixLawExamples.
Import Js CommandRegistry.
Local Open Scope Z_scope.

Lemma unreachable_prefix_witness :
  execute ascii_lower (warp_registry (fun _ => Returns)) (lit "/warp") true = Return true []
  /\ isCommand (setPrefix (warp_registry (fun _ => Returns)) (lit " ")) (lit " warp") = false
  /\ execute ascii_lower (setPrefix (warp_registry (fun _ => Returns)) (lit " ")) (lit " warp") true
     = Return false [].
Proof.
  split; [reflexivity |].
  apply (unreachable_prefix ascii_lower (warp_registry (fun _ => Returns)) 32 (lit " warp") true).
  reflexivity.
Defined.

End PrefixLawExamples.

(** ** src/proxyCore.js: the input text read off the raw frame text *)

Section InputLaws.
Import Js Packet ProxyCore ProxyInput.
Local Open Scope Z_scope.

Lemma trimStart_length (s : jsstring) : (length (trimStart s) <= length s)%nat.
Proof.
  induction s as [|c s IH]; [done |]. cbn [trimStart].
  destruct (is_space c); cbn [length]; lia.
Qed.

Lemma trimStart_fixed_head (s : jsstring) :
  trimStart s = s -> match s with c :: _ => is_space c = false | [] => True end.
Proof.
  destruct s as [|c s]; [done |]. cbn [trimStart].
  destruct (is_space c); [| done]. intros H.
  pose proof (trimStart_length s) as Hlen. rewrite H in Hlen. cbn [length] in Hlen. lia.
Qed.

Lemma trimEnd_app (a b : jsstring) :
  a <> [] -> trimEnd a = a -> trimEnd b = b -> trimEnd (a ++ b) = a ++ b.
Proof.
  unfold trimEnd. intros Hne Ha Hb.
  apply (f_equal (@rev Z)) in Ha, Hb. rewrite rev_involutive in Ha, Hb.
  apply trimStart_fixed_head in Ha, Hb.
  rewrite rev_app_distr, trimStart_fixed; [by rewrite <- rev_app_distr, rev_involutive |].
  destruct (rev b) as [|x t]; [| exact Hb]. cbn [app].
  destruct (rev a) as [|y t] eqn:E; [| exact Ha].
  apply (f_equal (@rev Z)) in E. rewrite rev_involutive in E. done.
Qed.

Lemma first_text_line_skips (before rest : list jsstring) :
  Forall (fun l => startsWith (trim l) (lit "text|") = false
                   /\ startsWith (trim l) (lit "|text|") = false) before ->
  first_text_line (before ++ rest) = first_text_line rest.
Proof.
  induction 1 as [|l before [H1 H2] _ IH]; [reflexivity |].
  cbn [app first_text_line]. cbv zeta. rewrite H1, H2, IH. by destruct (trim l).
Qed.

Lemma extract_lines (lines : list jsstring) :
  lines <> [] ->
  Forall (fun l => TextParse.NL ∉ l) lines ->
  Forall (fun l => CR ∉ l) lines ->
  extractInputTextFallback (join [TextParse.NL] lines) = first_text_line lines.
Proof.
  intros Hne Hnl Hcr.
  assert (Hany : forall s, extractInputTextFallback s
                 = first_text_line
                     (split_on TextParse.NL
                        (replace_all [CR; TextParse.NL] [TextParse.NL] 0 s)))
    by (by intros [|c s]).
  rewrite Hany, (replace_all_absent _ _ _ CR (join_no_cr lines Hcr)).
  by rewrite split_on_join.
Qed.

(** X28.  [extractInputTextFallback] returns what follows [|text|] (or
    [text|]) on the first line that starts so, when the lines before it
    start otherwise and the message has no line break and no trailing
    white space. *)
Theorem input_text_fallback (before after : list jsstring) (msg : jsstring) :
  Forall (fun l => (TextParse.NL ∉ l) /\ (CR ∉ l)) (before ++ msg :: after) ->
  Forall (fun l => startsWith (trim l) (lit "text|") = false
                   /\ startsWith (trim l) (lit "|text|") = false) before ->
  trimEnd msg = msg ->
  extractInputTextFallback
    (join [TextParse.NL] (before ++ (lit "|text|" ++ msg) :: after)) = msg
  /\ extractInputTextFallback
       (join [TextParse.NL] (before ++ (lit "text|" ++ msg) :: after)) = msg.
Proof.
  intros Hplain Hbefore Hmsg.
  apply Forall_app in Hplain as [Hpb Hpa]. apply Forall_cons in Hpa as [[Hm1 Hm2] Hpa].
  assert (Hline : forall p : jsstring,
             p <> [] -> trimStart (p ++ msg) = p ++ msg -> trimEnd p = p ->
             TextParse.NL ∉ p -> CR ∉ p ->
             extractInputTextFallback (join [TextParse.NL] (before ++ (p ++ msg) :: after))
             = first_text_line ((p ++ msg) :: after)
             /\ trim (p ++ msg) = p ++ msg).
  { intros p Hp Hstart Hend Hnl Hcr. split.
    - rewrite extract_lines.
      + by apply first_text_line_skips.
      + by destruct before.
      + apply Forall_app. split; [eapply Forall_impl; [exact Hpb | by intros ? [? ?]] |].
        constructor; [by apply not_elem_of_app |].
        eapply Forall_impl; [exact Hpa | by intros ? [? ?]].
      + apply Forall_app. split; [eapply Forall_impl; [exact Hpb | by intros ? [? ?]] |].
        constructor; [by apply not_elem_of_app |].
        eapply Forall_impl; [exact Hpa | by intros ? [? ?]].
    - unfold trim. rewrite Hstart. by apply trimEnd_app. }
  split.
  - destruct (Hline (lit "|text|")) as [-> Htrim]; try done.
    + vm_compute. intros H. repeat (apply elem_of_cons in H as [H | H]; [discriminate H |]).
      by apply elem_of_nil in H.
    + vm_compute. intros H. repeat (apply elem_of_cons in H as [H | H]; [discriminate H |]).
      by apply elem_of_nil in H.
    + cbn [first_text_line]. cbv zeta. rewrite Htrim.
      change (startsWith (lit "|text|" ++ msg) (lit "text|")) with false. cbv iota.
      rewrite startsWith_self. by rewrite drop_app_length.
  - destruct (Hline (lit "text|")) as [-> Htrim]; try done.
    + vm_compute. intros H. repeat (apply elem_of_cons in H as [H | H]; [discriminate H |]).
      by apply elem_of_nil in H.
    + vm_compute. intros H. repeat (apply elem_of_cons in H as [H | H]; [discriminate H |]).
      by apply elem_of_nil in H.
    + cbn [first_text_line]. cbv zeta. rewrite Htrim.
      rewrite startsWith_self. by rewrite drop_app_length.
Qed.

Lemma input_text_fallback_witness :
  extractInputTextFallback (lit "action|input" ++ [10] ++ lit "|text|/warp start")
  = lit "/warp start"
  /\ extractInputTextFallback (lit "action|input" ++ [10] ++ lit "text|/warp start")
     = lit "/warp start".
Proof.
  apply (input_text_fallback [lit "action|input"] [] (lit "/warp start")).
  - repeat constructor; vm_compute; intros H;
      repeat (apply elem_of_cons in H as [H | H]; [discriminate H |]);
      by apply elem_of_nil in H.
  - by repeat constructor.
  - reflexivity.
Defined.

End InputLaws.

(** ** The frames of a relaying proxy *)

Section OutboundExamples.
Import Js Num Packet PacketBuilders ProxyCore ProxyOutbound.
Local Open Scope Z_scope.

Lemma own_text_frames_witness :
  exists log quit join,
    sendLog relaying_state (lit "Warping to START...") = Some log
    /\ parsed_packetId (parsePacket log) = Log
    /\ sendQuitToExit relaying_state = Some quit
    /\ parsed_packetId (parsePacket quit) = QuitToExit
    /\ sendJoinRequest relaying_state (lit "START") false = Some join
    /\ parsed_packetId (parsePacket join) = JoinRequest.
Proof.
  destruct (own_text_frames relaying_state (lit "Warping to START...") (lit "START") false)
    as (Hlog & Hquit & Hjoin).
  destruct (sendLog relaying_state (lit "Warping to START...")) as [log|] eqn:Elog;
    [| vm_compute in Elog; discriminate Elog].
  destruct (sendQuitToExit relaying_state) as [quit|] eqn:Equit;
    [| vm_compute in Equit; discriminate Equit].
  destruct (sendJoinRequest relaying_state (lit "START") false) as [join|] eqn:Ejoin;
    [| vm_compute in Ejoin; discriminate Ejoin].
  exists log, quit, join.
  repeat apply conj; try reflexivity.
  - by apply Hlog.
  - by apply Hquit.
  - by apply Hjoin.
Defined.

End OutboundExamples.
